(** * jeweler.search: a shallow embedding of the code-search drivers

    The development follows the two [search.py] modules of the repository:
    the legacy one ([find_codes_lyndon], [find_codes_bfs]) and the newer one
    ([lyndon], [bfs], [bracelet], [necklace]).

    Modelling conventions.
    - Python integers are [Z] (or [nat] where the source only ever holds a
      length or a count); floor division [//] is [Z.div], which agrees with
      Python for every non-zero divisor; division by zero is written out as
      [ZeroDivisionError].
    - A code is a list of integers, as the source has it.
    - Scores are finite floating point numbers in the source.  Only their
      order matters to the drivers, so a finite score is an integer here (any
      order embedding of the finite floats), and [-np.inf] is [NegInf].
    - [density] is a rational; [int(n * density)] truncates towards zero.
    - Exceptions are explicit: a driver returns [Ok st] or [Raise e st], where
      [st] is the state reached when the exception left the loop.
    - What a driver does to the outside world (objective calls, best-tracker
      assignments, archiver updates, file writes) is logged in a trace kept
      in the state, newest event last. *)

From stdpp Require Import list strings sorting.
From Stdlib Require Import ZArith QArith Qround Lia.

Local Open Scope Z_scope.

(** ** Python values shared by all drivers *)

Definition code := list Z.

Inductive score :=
| NegInf
| Fin (z : Z).

(** [s > best] for a finite [s], as in [if score > score_best]. *)
Definition score_gt (s : Z) (best : score) : bool :=
  match best with
  | NegInf => true
  | Fin b => b <? s
  end.

(** The order on recorded scores, [-inf] below everything. *)
Definition score_le (a b : score) : Prop :=
  match a, b with
  | NegInf, _ => True
  | Fin _, NegInf => False
  | Fin x, Fin y => x <= y
  end.

Inductive exn :=
| IndexError
| ZeroDivisionError
| ValueError
| StopIteration
| AssertionError.

Inductive result (S : Type) :=
| Ok (s : S)
| Raise (e : exn) (s : S).
Arguments Ok {S} s.
Arguments Raise {S} e s.

Definition final_state {S} (r : result S) : S :=
  match r with
  | Ok s => s
  | Raise _ s => s
  end.

Definition is_ok {S} (r : result S) : bool :=
  match r with
  | Ok _ => true
  | Raise _ _ => false
  end.

(** [int(n * density)]: the product is truncated towards zero. *)
Definition int_mul (n : nat) (density : Q) : Z :=
  Z.quot (Z.of_nat n * Qnum density) (Zpos (Qden density)).

(** [np.sum(code)] *)
Definition np_sum (c : code) : Z := foldr Z.add 0 c.

(** [np.argmax]: the index of the first occurrence of the maximum.  numpy
    raises on an empty sequence, which is [None] here. *)
Fixpoint argmax_from (best_i : nat) (best_v : Z) (i : nat) (l : list Z) : nat :=
  match l with
  | [] => best_i
  | x :: l' =>
      if best_v <? x then argmax_from i x (S i) l'
      else argmax_from best_i best_v (S i) l'
  end.

Definition argmax (l : list Z) : option nat :=
  match l with
  | [] => None
  | x :: l' => Some (argmax_from 0 x 1 l')
  end.

(** [itertools.combinations(pool, r)]: the [r]-element subsequences of
    [pool], in lexicographic order of positions. *)
Fixpoint combinations {A} (pool : list A) (r : nat) {struct pool} : list (list A) :=
  match r, pool with
  | O, _ => [[]]
  | S _, [] => []
  | S r', x :: pool' => (cons x <$> combinations pool' r') ++ combinations pool' r
  end.

(** [math.factorial] on a non-negative argument. *)
Fixpoint factorial (n : nat) : Z :=
  match n with
  | O => 1
  | S n' => Z.of_nat n * factorial n'
  end.

(** The binomial coefficient, by Pascal's rule. *)
Fixpoint binomial (n k : nat) : nat :=
  match n, k with
  | _, O => 1%nat
  | O, S _ => 0%nat
  | S n', S k' => (binomial n' k' + binomial n' k)%nat
  end.

(** Lexicographic order on tuples of positions. *)
Fixpoint lex_lt (a b : list nat) : Prop :=
  match a, b with
  | _, [] => False
  | [], _ :: _ => True
  | x :: a', y :: b' => (x < y)%nat \/ (x = y /\ lex_lt a' b')
  end.

(** ** Brute force search: [bfs] (and the legacy [find_codes_bfs], whose body
    is the same text) *)

Record bfs_state := {
  code_generator : list (list nat);
  bfs_code_best : option code;
  bfs_score_best : score;
  bfs_num_searched_codes : nat;
  (* every [open(filename, 'w')] with the count and the code printed to it *)
  bfs_writes : list (string * (nat * code));
}.

(** [codes[rows, indices] = 1] on a row of [L] zeros. *)
Definition code_of_indices (L : nat) (idx : list nat) : code :=
  (fun j => if bool_decide (j ∈ idx) then 1 else 0) <$> seq 0 L.

(** [-(-a // b)], the value of [np.ceil(a / b)] for [b > 0].  The source
    divides in floating point; the quotient of two integers below 2^53 is
    rounded correctly and cannot cross an integer, so the ceiling is exact
    there, and the model takes it to be exact throughout. *)
Definition ceil_div (a b : Z) : Z := - ((- a) / b).

Section Bfs.
(** The rating of one row: [np.min(np.abs(dft)) - np.var(dft)]. *)
Variable rate : code -> Z.

(** One pass of the loop body after the [break] test. *)
Definition bfs_body (L : nat) (filename : option string)
           (indices : list (list nat)) (st : bfs_state) : result bfs_state :=
  let gen := drop (length indices) (code_generator st) in
  let searched := (bfs_num_searched_codes st + length indices)%nat in
  let codes := code_of_indices L <$> indices in
  let score := rate <$> codes in
  let st1 := {| code_generator := gen;
                bfs_code_best := bfs_code_best st;
                bfs_score_best := bfs_score_best st;
                bfs_num_searched_codes := searched;
                bfs_writes := bfs_writes st |} in
  match argmax score with
  | None => Raise ValueError st1
  | Some best =>
      match score !! best, codes !! best with
      | Some s, Some c =>
          if score_gt s (bfs_score_best st) then
            Ok {| code_generator := gen;
                  bfs_code_best := Some c;
                  bfs_score_best := Fin s;
                  bfs_num_searched_codes := searched;
                  bfs_writes :=
                    match filename with
                    | Some fn => bfs_writes st ++ [(fn, (searched, c))]
                    | None => bfs_writes st
                    end |}
          else Ok st1
      | _, _ => Raise IndexError st1
      end
  end.

(** [for i in range(0, num_batches)], with the [break] on an empty slice. *)
Fixpoint bfs_loop (L : nat) (filename : option string) (num_codes_in_batch : nat)
         (num_batches : nat) (st : bfs_state) : result bfs_state :=
  match num_batches with
  | O => Ok st
  | S n =>
      let indices := take num_codes_in_batch (code_generator st) in
      if decide (length indices = 0%nat) then Ok st
      else
        match bfs_body L filename indices st with
        | Ok st' => bfs_loop L filename num_codes_in_batch n st'
        | Raise e st' => Raise e st'
        end
  end.

Definition bfs_init (gen : list (list nat)) : bfs_state :=
  {| code_generator := gen;
     bfs_code_best := None;
     bfs_score_best := NegInf;
     bfs_num_searched_codes := 0;
     bfs_writes := [] |}.

(** The whole function, with the state it ends in. *)
Definition bfs_run (L : nat) (density : Q) (batch_size : Z)
           (filename : option string) : result bfs_state :=
  let k := int_mul L density in
  if k <? 0 then
    (* itertools.combinations: r must be non-negative *)
    Raise ValueError (bfs_init [])
  else
    let code_generator := combinations (seq 0 L) (Z.to_nat k) in
    if Z.of_nat L <? k then
      (* factorial(L - k) of a negative number *)
      Raise ValueError (bfs_init code_generator)
    else
      let num_combinations :=
        factorial L / (factorial (Z.to_nat k) * factorial (L - Z.to_nat k)) in
      if decide (L = 0%nat) then
        (* batch_size // L *)
        Raise ZeroDivisionError (bfs_init code_generator)
      else
        let num_codes_in_batch := Z.max (batch_size / Z.of_nat L) 1 in
        let num_batches := ceil_div num_combinations num_codes_in_batch in
        bfs_loop L filename (Z.to_nat num_codes_in_batch) (Z.to_nat num_batches)
                 (bfs_init code_generator).

(** [return code_best] *)
Definition bfs (L : nat) (density : Q) (batch_size : Z)
           (filename : option string) : result (option code) :=
  match bfs_run L density batch_size filename with
  | Ok st => Ok (bfs_code_best st)
  | Raise e st => Raise e (bfs_code_best st)
  end.
End Bfs.

(** The legacy module has the same function under the name
    [find_codes_bfs]; the two bodies are the same text. *)
Definition find_codes_bfs_run := bfs_run.

(** ** What the range drivers do to the outside world *)

(** The arguments of one [f.update(...)] call, as the call sites give them. *)
Record update_call := {
  upd_name : string;
  upd_code : option code;
  upd_score : score;
  upd_weight : Z;
}.

(** Every event carries the code length under search when it happened. *)
Inductive event :=
| EvScore (n : nat) (batch : list code)          (* objective_function(...) *)
| EvBest (n : nat) (c : code) (s : Z)            (* score_best = ... *)
| EvUpdate (n : nat) (u : update_call)           (* f.update(...) *)
| EvWrite (n : nat) (count : Z) (c : code) (s : Z). (* open("<n>.txt", 'w'); print *)

(** An objective from [jeweler.objective]: a named scoring function. *)
Record objective := {
  obj_name : string;
  obj_call : code -> Z;
}.

(** A [for] loop over a list whose body may raise. *)
Fixpoint for_each {S A} (body : S -> A -> result S) (st : S) (xs : list A) : result S :=
  match xs with
  | [] => Ok st
  | x :: xs' =>
      match body st x with
      | Ok st' => for_each body st' xs'
      | Raise e st' => Raise e st'
      end
  end.

(** [for _ in range(n)] with a body that may raise. *)
Fixpoint for_range {S} (n : nat) (body : S -> result S) (st : S) : result S :=
  match n with
  | O => Ok st
  | S n' =>
      match body st with
      | Ok st' => for_range n' body st'
      | Raise e st' => Raise e st'
      end
  end.

(** The local variables of the Lyndon drivers. *)
Record lyndon_state := {
  score_best : list score;
  num_searched_codes : list Z;
  ly_trace : list event;
}.

(** The local variables of one length's batch loop in [bracelet]. *)
Record bracelet_state := {
  br_codes : list code;
  br_code_best : option code;
  br_score_best : score;
  br_trace : list event;
}.

(** A Python generator of chunks: what it still yields, and the exception
    that ends it ([None] for a plain [StopIteration]). *)
Record chunk_gen := {
  pending : list (list code);
  ending : option exn;
}.

(** The local variables of one length's batch loop in [necklace]. *)
Record necklace_state := {
  nk_chunks : chunk_gen;
  nk_code_best : option code;
  nk_score_best : score;
  nk_trace : list event;
}.

(** Start of the slice [codes[-batch_size:]] of a list of [len] items. *)
Definition slice_start (len : nat) (batch_size : Z) : nat :=
  if 0 <? batch_size then Z.to_nat (Z.max (Z.of_nat len - batch_size) 0)
  else Z.to_nat (Z.min (- batch_size) (Z.of_nat len)).

(** [chunk - 1] (Sage's necklaces are words over 1, 2, ...). *)
Definition minus_one (chunk : list code) : list code :=
  List.map (List.map (fun v => v - 1)) chunk.

(** The loop of [_necklace_chunk] for a positive chunk height: [chunk] holds
    the [i] rows filled so far. *)
Fixpoint necklace_fill (height : nat) (chunk : list code) (xs : list code)
  : list (list code) :=
  match xs with
  | [] =>
      if decide (length chunk < height)%nat
      then [minus_one chunk] else []
  | x :: xs' =>
      let chunk' := chunk ++ [x] in
      if decide (height <= length chunk')%nat
      then minus_one chunk' :: necklace_fill height [] xs'
      else necklace_fill height chunk' xs'
  end.

(** [_necklace_chunk(necklaces, chunksize)].  The body of a generator runs
    at the first [next]: the assertion, the allocation and the loop.  All
    necklaces of one content have the same length, so only the first row is
    checked against the chunk width, as in the source. *)
Definition _necklace_chunk (necklaces : list code) (chunksize : Z * nat) : chunk_gen :=
  match necklaces with
  | [] => {| pending := []; ending := Some StopIteration |} (* necklaces.first() *)
  | first :: _ =>
      if decide (chunksize.2 = length first) then
        if chunksize.1 <? 0 then
          {| pending := []; ending := Some ValueError |} (* np.empty, negative dimension *)
        else if chunksize.1 =? 0 then
          {| pending := []; ending := Some IndexError |} (* chunk[0] = x, no row 0 *)
        else
          {| pending := necklace_fill (Z.to_nat chunksize.1) [] necklaces;
             ending := None |}
      else {| pending := []; ending := Some AssertionError |}
  end.

Section Drivers.
(** Generators the module imports: [jeweler.lyndon.LengthLimitedLyndonWords],
    [jeweler.bracelet.bracelet_fc] and Sage's [Necklaces], taken as the
    finite sequences they produce for their arguments. *)
Variable LengthLimitedLyndonWords : Z -> nat -> code -> list code.
Variable bracelet_fc : nat -> Z -> list Z -> list code.
Variable Necklaces : list Z -> list code.
(** Storing into the [np.float32] array [score_best] rounds the score. *)
Variable f32 : Z -> Z.

Definition num_allowed_ones_of (L : nat) (density : Q) : list Z :=
  (fun n => int_mul n density) <$> seq 0 (L + 1).

Definition lyndon_init (L : nat) : lyndon_state :=
  {| score_best := replicate (L + 1) NegInf;
     num_searched_codes := replicate (L + 1) 0;
     ly_trace := [] |}.

(** [w = [0] * (L - num_allowed_ones[-1]) + [1] * num_allowed_ones[-1]] *)
Definition lyndon_seed (L : nat) (density : Q) : code :=
  let last := int_mul L density in
  replicate (Z.to_nat (Z.of_nat L - last)) 0 ++ replicate (Z.to_nat last) 1.

(** The body of the loop of [lyndon]. *)
Definition lyndon_body (objective_function : objective) (K : nat)
           (num_allowed_ones : list Z) (st : lyndon_state) (c : code)
  : result lyndon_state :=
  let n := length c in
  if decide (K <= n)%nat then
    match num_allowed_ones !! n with
    | None => Raise IndexError st
    | Some allowed =>
        if decide (np_sum c = allowed) then
          match num_searched_codes st !! n, score_best st !! n with
          | Some count, Some best =>
              let searched := <[n := count + 1]> (num_searched_codes st) in
              let s := obj_call objective_function c in
              let tr := ly_trace st ++ [EvScore n [c]] in
              if score_gt s best then
                Ok {| score_best := <[n := Fin (f32 s)]> (score_best st);
                      num_searched_codes := searched;
                      ly_trace :=
                        tr ++ [EvBest n c s;
                               EvUpdate n {| upd_name := obj_name objective_function;
                                             upd_code := Some c;
                                             upd_score := Fin s;
                                             upd_weight := allowed |}] |}
              else
                Ok {| score_best := score_best st;
                      num_searched_codes := searched;
                      ly_trace := tr |}
          | _, _ => Raise IndexError st
          end
        else Ok st
    end
  else Ok st.

Definition lyndon (K L : nat) (objective_function : objective) (density : Q)
  : result lyndon_state :=
  for_each (lyndon_body objective_function K (num_allowed_ones_of L density))
           (lyndon_init L)
           (LengthLimitedLyndonWords 2 L (lyndon_seed L density)).

(** The legacy driver, with its own [cost_function] and its own file writes. *)
Variable cost_function : code -> Z.

Definition find_codes_lyndon_body (K : nat) (num_allowed_ones : list Z)
           (st : lyndon_state) (c : code) : result lyndon_state :=
  let n := length c in
  if decide (K <= n)%nat then
    match num_allowed_ones !! n with
    | None => Raise IndexError st
    | Some allowed =>
        if decide (np_sum c = allowed) then
          match num_searched_codes st !! n, score_best st !! n with
          | Some count, Some best =>
              let searched := <[n := count + 1]> (num_searched_codes st) in
              let s := cost_function c in
              let tr := ly_trace st ++ [EvScore n [c]] in
              if score_gt s best then
                Ok {| score_best := <[n := Fin (f32 s)]> (score_best st);
                      num_searched_codes := searched;
                      ly_trace := tr ++ [EvBest n c s; EvWrite n (count + 1) c s] |}
              else
                Ok {| score_best := score_best st;
                      num_searched_codes := searched;
                      ly_trace := tr |}
          | _, _ => Raise IndexError st
          end
        else Ok st
    end
  else Ok st.

Definition find_codes_lyndon (K L : nat) (density : Q) : result lyndon_state :=
  for_each (find_codes_lyndon_body K (num_allowed_ones_of L density))
           (lyndon_init L)
           (LengthLimitedLyndonWords 2 L (lyndon_seed L density)).

(** One pass of the batch loop of [bracelet] while searching length [n].
    The objective scores a batch row by row.  On an empty batch the pass
    ends in an exception: [np.argmax] raises on the empty score vector (an
    objective that rejects an empty batch raises one step earlier). *)
Definition bracelet_body (objective_function : objective) (n : nat)
           (batch_size : Z) (st : bracelet_state) : result bracelet_state :=
  let start := slice_start (length (br_codes st)) batch_size in
  let batch := drop start (br_codes st) in
  let codes := take start (br_codes st) in
  let scores := obj_call objective_function <$> batch in
  let tr := br_trace st ++ [EvScore n batch] in
  let st1 := {| br_codes := codes;
                br_code_best := br_code_best st;
                br_score_best := br_score_best st;
                br_trace := tr |} in
  match argmax scores with
  | None => Raise ValueError st1
  | Some best =>
      match scores !! best, batch !! best with
      | Some s, Some c =>
          if score_gt s (br_score_best st) then
            Ok {| br_codes := codes;
                  br_code_best := Some c;
                  br_score_best := Fin s;
                  br_trace := tr ++ [EvBest n c s] |}
          else Ok st1
      | _, _ => Raise IndexError st1
      end
  end.

(** The body of [for L in range(K, L + 1)] in [bracelet]; the state threaded
    through the lengths is the trace. *)
Definition bracelet_length (objective_function : objective) (density : Q)
           (batch_size : Z) (tr : list event) (n : nat) : result (list event) :=
  let k := int_mul n density in
  let codes := bracelet_fc n 2 [Z.of_nat n - k; k] in
  if batch_size =? 0 then Raise ZeroDivisionError tr
  else
    let passes := Z.to_nat (Z.of_nat (length codes) / batch_size + 1) in
    match for_range passes (bracelet_body objective_function n batch_size)
                    {| br_codes := codes;
                       br_code_best := None;
                       br_score_best := NegInf;
                       br_trace := tr |} with
    | Raise e st => Raise e (br_trace st)
    | Ok st =>
        Ok (br_trace st ++
            [EvUpdate n {| upd_name := obj_name objective_function;
                           upd_code := br_code_best st;
                           upd_score := br_score_best st;
                           upd_weight := k |}])
    end.

Definition bracelet (K L : nat) (objective_function : objective) (density : Q)
           (batch_size : Z) : result (list event) :=
  for_each (bracelet_length objective_function density batch_size)
           [] (seq K (L + 1 - K)).

(** One pass of the batch loop of [necklace] while searching length [n]. *)
Definition necklace_body (objective_function : objective) (n : nat)
           (st : necklace_state) : result necklace_state :=
  match pending (nk_chunks st) with
  | [] =>
      (* next(chunks) on a finished generator *)
      Raise (default StopIteration (ending (nk_chunks st))) st
  | batch :: rest =>
      let chunks := {| pending := rest; ending := ending (nk_chunks st) |} in
      let scores := obj_call objective_function <$> batch in
      let tr := nk_trace st ++ [EvScore n batch] in
      let st1 := {| nk_chunks := chunks;
                    nk_code_best := nk_code_best st;
                    nk_score_best := nk_score_best st;
                    nk_trace := tr |} in
      match argmax scores with
      | None => Raise ValueError st1
      | Some best =>
          match scores !! best, batch !! best with
          | Some s, Some c =>
              if score_gt s (nk_score_best st) then
                Ok {| nk_chunks := chunks;
                      nk_code_best := Some c;
                      nk_score_best := Fin s;
                      nk_trace := tr ++ [EvBest n c s] |}
              else Ok st1
          | _, _ => Raise IndexError st1
          end
      end
  end.

Definition necklace_length (objective_function : objective) (density : Q)
           (batch_size : Z) (tr : list event) (n : nat) : result (list event) :=
  let k := int_mul n density in
  let codes := Necklaces [Z.of_nat n - k; k] in
  let ncodes := length codes in
  let chunks := _necklace_chunk codes (batch_size, n) in
  if batch_size =? 0 then Raise ZeroDivisionError tr
  else
    let passes := Z.to_nat (Z.of_nat ncodes / batch_size + 1) in
    match for_range passes (necklace_body objective_function n)
                    {| nk_chunks := chunks;
                       nk_code_best := None;
                       nk_score_best := NegInf;
                       nk_trace := tr |} with
    | Raise e st => Raise e (nk_trace st)
    | Ok st =>
        Ok (nk_trace st ++
            [EvUpdate n {| upd_name := obj_name objective_function;
                           upd_code := nk_code_best st;
                           upd_score := nk_score_best st;
                           upd_weight := k |}])
    end.

Definition necklace (K L : nat) (objective_function : objective) (density : Q)
           (batch_size : Z) : result (list event) :=
  for_each (necklace_length objective_function density batch_size)
           [] (seq K (L + 1 - K)).
End Drivers.

(** ** Specification vocabulary *)

(** [best] is the first element of [seen] that maximises [f]. *)
Definition first_max {A} (f : A -> Z) (seen : list A) (best : option A) : Prop :=
  match best with
  | None => seen = []
  | Some x =>
      exists before after,
        seen = before ++ x :: after /\
        (forall y, y ∈ before -> f y < f x) /\
        (forall y, y ∈ after -> f y <= f x)
  end.

(** The score a tracker holds for a given best element. *)
Definition score_of {A} (f : A -> Z) (best : option A) : score :=
  match best with
  | None => NegInf
  | Some x => Fin (f x)
  end.

(** The rating of the code with ones at the given positions. *)
Definition index_rate (rate : code -> Z) (L : nat) (idx : list nat) : Z :=
  rate (code_of_indices L idx).

(** The tracker holds the first maximum of the combinations drawn so far. *)
Definition bfs_tracks (rate : code -> Z) (L : nat) (seen : list (list nat))
           (st : bfs_state) : Prop :=
  exists best,
    first_max (index_rate rate L) seen best /\
    bfs_code_best st = code_of_indices L <$> best /\
    bfs_score_best st = score_of (index_rate rate L) best.

(** The positions of the ones of a code. *)
Definition positions (c : code) : list nat :=
  filter (fun j => c !! j = Some 1) (seq 0 (length c)).

(** A code over the alphabet 0, 1. *)
Definition binary (c : code) : Prop := Forall (fun v => v = 0 \/ v = 1) c.

(** ** Vocabulary for the Lyndon drivers *)

(** The per-length arrays have one slot per length 0..L. *)
Definition lyndon_wf (L : nat) (st : lyndon_state) : Prop :=
  length (score_best st) = (L + 1)%nat /\
  length (num_searched_codes st) = (L + 1)%nat.

(** The filter of the Lyndon drivers, in the words of the specification. *)
Definition passes_filter (K : nat) (density : Q) (w : code) : Prop :=
  (K <= length w)%nat /\
  np_sum w = Qfloor (inject_Z (Z.of_nat (length w)) * density).

(** The word was counted under its length and handed to the objective. *)
Definition counted_and_scored (st st' : lyndon_state) (w : code) : Prop :=
  exists count rest,
    num_searched_codes st !! length w = Some count /\
    num_searched_codes st' = <[length w := count + 1]> (num_searched_codes st) /\
    ly_trace st' = ly_trace st ++ EvScore (length w) [w] :: rest.

(** Events that persist a result: archiver updates and file writes. *)
Definition persists (e : event) : bool :=
  match e with
  | EvUpdate _ _ | EvWrite _ _ _ _ => true
  | EvScore _ _ | EvBest _ _ _ => false
  end.

(** A trace with its persistence events removed. *)
Definition unpersisted (tr : list event) : list event :=
  List.filter (fun e => negb (persists e)) tr.

(** The codes handed to the objective, in order. *)
Definition scored_codes (tr : list event) : list code :=
  concat (List.map (fun e => match e with EvScore _ batch => batch | _ => [] end) tr).

(** Two runs end the same way: both normally, or with the same exception. *)
Definition same_outcome {S T} (r : result S) (r' : result T) : Prop :=
  match r, r' with
  | Ok _, Ok _ => True
  | Raise e _, Raise e' _ => e = e'
  | _, _ => False
  end.

(** The two Lyndon drivers in step: same arrays, same trace up to persistence. *)
Definition lyndon_in_step (st st' : lyndon_state) : Prop :=
  score_best st = score_best st' /\
  num_searched_codes st = num_searched_codes st' /\
  unpersisted (ly_trace st) = unpersisted (ly_trace st').

(** ** Vocabulary for traces *)

Global Instance score_eq_dec : EqDecision score.
Proof. solve_decision. Defined.

(** The code length an event belongs to. *)
Definition event_length (e : event) : nat :=
  match e with
  | EvScore n _ | EvBest n _ _ | EvUpdate n _ | EvWrite n _ _ _ => n
  end.

(** Every best-tracker assignment is followed at once by the archiver update
    that carries the same code and score. *)
Fixpoint flushed_immediately (tr : list event) : bool :=
  match tr with
  | [] => true
  | EvBest n c s :: rest =>
      match rest with
      | EvUpdate n' u :: _ =>
          bool_decide (n' = n) && bool_decide (upd_code u = Some c)
          && bool_decide (upd_score u = Fin s) && flushed_immediately rest
      | _ => false
      end
  | _ :: rest => flushed_immediately rest
  end.

(** The lengths for which the archiver was updated, in order. *)
Definition update_lengths (tr : list event) : list nat :=
  concat (List.map (fun e => match e with EvUpdate n _ => [n] | _ => [] end) tr).

(** An archiver update closes its length: whatever follows it in the trace
    belongs to a greater length. *)
Fixpoint deferred (tr : list event) : Prop :=
  match tr with
  | [] => True
  | e :: rest =>
      match e with
      | EvUpdate n _ => Forall (fun e' => (n < event_length e')%nat) rest
      | _ => True
      end /\ deferred rest
  end.

(** The batches handed to the objective, in order. *)
Definition scored_batches (tr : list event) : list (list code) :=
  concat (List.map (fun e => match e with EvScore _ batch => [batch] | _ => [] end) tr).

(** The total number of codes handed to the objective. *)
Definition scored_count (tr : list event) : nat := length (scored_codes tr).

(** What an update of the Lyndon driver carries. *)
Definition lyndon_update_ok (objective_function : objective) (density : Q)
           (e : event) : Prop :=
  match e with
  | EvUpdate n u =>
      exists c,
        upd_code u = Some c /\ length c = n /\
        upd_name u = obj_name objective_function /\
        upd_score u = Fin (obj_call objective_function c) /\
        upd_weight u = int_mul n density /\
        np_sum c = upd_weight u
  | _ => True
  end.

(** The tracked best of a batch loop: nothing yet, or a code with its score. *)
Definition best_consistent (objective_function : objective)
           (code_best : option code) (score_best : score) : Prop :=
  match code_best with
  | Some c => score_best = Fin (obj_call objective_function c)
  | None => score_best = NegInf
  end.

(** What an update of the bracelet and necklace drivers carries. *)
Definition batch_update_ok (objective_function : objective) (density : Q)
           (e : event) : Prop :=
  match e with
  | EvUpdate n u =>
      upd_name u = obj_name objective_function /\
      upd_weight u = int_mul n density /\
      best_consistent objective_function (upd_code u) (upd_score u)
  | _ => True
  end.

(** An event of the batch loop of length [n]: scoring or best tracking. *)
Definition scoring_event (n : nat) (e : event) : Prop :=
  event_length e = n /\ persists e = false.

(** What one pass of a range driver's outer loop adds to the trace: the
    scoring events of that length, then, unless the pass raised, one update. *)
Definition length_pass_spec (ok : event -> Prop)
           (pass : list event -> nat -> result (list event)) : Prop :=
  forall tr n,
    exists ev,
      Forall (scoring_event n) ev /\
      match pass tr n with
      | Ok tr' => exists u, tr' = tr ++ ev ++ [EvUpdate n u] /\ ok (EvUpdate n u)
      | Raise _ tr' => tr' = tr ++ ev
      end.

(** One update per length on normal completion; a run cut short by an
    exception has updated a proper prefix of the lengths. *)
Definition one_update_per_length (K L : nat) (r : result (list event)) : Prop :=
  match r with
  | Ok tr => update_lengths tr = seq K (L + 1 - K)
  | Raise _ tr => exists j, (j < L + 1 - K)%nat /\ update_lengths tr = seq K j
  end.

(** The invariant of a length's batch loop, started with the trace [tr0]. *)
Definition batch_loop_inv (objective_function : objective) (n : nat)
           (tr0 tr : list event) (code_best : option code) (best : score) : Prop :=
  exists ev,
    tr = tr0 ++ ev /\ Forall (scoring_event n) ev /\
    best_consistent objective_function code_best best.

(** ** Vocabulary for monotonicity *)

(** A recorded score is a value of the [np.float32] array. *)
Definition float32_valued (f32 : Z -> Z) (st : lyndon_state) : Prop :=
  Forall (fun s => match s with NegInf => True | Fin z => f32 z = z end) (score_best st).

(** No per-length best score went down. *)
Definition scores_monotone (st st' : lyndon_state) : Prop :=
  Forall2 score_le (score_best st) (score_best st').

(** The searched count of length [n] went up by one. *)
Definition count_incremented (st st' : lyndon_state) (n : nat) : Prop :=
  exists count,
    num_searched_codes st !! n = Some count /\
    num_searched_codes st' !! n = Some (count + 1).

(** ** Sample inputs, used to run the drivers on concrete data *)

(** The code read as a binary number, least significant bit first. *)
Definition demo_rate (c : code) : Z := foldr (fun v acc => v + 2 * acc) 0 c.

(** [demo_rate] as a named objective. *)
Definition demo_objective : objective :=
  {| obj_name := "demo"; obj_call := demo_rate |}.

(** What a Lyndon-word generator could yield for words up to length 4. *)
Definition demo_words : Z -> nat -> code -> list code :=
  fun _ _ _ => [[0; 0; 1; 1]; [0; 1]; [0; 1; 1]; [0; 1; 0; 1]; [0; 1; 1; 1]; [1]].

(** The bracelets with as many ones as zeros, for lengths 4 and 6. *)
Definition demo_bracelet_fc : nat -> Z -> list Z -> list code :=
  fun n _ _ =>
    match n with
    | 4%nat => [[0; 0; 1; 1]; [0; 1; 0; 1]]
    | 6%nat => [[0; 0; 0; 1; 1; 1]; [0; 0; 1; 0; 1; 1]; [0; 1; 0; 1; 0; 1]]
    | _ => []
    end.

(** The necklaces of content (2, 2) and (3, 3), over Sage's letters 1, 2. *)
Definition demo_Necklaces : list Z -> list code :=
  fun content =>
    match content with
    | [2; 2] => [[1; 1; 2; 2]; [1; 2; 1; 2]]
    | [3; 3] => [[1; 1; 1; 2; 2; 2]; [1; 1; 2; 1; 2; 2];
                 [1; 1; 2; 2; 1; 2]; [1; 2; 1; 2; 1; 2]]
    | _ => []
    end.

(** A batch-loop state of [bracelet] with both bracelets of length 4 left. *)
Definition demo_bracelet_state : bracelet_state :=
  {| br_codes := [[0; 0; 1; 1]; [0; 1; 0; 1]];
     br_code_best := None;
     br_score_best := NegInf;
     br_trace := [] |}.

(** A batch-loop state of [necklace] in chunks of one necklace. *)
Definition demo_necklace_state : necklace_state :=
  {| nk_chunks := _necklace_chunk (demo_Necklaces [2; 2]) (1, 4%nat);
     nk_code_best := None;
     nk_score_best := NegInf;
     nk_trace := [] |}.

(** The same scores as [demo_rate], computed from the most significant end. *)
Definition demo_rate' (c : code) : Z :=
  fold_left (fun acc v => v + 2 * acc) (rev c) 0.

(** [demo_rate'] under the same name. *)
Definition demo_objective' : objective :=
  {| obj_name := "demo"; obj_call := demo_rate' |}.

(** ** Vocabulary for the further properties *)

(** A batch loop's tracker holds the first maximum of the codes scored so far. *)
Definition tracks_first_max (objective_function : objective) (seen : list code)
           (code_best : option code) (best : score) : Prop :=
  first_max (obj_call objective_function) seen code_best /\
  best = score_of (obj_call objective_function) code_best.

(** The invariant of [bracelet]'s batch loop over the bracelets [codes]: the
    batches scored so far, last batch first, are the tail already removed. *)
Definition bracelet_loop_inv (objective_function : objective) (n : nat)
           (codes : list code) (tr0 : list event) (st : bracelet_state) : Prop :=
  exists ev,
    br_trace st = tr0 ++ ev /\ Forall (scoring_event n) ev /\
    br_codes st ++ concat (rev (scored_batches ev)) = codes /\
    tracks_first_max objective_function (scored_codes ev)
                     (br_code_best st) (br_score_best st).

(** The invariant of [necklace]'s batch loop over the generator's chunks. *)
Definition necklace_loop_inv (objective_function : objective) (n : nat)
           (chunks : list (list code)) (tr0 : list event) (st : necklace_state) : Prop :=
  exists ev,
    nk_trace st = tr0 ++ ev /\ Forall (scoring_event n) ev /\
    scored_batches ev ++ pending (nk_chunks st) = chunks /\
    tracks_first_max objective_function (scored_codes ev)
                     (nk_code_best st) (nk_score_best st).

(** The larger of two recorded scores. *)
Definition score_max (a b : score) : score :=
  match a, b with
  | NegInf, _ => b
  | _, NegInf => a
  | Fin x, Fin y => Fin (Z.max x y)
  end.

(** The words of length [n] that the filter of the Lyndon drivers lets through. *)
Definition candidates (K : nat) (density : Q) (n : nat) (words : list code) : list code :=
  filter (fun w => length w = n /\ (K <= length w)%nat /\
                   np_sum w = int_mul (length w) density) words.

(** The best score among [ws] as the float32 array can hold it. *)
Definition best_rounded (f32 : Z -> Z) (f : code -> Z) (ws : list code) : score :=
  foldr (fun w acc => score_max (Fin (f32 (f w))) acc) NegInf ws.

(** A generator that breaks the length limit 4 with its second word. *)
Definition demo_words_overlong : Z -> nat -> code -> list code :=
  fun _ _ _ => [[0; 1]; [0; 0; 1; 1; 1]; [0; 0; 1; 1]].

(** What the file of [bfs] holds: nothing while no code has been chosen,
    otherwise the chosen code under the count at which it was found. *)
Definition bfs_file_inv (filename : option string) (st : bfs_state) : Prop :=
  match filename with
  | None => bfs_writes st = []
  | Some fn =>
      Forall (fun w => w.1 = fn) (bfs_writes st) /\
      match bfs_code_best st with
      | None => bfs_writes st = []
      | Some c =>
          exists count,
            last (bfs_writes st) = Some (fn, (count, c)) /\
            (1 <= count <= bfs_num_searched_codes st)%nat
      end
  end.

(** No batch handed to the objective has more than [batch_size] codes. *)
Definition batches_bounded (batch_size : Z) (tr : list event) : Prop :=
  Forall (fun batch : list code => Z.of_nat (length batch) <= batch_size) (scored_batches tr).

(** What a file written by [find_codes_lyndon] holds, against the searched
    counts [counts] of a later moment. *)
Definition legacy_write_ok (cost_function : code -> Z) (K : nat) (density : Q)
           (counts : list Z) (e : event) : Prop :=
  match e with
  | EvWrite n count c s =>
      length c = n /\ (K <= n)%nat /\ np_sum c = int_mul n density /\
      s = cost_function c /\
      exists searched, counts !! n = Some searched /\ 1 <= count <= searched
  | _ => True
  end.

(** The archiver updates made for length [n], in order. *)
Definition updates_for (n : nat) (tr : list event) : list update_call :=
  concat (List.map (fun e => match e with
                             | EvUpdate m u => if decide (m = n) then [u] else []
                             | _ => []
                             end) tr).

(** The update [lyndon] makes for a candidate [c]. *)
Definition lyndon_update (objective_function : objective) (density : Q) (c : code)
  : update_call :=
  {| upd_name := obj_name objective_function;
     upd_code := Some c;
     upd_score := Fin (obj_call objective_function c);
     upd_weight := int_mul (length c) density |}.

(** The state of [lyndon] after the words [seen], for every length: the
    tracker and the last update hold the first maximal candidate. *)
Definition lyndon_archive_inv (objective_function : objective) (K L : nat) (density : Q)
           (seen : list code) (st : lyndon_state) : Prop :=
  forall n, (n <= L)%nat ->
    exists best,
      first_max (obj_call objective_function) (candidates K density n seen) best /\
      score_best st !! n = Some (score_of (obj_call objective_function) best) /\
      last (updates_for n (ly_trace st)) = lyndon_update objective_function density <$> best.

(** Lexicographic order on codes of the same length. *)
Fixpoint code_lex_le (a b : code) : Prop :=
  match a, b with
  | [], _ => True
  | _ :: _, [] => False
  | x :: a', y :: b' => x < y \/ (x = y /\ code_lex_le a' b')
  end.

(** * Properties *)

(** ** Arithmetic of the configuration *)

Lemma int_mul_floor (n : nat) (density : Q) :
  (0 <= density)%Q ->
  int_mul n density = Qfloor (inject_Z (Z.of_nat n) * density).
Proof.
  intros Hd. unfold int_mul, Qfloor, Qmult, inject_Z, Qle in *. simpl in *.
  rewrite Z.quot_div_nonneg by lia. reflexivity.
Qed.

Lemma int_mul_bounds (n : nat) (density : Q) :
  (0 <= density)%Q -> (density <= 1)%Q ->
  0 <= int_mul n density <= Z.of_nat n.
Proof.
  intros H0 H1. unfold int_mul, Qle in *. simpl in *.
  rewrite Z.quot_div_nonneg by lia. split.
  - apply Z.div_pos; lia.
  - apply Z.div_le_upper_bound; nia.
Qed.

Lemma ceil_div_covers (a b : Z) : 0 < b -> a <= ceil_div a b * b.
Proof.
  intros Hb. unfold ceil_div.
  pose proof (Z.mul_div_le (- a) b Hb). lia.
Qed.

Lemma ceil_div_nonneg (a b : Z) : 0 < b -> 0 <= a -> 0 <= ceil_div a b.
Proof.
  intros Hb Ha. unfold ceil_div.
  assert ((- a) / b <= 0); [| lia].
  apply Z.div_le_upper_bound; lia.
Qed.

(** ** [itertools.combinations] *)

Lemma combinations_length {A} (pool : list A) (r : nat) :
  length (combinations pool r) = binomial (length pool) r.
Proof.
  revert r. induction pool as [| x pool IH]; intros [| r]; simpl; try reflexivity.
  rewrite length_app, length_fmap, !IH. reflexivity.
Qed.

Lemma binomial_gt (n k : nat) : (n < k)%nat -> binomial n k = 0%nat.
Proof.
  revert k. induction n as [| n IH]; intros [| k] H; simpl; try lia.
  rewrite !IH by lia. reflexivity.
Qed.

Lemma binomial_diag (n : nat) : binomial n n = 1%nat.
Proof.
  induction n as [| n IH]; simpl; [reflexivity |].
  rewrite IH, binomial_gt by lia. reflexivity.
Qed.

Lemma factorial_pos (n : nat) : 0 < factorial n.
Proof. induction n as [| n IH]; simpl factorial; lia. Qed.

Lemma factorial_S (n : nat) : factorial (S n) = Z.of_nat (S n) * factorial n.
Proof. reflexivity. Qed.

(** Pascal's triangle against the closed form the source computes. *)
Lemma binomial_factorial (n k : nat) :
  (k <= n)%nat ->
  Z.of_nat (binomial n k) * (factorial k * factorial (n - k)) = factorial n.
Proof.
  revert k. induction n as [| n IH]; intros k Hk.
  - assert (k = 0%nat) by lia. subst. reflexivity.
  - destruct k as [| k].
    + simpl binomial. rewrite Nat.sub_0_r. simpl factorial at 1. lia.
    + destruct (decide (k = n)) as [-> | Hne].
      * rewrite binomial_diag, Nat.sub_diag. simpl factorial at 2. lia.
      * simpl binomial. rewrite Nat2Z.inj_add.
        assert (Hk' : (k <= n)%nat) by lia.
        assert (Hk'' : (S k <= n)%nat) by lia.
        pose proof (IH k Hk') as E1. pose proof (IH (S k) Hk'') as E2.
        replace (S n - S k)%nat with (n - k)%nat by lia.
        replace (n - k)%nat with (S (n - S k)) in * by lia.
        rewrite (factorial_S n).
        rewrite (factorial_S k) in *. rewrite (factorial_S (n - S k)) in *.
        replace (Z.of_nat (S n)) with (Z.of_nat (S k) + Z.of_nat (S (n - S k))) by lia.
        nia.
Qed.

Lemma num_combinations_binomial (n k : nat) :
  (k <= n)%nat ->
  factorial n / (factorial k * factorial (n - k)) = Z.of_nat (binomial n k).
Proof.
  intros Hk. rewrite <- (binomial_factorial n k Hk).
  apply Z.div_mul. pose proof (factorial_pos k). pose proof (factorial_pos (n - k)). nia.
Qed.

Lemma combinations_sublist {A} (pool : list A) (r : nat) (c : list A) :
  c ∈ combinations pool r -> c `sublist_of` pool /\ length c = r.
Proof.
  revert r c. induction pool as [| x pool IH]; intros [| r] c; simpl.
  - intros ->%list_elem_of_singleton. split; [constructor | reflexivity].
  - intros H%elem_of_nil. destruct H.
  - intros ->%list_elem_of_singleton. split; [apply sublist_nil_l | reflexivity].
  - rewrite elem_of_app, list_elem_of_fmap.
    intros [(c' & -> & Hc') | Hc].
    + destruct (IH _ _ Hc') as [Hs Hl]. split; [by constructor | simpl; lia].
    + destruct (IH _ _ Hc) as [Hs Hl]. split; [by constructor | done].
Qed.

Lemma combinations_complete {A} (pool c : list A) :
  c `sublist_of` pool -> c ∈ combinations pool (length c).
Proof.
  induction 1 as [| x c pool Hs IH | x c pool Hs IH]; simpl.
  - apply list_elem_of_singleton. reflexivity.
  - apply elem_of_app. left. apply list_elem_of_fmap. eauto.
  - destruct c as [| y c]; simpl in *.
    + destruct pool; apply list_elem_of_singleton; reflexivity.
    + apply elem_of_app. right. exact IH.
Qed.

Lemma combinations_head {A} (pool : list A) (r : nat) (c : list A) :
  c ∈ combinations pool (S r) -> exists y c', c = y :: c' /\ y ∈ pool.
Proof.
  intros [Hs Hl]%combinations_sublist.
  destruct c as [| y c']; [discriminate |].
  exists y, c'. split; [reflexivity |].
  eapply elem_of_sublist; [| exact Hs]. left.
Qed.

Lemma lex_lt_same_head (x : nat) (a b : list nat) :
  lex_lt a b -> lex_lt (x :: a) (x :: b).
Proof. intros H. simpl. right. split; [reflexivity | exact H]. Qed.

(** The enumeration order is lexicographic over the positions. *)
Lemma combinations_sorted (pool : list nat) (r : nat) :
  StronglySorted lt pool -> StronglySorted lex_lt (combinations pool r).
Proof.
  revert r. induction pool as [| x pool IH]; intros [| r] Hp; simpl.
  - repeat constructor.
  - constructor.
  - repeat constructor.
  - apply StronglySorted_cons in Hp as [Hx Hp].
    apply StronglySorted_app_2.
    + intros a b (a' & -> & _)%list_elem_of_fmap Hb.
      apply combinations_head in Hb as (y & b' & -> & Hy).
      simpl. left. rewrite Forall_forall in Hx. apply Hx, Hy.
    + specialize (IH r Hp). clear -IH.
      induction IH as [| a l Hl IHl Ha]; [constructor |].
      rewrite fmap_cons. constructor; [exact IHl |].
      rewrite Forall_fmap. eapply Forall_impl; [exact Ha |].
      intros b Hb. apply lex_lt_same_head, Hb.
    + apply IH, Hp.
Qed.

Lemma seq_sorted (start len : nat) : StronglySorted lt (seq start len).
Proof.
  revert start. induction len as [| len IH]; intros start; simpl; constructor.
  - apply IH.
  - apply Forall_forall. intros y Hy%elem_of_seq. lia.
Qed.

(** ** Codes built from positions *)

Lemma code_of_indices_length (L : nat) (idx : list nat) :
  length (code_of_indices L idx) = L.
Proof. unfold code_of_indices. rewrite length_fmap. apply length_seq. Qed.

Lemma indicator_sum (pool idx : list nat) :
  NoDup pool -> idx `sublist_of` pool ->
  np_sum ((fun j => if bool_decide (j ∈ idx) then 1 else 0) <$> pool)
  = Z.of_nat (length idx).
Proof.
  intros Hnd Hs. revert Hnd.
  induction Hs as [| x idx pool Hs IH | x idx pool Hs IH]; intros Hnd.
  - reflexivity.
  - apply NoDup_cons in Hnd as [Hx Hnd]. rewrite fmap_cons. simpl np_sum.
    rewrite bool_decide_eq_true_2 by left.
    rewrite length_cons, Nat2Z.inj_succ, <- (IH Hnd). unfold Z.succ.
    rewrite Z.add_comm. f_equal. fold (np_sum). f_equal.
    apply list_fmap_ext. intros i j Hj. apply list_elem_of_lookup_2 in Hj.
    assert (j <> x) by (intros ->; contradiction).
    destruct (decide (j ∈ idx)) as [Hin | Hin].
    + rewrite !bool_decide_eq_true_2; [reflexivity | exact Hin | by right].
    + rewrite !bool_decide_eq_false_2; [reflexivity | exact Hin |].
      intros [? | ?]%elem_of_cons; contradiction.
  - apply NoDup_cons in Hnd as [Hx Hnd]. rewrite fmap_cons. simpl np_sum.
    rewrite bool_decide_eq_false_2.
    + rewrite <- (IH Hnd). unfold np_sum. lia.
    + intros Hin. apply Hx. eapply elem_of_sublist; [exact Hin | exact Hs].
Qed.

Lemma code_of_indices_weight (L r : nat) (idx : list nat) :
  idx ∈ combinations (seq 0 L) r ->
  np_sum (code_of_indices L idx) = Z.of_nat r.
Proof.
  intros [Hs Hl]%combinations_sublist. unfold code_of_indices.
  rewrite indicator_sum; [lia | apply NoDup_seq | exact Hs].
Qed.

(** ** [np.argmax] and the strict comparison against the running best *)

Lemma argmax_from_spec (l : list Z) :
  forall (best_i : nat) (best_v : Z) (p : list Z),
    p !! best_i = Some best_v ->
    (forall j w, p !! j = Some w -> (j < best_i)%nat -> w < best_v) ->
    (forall j w, p !! j = Some w -> w <= best_v) ->
    exists v,
      (p ++ l) !! argmax_from best_i best_v (length p) l = Some v /\
      (forall j w, (p ++ l) !! j = Some w ->
                   (j < argmax_from best_i best_v (length p) l)%nat -> w < v) /\
      (forall j w, (p ++ l) !! j = Some w -> w <= v).
Proof.
  induction l as [| x l IH]; intros best_i best_v p Hb Hlt Hle; simpl.
  - rewrite app_nil_r. eauto.
  - replace (p ++ x :: l) with ((p ++ [x]) ++ l) by (rewrite <- app_assoc; reflexivity).
    replace (S (length p)) with (length (p ++ [x])) by (rewrite length_app; simpl; lia).
    destruct (best_v <? x) eqn:Hcmp.
    + apply Z.ltb_lt in Hcmp. apply IH.
      * rewrite lookup_app_r by lia. rewrite Nat.sub_diag. reflexivity.
      * intros j w Hj Hjlt. rewrite lookup_app_l in Hj by lia.
        specialize (Hle _ _ Hj). lia.
      * intros j w Hj. apply lookup_app_Some in Hj as [Hj | [_ Hj]].
        -- specialize (Hle _ _ Hj). lia.
        -- apply list_lookup_singleton_Some in Hj as [_ ->]. lia.
    + apply Z.ltb_ge in Hcmp. apply lookup_lt_Some in Hb as Hbi. apply IH.
      * rewrite lookup_app_l by lia. exact Hb.
      * intros j w Hj Hjlt. rewrite lookup_app_l in Hj by lia. eauto.
      * intros j w Hj. apply lookup_app_Some in Hj as [Hj | [_ Hj]].
        -- eauto.
        -- apply list_lookup_singleton_Some in Hj as [_ ->]. lia.
Qed.

Lemma argmax_spec (l : list Z) (i : nat) :
  argmax l = Some i ->
  exists v, l !! i = Some v /\
            (forall j w, l !! j = Some w -> (j < i)%nat -> w < v) /\
            (forall j w, l !! j = Some w -> w <= v).
Proof.
  destruct l as [| x l]; simpl; [discriminate |]. intros [= <-].
  apply (argmax_from_spec l 0 x [x]).
  - reflexivity.
  - intros; lia.
  - intros j w Hj. apply list_lookup_singleton_Some in Hj as [_ ->]. lia.
Qed.

Lemma argmax_is_Some (l : list Z) : l <> [] -> exists i, argmax l = Some i.
Proof. destruct l; [congruence | simpl; eauto]. Qed.


(** The best of a batch, found by [argmax], against the best so far. *)
Lemma first_max_batch {A} (f : A -> Z) (seen batch : list A) (best : option A)
      (i : nat) :
  first_max f seen best ->
  argmax (f <$> batch) = Some i ->
  exists x, batch !! i = Some x /\ (f <$> batch) !! i = Some (f x) /\
    first_max f (seen ++ batch)
              (if score_gt (f x) (score_of f best) then Some x else best).
Proof.
  intros Hseen Harg.
  destruct (argmax_spec _ _ Harg) as (v & Hv & Hlt & Hle).
  rewrite list_lookup_fmap in Hv.
  destruct (batch !! i) as [x |] eqn:Hx; [| discriminate].
  simpl in Hv. injection Hv as <-.
  exists x. split; [reflexivity |]. split; [rewrite list_lookup_fmap, Hx; reflexivity |].
  assert (Hbefore : forall y, y ∈ take i batch -> f y < f x).
  { intros y (j & Hj)%list_elem_of_lookup_1.
    apply lookup_take_Some in Hj as [Hj Hji].
    apply (Hlt j); [| exact Hji]. rewrite list_lookup_fmap, Hj. reflexivity. }
  assert (Hall : forall y, y ∈ batch -> f y <= f x).
  { intros y (j & Hj)%list_elem_of_lookup_1.
    apply (Hle j). rewrite list_lookup_fmap, Hj. reflexivity. }
  pose proof (take_drop_middle _ _ _ Hx) as Hsplit.
  destruct best as [b |]; simpl in *.
  - destruct Hseen as (before & after & -> & Hb & Ha).
    destruct (f b <? f x) eqn:Hcmp.
    + apply Z.ltb_lt in Hcmp.
      exists ((before ++ b :: after) ++ take i batch), (drop (S i) batch).
      split; [rewrite <- Hsplit at 1; rewrite <- !app_assoc; reflexivity |].
      split.
      * intros y [[Hy | Hy]%elem_of_app | Hy]%elem_of_app.
        -- specialize (Hb _ Hy). lia.
        -- apply elem_of_cons in Hy as [-> | Hy]; [lia |]. specialize (Ha _ Hy). lia.
        -- auto.
      * intros y Hy. apply Hall. rewrite <- Hsplit.
        apply elem_of_app. right. right. exact Hy.
    + apply Z.ltb_ge in Hcmp.
      exists before, (after ++ batch).
      split; [rewrite <- app_assoc; reflexivity |].
      split; [exact Hb |].
      intros y [Hy | Hy]%elem_of_app; [auto |]. specialize (Hall _ Hy). lia.
  - subst seen. exists (take i batch), (drop (S i) batch).
    split; [symmetry; exact Hsplit |].
    split; [exact Hbefore |].
    intros y Hy. apply Hall. rewrite <- Hsplit.
    apply elem_of_app. right. right. exact Hy.
Qed.

Lemma first_max_is_max {A} (f : A -> Z) (seen : list A) (x : A) :
  first_max f seen (Some x) -> forall y, y ∈ seen -> f y <= f x.
Proof.
  intros (before & after & -> & Hb & Ha) y [Hy | Hy]%elem_of_app.
  - specialize (Hb _ Hy). lia.
  - apply elem_of_cons in Hy as [-> | Hy]; [lia | auto].
Qed.

Lemma score_gt_le (s : Z) (best : score) :
  score_le best (if score_gt s best then Fin s else best).
Proof.
  destruct best as [| b]; simpl; [exact I |].
  destruct (b <? s) eqn:H; simpl; [apply Z.ltb_lt in H |]; lia.
Qed.

Lemma score_le_refl (s : score) : score_le s s.
Proof. destruct s; simpl; [exact I | lia]. Qed.

Lemma score_le_trans (a b c : score) : score_le a b -> score_le b c -> score_le a c.
Proof. destruct a, b, c; simpl; try tauto; lia. Qed.

(** ** The brute force loop *)

Lemma drop_length_take {A} (b : nat) (g : list A) :
  drop (length (take b g)) g = drop b g.
Proof.
  rewrite length_take. destruct (decide (b <= length g)%nat).
  - rewrite Nat.min_l by lia. reflexivity.
  - rewrite Nat.min_r by lia. rewrite !drop_ge by lia. reflexivity.
Qed.

Section BfsProperties.
Variable rate : code -> Z.
Variable L : nat.
Variable filename : option string.

Local Abbreviation rate_at := (index_rate rate L).
Local Abbreviation tracks := (bfs_tracks rate L).

Lemma bfs_body_spec (indices : list (list nat)) (st : bfs_state)
      (seen : list (list nat)) :
  indices <> [] -> tracks seen st ->
  exists st',
    bfs_body rate L filename indices st = Ok st' /\
    code_generator st' = drop (length indices) (code_generator st) /\
    bfs_num_searched_codes st' = (bfs_num_searched_codes st + length indices)%nat /\
    score_le (bfs_score_best st) (bfs_score_best st') /\
    tracks (seen ++ indices) st'.
Proof.
  intros Hne (best & Hbest & Hcode & Hscore). unfold bfs_body.
  assert (Hmap : rate <$> (code_of_indices L <$> indices) = rate_at <$> indices).
  { rewrite <- list_fmap_compose. reflexivity. }
  rewrite Hmap.
  destruct (argmax_is_Some (rate_at <$> indices)) as [i Hi].
  { destruct indices; [congruence | discriminate]. }
  rewrite Hi.
  destruct (first_max_batch _ _ _ _ _ Hbest Hi) as (x & Hx & Hsx & Hnew).
  rewrite Hsx, list_lookup_fmap, Hx. simpl.
  rewrite Hscore.
  pose proof (score_gt_le (rate_at x) (score_of rate_at best)) as Hmono.
  destruct (score_gt (rate_at x) (score_of rate_at best)) eqn:Hgt.
  - eexists. split; [reflexivity |]. simpl.
    split; [reflexivity |]. split; [reflexivity |]. split; [exact Hmono |].
    exists (Some x). split; [exact Hnew |]. split; reflexivity.
  - eexists. split; [reflexivity |]. simpl.
    split; [reflexivity |]. split; [reflexivity |]. split; [exact Hmono |].
    exists best. split; [exact Hnew |]. split; [exact Hcode | reflexivity].
Qed.

Lemma bfs_loop_spec (b : nat) :
  (1 <= b)%nat ->
  forall (n : nat) (st : bfs_state) (seen : list (list nat)),
    (length (code_generator st) <= n * b)%nat ->
    tracks seen st ->
    exists st',
      bfs_loop rate L filename b n st = Ok st' /\
      code_generator st' = [] /\
      bfs_num_searched_codes st' =
        (bfs_num_searched_codes st + length (code_generator st))%nat /\
      tracks (seen ++ code_generator st) st'.
Proof.
  intros Hb. induction n as [| n IH]; intros st seen Hlen Htr; simpl.
  - assert (Hnil : code_generator st = []) by (apply length_zero_iff_nil; lia).
    exists st. rewrite Hnil, app_nil_r.
      split; [reflexivity |]. split; [reflexivity |]. split; [simpl; lia | exact Htr].
  - destruct (decide (length (take b (code_generator st)) = 0%nat)) as [Hz | Hnz].
    + rewrite length_take in Hz.
      assert (Hnil : code_generator st = []) by (apply length_zero_iff_nil; lia).
      exists st. rewrite Hnil, app_nil_r.
      split; [reflexivity |]. split; [reflexivity |]. split; [simpl; lia | exact Htr].
    + destruct (bfs_body_spec (take b (code_generator st)) st seen)
        as (st1 & Hbody & Hgen & Hcount & _ & Htr1); [| exact Htr |].
      { intros Hnil. rewrite Hnil in Hnz. simpl in Hnz. congruence. }
      rewrite Hbody. rewrite drop_length_take in Hgen.
      destruct (IH st1 (seen ++ take b (code_generator st)))
        as (st2 & Hloop & Hgen2 & Hcount2 & Htr2); [| exact Htr1 |].
      { rewrite Hgen, length_drop. nia. }
      exists st2. split; [exact Hloop |]. split; [exact Hgen2 |]. split.
      * rewrite Hcount2, Hcount, Hgen, length_drop, length_take. lia.
      * rewrite Hgen, <- app_assoc, take_drop in Htr2. exact Htr2.
Qed.
End BfsProperties.

(** The whole of [bfs]: for any batch size, with the weight in range, the
    loop drains the generator and tracks the first maximum. *)
Lemma bfs_run_spec (rate : code -> Z) (L : nat) (density : Q) (batch_size : Z)
      (filename : option string) :
  (1 <= L)%nat -> (0 <= density)%Q -> (density <= 1)%Q ->
  exists st,
    bfs_run rate L density batch_size filename = Ok st /\
    code_generator st = [] /\
    bfs_num_searched_codes st = binomial L (Z.to_nat (int_mul L density)) /\
    bfs_tracks rate L (combinations (seq 0 L) (Z.to_nat (int_mul L density))) st.
Proof.
  intros HL H0 H1. unfold bfs_run.
  pose proof (int_mul_bounds L density H0 H1) as [Hk0 HkL].
  destruct (int_mul L density <? 0) eqn:E1; [apply Z.ltb_lt in E1; lia |].
  destruct (Z.of_nat L <? int_mul L density) eqn:E2; [apply Z.ltb_lt in E2; lia |].
  destruct (decide (L = 0%nat)) as [-> | _]; [lia |].
  set (k := Z.to_nat (int_mul L density)).
  assert (Hk : (k <= L)%nat) by (unfold k; lia).
  rewrite (num_combinations_binomial L k Hk).
  set (b := Z.max (batch_size / Z.of_nat L) 1).
  assert (Hb : 0 < b) by (unfold b; lia).
  pose proof (ceil_div_covers (Z.of_nat (binomial L k)) b Hb) as Hcover.
  pose proof (ceil_div_nonneg (Z.of_nat (binomial L k)) b Hb) as Hnn.
  destruct (bfs_loop_spec rate L filename (Z.to_nat b)) with
    (n := Z.to_nat (ceil_div (Z.of_nat (binomial L k)) b))
    (st := bfs_init (combinations (seq 0 L) k)) (seen := @nil (list nat))
    as (st & Hloop & Hgen & Hcount & Htr).
  - lia.
  - simpl. rewrite combinations_length, length_seq. nia.
  - exists None. repeat split.
  - exists st. split; [exact Hloop |]. split; [exact Hgen |]. split.
    + rewrite Hcount. simpl. rewrite combinations_length, length_seq. reflexivity.
    + exact Htr.
Qed.

Lemma binomial_pos (n k : nat) : (k <= n)%nat -> (0 < binomial n k)%nat.
Proof.
  revert k. induction n as [| n IH]; intros [| k] Hk; simpl; try lia.
  specialize (IH k). lia.
Qed.

(** Every binary code is the code of its own positions. *)
Lemma code_of_positions (c : code) :
  binary c -> code_of_indices (length c) (positions c) = c.
Proof.
  intros Hbin. apply list_eq. intros j. unfold code_of_indices.
  rewrite list_lookup_fmap.
  destruct (c !! j) as [v |] eqn:Hj.
  - apply lookup_lt_Some in Hj as Hlt.
    rewrite lookup_seq_lt by exact Hlt. simpl.
    assert (Hv : v = 0 \/ v = 1).
    { unfold binary in Hbin. rewrite Forall_forall in Hbin.
      eapply Hbin, list_elem_of_lookup_2, Hj. }
    unfold positions. destruct Hv as [-> | ->].
    + rewrite bool_decide_eq_false_2; [symmetry; exact Hj |].
      rewrite list_elem_of_filter. intros [H _]. rewrite Hj in H. discriminate.
    + rewrite bool_decide_eq_true_2; [symmetry; exact Hj |].
      rewrite list_elem_of_filter. split; [exact Hj |]. apply elem_of_seq. lia.
  - apply lookup_ge_None in Hj as Hge. rewrite lookup_seq_ge by lia.
    symmetry. exact Hj.
Qed.

Lemma positions_in_combinations (c : code) :
  binary c -> 0 <= np_sum c ->
  positions c ∈ combinations (seq 0 (length c)) (Z.to_nat (np_sum c)).
Proof.
  intros Hbin Hsum.
  assert (Hsub : positions c `sublist_of` seq 0 (length c)) by apply sublist_filter.
  assert (Hlen : np_sum c = Z.of_nat (length (positions c))).
  { rewrite <- (code_of_positions c Hbin) at 1. unfold code_of_indices.
    apply indicator_sum; [apply NoDup_seq | exact Hsub]. }
  rewrite Hlen, Nat2Z.id. apply combinations_complete, Hsub.
Qed.





(** ** The Lyndon drivers *)

Lemma num_allowed_ones_lookup (L n : nat) (density : Q) :
  (n <= L)%nat -> num_allowed_ones_of L density !! n = Some (int_mul n density).
Proof.
  intros Hn. unfold num_allowed_ones_of.
  rewrite list_lookup_fmap, lookup_seq_lt by lia. reflexivity.
Qed.

Lemma lyndon_init_wf (L : nat) : lyndon_wf L (lyndon_init L).
Proof. split; simpl; apply length_replicate. Qed.

Lemma for_each_snoc {S A} (body : S -> A -> result S) (st : S) (xs : list A) (x : A) :
  for_each body st (xs ++ [x]) =
  match for_each body st xs with
  | Ok st' => body st' x
  | Raise e st' => Raise e st'
  end.
Proof.
  revert st. induction xs as [| y xs IH]; intros st; simpl.
  - destruct (body st x); reflexivity.
  - destruct (body st y); [apply IH | reflexivity].
Qed.

(** An invariant of a loop body holds of the state the loop ends in. *)
Lemma for_each_invariant {S A} (P : S -> Prop) (body : S -> A -> result S) :
  (forall st x, P st -> P (final_state (body st x))) ->
  forall xs st, P st -> P (final_state (for_each body st xs)).
Proof.
  intros Hstep. induction xs as [| x xs IH]; intros st Hst; simpl; [exact Hst |].
  specialize (Hstep st x Hst). destruct (body st x); simpl in *; auto.
Qed.

(** What the two loop bodies have in common: the guard and its outcomes. *)
Lemma lyndon_body_cases (f32 : Z -> Z) (objective_function : objective) (K L : nat)
      (density : Q) (st : lyndon_state) (w : code) :
  lyndon_wf L st -> (length w <= L)%nat ->
  ((K <= length w)%nat /\ np_sum w = int_mul (length w) density /\
   exists count best,
     num_searched_codes st !! length w = Some count /\
     score_best st !! length w = Some best /\
     lyndon_body f32 objective_function K (num_allowed_ones_of L density) st w =
     Ok (if score_gt (obj_call objective_function w) best then
           {| score_best :=
                <[length w := Fin (f32 (obj_call objective_function w))]> (score_best st);
              num_searched_codes := <[length w := count + 1]> (num_searched_codes st);
              ly_trace :=
                (ly_trace st ++ [EvScore (length w) [w]]) ++
                [EvBest (length w) w (obj_call objective_function w);
                 EvUpdate (length w)
                   {| upd_name := obj_name objective_function;
                      upd_code := Some w;
                      upd_score := Fin (obj_call objective_function w);
                      upd_weight := int_mul (length w) density |}] |}
         else
           {| score_best := score_best st;
              num_searched_codes := <[length w := count + 1]> (num_searched_codes st);
              ly_trace := ly_trace st ++ [EvScore (length w) [w]] |}))
  \/
  (~ ((K <= length w)%nat /\ np_sum w = int_mul (length w) density) /\
   lyndon_body f32 objective_function K (num_allowed_ones_of L density) st w = Ok st).
Proof.
  intros [Hsb Hns] Hlen. unfold lyndon_body.
  rewrite (num_allowed_ones_lookup L (length w) density Hlen).
  destruct (decide (K <= length w)%nat) as [HK | HK]; [| right; split; [tauto | reflexivity]].
  destruct (decide (np_sum w = int_mul (length w) density)) as [Hw | Hw];
    [| right; split; [tauto | reflexivity]].
  left. split; [exact HK |]. split; [exact Hw |].
  destruct (lookup_lt_is_Some_2 (num_searched_codes st) (length w)) as [count Hc]; [lia |].
  destruct (lookup_lt_is_Some_2 (score_best st) (length w)) as [best Hb]; [lia |].
  exists count, best. rewrite Hc, Hb. split; [reflexivity |]. split; [reflexivity |].
  destruct (score_gt (obj_call objective_function w) best); reflexivity.
Qed.

Lemma find_codes_lyndon_body_cases (f32 : Z -> Z) (cost_function : code -> Z) (K L : nat) (density : Q)
      (st : lyndon_state) (w : code) :
  lyndon_wf L st -> (length w <= L)%nat ->
  ((K <= length w)%nat /\ np_sum w = int_mul (length w) density /\
   exists count best,
     num_searched_codes st !! length w = Some count /\
     score_best st !! length w = Some best /\
     find_codes_lyndon_body f32 cost_function K (num_allowed_ones_of L density) st w =
     Ok (if score_gt (cost_function w) best then
           {| score_best := <[length w := Fin (f32 (cost_function w))]> (score_best st);
              num_searched_codes := <[length w := count + 1]> (num_searched_codes st);
              ly_trace :=
                (ly_trace st ++ [EvScore (length w) [w]]) ++
                [EvBest (length w) w (cost_function w);
                 EvWrite (length w) (count + 1) w (cost_function w)] |}
         else
           {| score_best := score_best st;
              num_searched_codes := <[length w := count + 1]> (num_searched_codes st);
              ly_trace := ly_trace st ++ [EvScore (length w) [w]] |}))
  \/
  (~ ((K <= length w)%nat /\ np_sum w = int_mul (length w) density) /\
   find_codes_lyndon_body f32 cost_function K (num_allowed_ones_of L density) st w = Ok st).
Proof.
  intros [Hsb Hns] Hlen. unfold find_codes_lyndon_body.
  rewrite (num_allowed_ones_lookup L (length w) density Hlen).
  destruct (decide (K <= length w)%nat) as [HK | HK]; [| right; split; [tauto | reflexivity]].
  destruct (decide (np_sum w = int_mul (length w) density)) as [Hw | Hw];
    [| right; split; [tauto | reflexivity]].
  left. split; [exact HK |]. split; [exact Hw |].
  destruct (lookup_lt_is_Some_2 (num_searched_codes st) (length w)) as [count Hc]; [lia |].
  destruct (lookup_lt_is_Some_2 (score_best st) (length w)) as [best Hb]; [lia |].
  exists count, best. rewrite Hc, Hb. split; [reflexivity |]. split; [reflexivity |].
  destruct (score_gt (cost_function w) best); reflexivity.
Qed.

Ltac lyndon_body_destruct :=
  repeat match goal with
         | |- context [decide ?P] => destruct (decide P)
         | |- context [match ?l !! ?i with _ => _ end] => destruct (l !! i)
         | |- context [if score_gt ?s ?b then _ else _] => destruct (score_gt s b)
         end.

Lemma lyndon_body_wf (f32 : Z -> Z) (objective_function : objective) (K L : nat)
      (nao : list Z) (st : lyndon_state) (w : code) :
  lyndon_wf L st -> lyndon_wf L (final_state (lyndon_body f32 objective_function K nao st w)).
Proof.
  intros [Hsb Hns]. unfold lyndon_body. lyndon_body_destruct;
    unfold lyndon_wf; simpl; rewrite ?length_insert; split; assumption.
Qed.

Lemma find_codes_lyndon_body_wf (f32 : Z -> Z) (cost_function : code -> Z) (K L : nat)
      (nao : list Z) (st : lyndon_state) (w : code) :
  lyndon_wf L st ->
  lyndon_wf L (final_state (find_codes_lyndon_body f32 cost_function K nao st w)).
Proof.
  intros [Hsb Hns]. unfold find_codes_lyndon_body. lyndon_body_destruct;
    unfold lyndon_wf; simpl; rewrite ?length_insert; split; assumption.
Qed.

(** Every state either Lyndon driver reaches is well formed. *)
Lemma lyndon_reaches_wf (LLW : Z -> nat -> code -> list code) (f32 : Z -> Z)
      (objective_function : objective) (K L : nat) (density : Q) :
  lyndon_wf L (final_state (lyndon LLW f32 K L objective_function density)).
Proof.
  unfold lyndon. apply for_each_invariant; [| apply lyndon_init_wf].
  intros st x. apply lyndon_body_wf.
Qed.

Lemma find_codes_lyndon_reaches_wf (LLW : Z -> nat -> code -> list code) (f32 : Z -> Z)
      (cost_function : code -> Z) (K L : nat) (density : Q) :
  lyndon_wf L (final_state (find_codes_lyndon LLW f32 cost_function K L density)).
Proof.
  unfold find_codes_lyndon. apply for_each_invariant; [| apply lyndon_init_wf].
  intros st x. apply find_codes_lyndon_body_wf.
Qed.



(** ** The legacy and the newer Lyndon driver side by side *)

Lemma for_each_related {S T A} (R : S -> T -> Prop)
      (body1 : S -> A -> result S) (body2 : T -> A -> result T) :
  (forall s t x, R s t ->
                 same_outcome (body1 s x) (body2 t x) /\
                 R (final_state (body1 s x)) (final_state (body2 t x))) ->
  forall xs s t, R s t ->
                 same_outcome (for_each body1 s xs) (for_each body2 t xs) /\
                 R (final_state (for_each body1 s xs)) (final_state (for_each body2 t xs)).
Proof.
  intros Hstep. induction xs as [| x xs IH]; intros s t Hst; simpl.
  - split; [exact I | exact Hst].
  - destruct (Hstep s t x Hst) as [Hout Hrel].
    destruct (body1 s x), (body2 t x); simpl in *; try contradiction.
    + apply IH, Hrel.
    + split; assumption.
Qed.

Lemma unpersisted_app (a b : list event) :
  unpersisted (a ++ b) = unpersisted a ++ unpersisted b.
Proof. apply List.filter_app. Qed.

Lemma scored_codes_app (a b : list event) :
  scored_codes (a ++ b) = scored_codes a ++ scored_codes b.
Proof. unfold scored_codes. rewrite List.map_app, concat_app. reflexivity. Qed.

Lemma scored_codes_unpersisted (tr : list event) :
  scored_codes (unpersisted tr) = scored_codes tr.
Proof.
  induction tr as [| e tr IH]; [reflexivity |].
  change (e :: tr) with ([e] ++ tr).
  rewrite unpersisted_app, !scored_codes_app, IH. f_equal.
  destruct e; reflexivity.
Qed.

Lemma lyndon_bodies_in_step (f32 : Z -> Z) (cost_function : code -> Z) (name : string)
      (K : nat) (nao : list Z) (st st' : lyndon_state) (w : code) :
  lyndon_in_step st st' ->
  same_outcome
    (lyndon_body f32 {| obj_name := name; obj_call := cost_function |} K nao st w)
    (find_codes_lyndon_body f32 cost_function K nao st' w) /\
  lyndon_in_step
    (final_state
       (lyndon_body f32 {| obj_name := name; obj_call := cost_function |} K nao st w))
    (final_state (find_codes_lyndon_body f32 cost_function K nao st' w)).
Proof.
  intros (Hsb & Hns & Htr). unfold lyndon_body, find_codes_lyndon_body.
  rewrite <- Hsb, <- Hns. simpl obj_call.
  lyndon_body_destruct; simpl; unfold lyndon_in_step; simpl;
    rewrite ?unpersisted_app, ?Htr, ?Hsb, ?Hns; auto.
Qed.

(** C10. With the objective fixed to the reference cost function, the legacy
    [find_codes_lyndon] and the newer [lyndon] end the same way, hand the same
    sequence of codes to the cost function, and compute the same per-length
    best scores and searched counts; their traces are equal once the
    persistence events (file writes, archiver updates) are removed. *)
Theorem lyndon_refines_find_codes_lyndon
        (LLW : Z -> nat -> code -> list code) (f32 : Z -> Z)
        (cost_function : code -> Z) (name : string) (K L : nat) (density : Q) :
  let new := lyndon LLW f32 K L {| obj_name := name; obj_call := cost_function |} density in
  let old := find_codes_lyndon LLW f32 cost_function K L density in
  same_outcome new old /\
  scored_codes (ly_trace (final_state new)) = scored_codes (ly_trace (final_state old)) /\
  score_best (final_state new) = score_best (final_state old) /\
  num_searched_codes (final_state new) = num_searched_codes (final_state old) /\
  unpersisted (ly_trace (final_state new)) = unpersisted (ly_trace (final_state old)).
Proof.
  intros new old. subst new old. unfold lyndon, find_codes_lyndon.
  destruct (for_each_related lyndon_in_step
              (lyndon_body f32 {| obj_name := name; obj_call := cost_function |} K
                           (num_allowed_ones_of L density))
              (find_codes_lyndon_body f32 cost_function K (num_allowed_ones_of L density))
              (fun s t x => lyndon_bodies_in_step f32 cost_function name K _ s t x)
              (LLW 2 L (lyndon_seed L density)) (lyndon_init L) (lyndon_init L))
    as [Hout (Hsb & Hns & Htr)].
  { repeat split. }
  split; [exact Hout |].
  split; [rewrite <- scored_codes_unpersisted, Htr; apply scored_codes_unpersisted |].
  repeat split; assumption.
Qed.

(** ** The batch loops of [bracelet] and [necklace] *)

Lemma for_range_invariant {S} (P : S -> Prop) (body : S -> result S) :
  (forall st, P st -> P (final_state (body st))) ->
  forall n st, P st -> P (final_state (for_range n body st)).
Proof.
  intros Hstep. induction n as [| n IH]; intros st Hst; simpl; [exact Hst |].
  specialize (Hstep st Hst). destruct (body st); simpl in *; auto.
Qed.

(** The best of a non-empty batch is one of its codes, with its own score. *)
Lemma argmax_of_batch (f : code -> Z) (batch : list code) :
  batch <> [] ->
  exists i c, argmax (f <$> batch) = Some i /\
              (f <$> batch) !! i = Some (f c) /\ batch !! i = Some c.
Proof.
  intros Hne. destruct (argmax_is_Some (f <$> batch)) as [i Hi].
  { destruct batch; [congruence | discriminate]. }
  destruct (argmax_spec _ _ Hi) as (v & Hv & _).
  rewrite list_lookup_fmap in Hv.
  destruct (batch !! i) as [c |] eqn:Hc; [| discriminate].
  exists i, c. split; [exact Hi |]. rewrite list_lookup_fmap, Hc. split; reflexivity.
Qed.

Lemma bracelet_body_cases (objective_function : objective) (n : nat) (batch_size : Z)
      (st : bracelet_state) :
  let start := slice_start (length (br_codes st)) batch_size in
  let batch := drop start (br_codes st) in
  let tr := br_trace st ++ [EvScore n batch] in
  (batch = [] /\
   bracelet_body objective_function n batch_size st =
   Raise ValueError {| br_codes := take start (br_codes st);
                       br_code_best := br_code_best st;
                       br_score_best := br_score_best st;
                       br_trace := tr |})
  \/
  (batch <> [] /\
   exists c,
     c ∈ batch /\
     bracelet_body objective_function n batch_size st =
     Ok (if score_gt (obj_call objective_function c) (br_score_best st) then
           {| br_codes := take start (br_codes st);
              br_code_best := Some c;
              br_score_best := Fin (obj_call objective_function c);
              br_trace := tr ++ [EvBest n c (obj_call objective_function c)] |}
         else
           {| br_codes := take start (br_codes st);
              br_code_best := br_code_best st;
              br_score_best := br_score_best st;
              br_trace := tr |})).
Proof.
  intros start batch tr. unfold bracelet_body. fold start. fold batch. fold tr.
  destruct (decide (batch = [])) as [Hnil | Hne].
  - left. split; [exact Hnil |]. rewrite Hnil. reflexivity.
  - right. split; [exact Hne |].
    destruct (argmax_of_batch (obj_call objective_function) batch Hne)
      as (i & c & Hi & Hs & Hc).
    exists c. split; [eapply list_elem_of_lookup_2, Hc |].
    rewrite Hi, Hs, Hc.
    destruct (score_gt (obj_call objective_function c) (br_score_best st)); reflexivity.
Qed.

Lemma necklace_body_cases (objective_function : objective) (n : nat)
      (st : necklace_state) :
  (pending (nk_chunks st) = [] /\
   necklace_body objective_function n st =
   Raise (default StopIteration (ending (nk_chunks st))) st)
  \/
  (exists rest,
      pending (nk_chunks st) = [] :: rest /\
      necklace_body objective_function n st =
      Raise ValueError {| nk_chunks := {| pending := rest; ending := ending (nk_chunks st) |};
                          nk_code_best := nk_code_best st;
                          nk_score_best := nk_score_best st;
                          nk_trace := nk_trace st ++ [EvScore n []] |})
  \/
  (exists batch rest c,
      pending (nk_chunks st) = batch :: rest /\ batch <> [] /\ c ∈ batch /\
      necklace_body objective_function n st =
      Ok (if score_gt (obj_call objective_function c) (nk_score_best st) then
            {| nk_chunks := {| pending := rest; ending := ending (nk_chunks st) |};
               nk_code_best := Some c;
               nk_score_best := Fin (obj_call objective_function c);
               nk_trace := (nk_trace st ++ [EvScore n batch])
                             ++ [EvBest n c (obj_call objective_function c)] |}
          else
            {| nk_chunks := {| pending := rest; ending := ending (nk_chunks st) |};
               nk_code_best := nk_code_best st;
               nk_score_best := nk_score_best st;
               nk_trace := nk_trace st ++ [EvScore n batch] |})).
Proof.
  unfold necklace_body. destruct (pending (nk_chunks st)) as [| batch rest] eqn:Hp.
  - left. split; reflexivity.
  - right. destruct (decide (batch = [])) as [-> | Hne].
    + left. exists rest. split; reflexivity.
    + right. destruct (argmax_of_batch (obj_call objective_function) batch Hne)
        as (i & c & Hi & Hs & Hc).
      exists batch, rest, c. split; [reflexivity |]. split; [exact Hne |].
      split; [eapply list_elem_of_lookup_2, Hc |].
      rewrite Hi, Hs, Hc.
      destruct (score_gt (obj_call objective_function c) (nk_score_best st)); reflexivity.
Qed.

(** Whenever the number of bracelets is a multiple of the batch size, the
    extra pass of [range(len(codes) // batch_size + 1)] finds nothing left. *)
Lemma bracelet_passes_exact_multiple (objective_function : objective) (n : nat)
      (batch_size : Z) :
  0 < batch_size ->
  forall (q : nat) (st : bracelet_state),
    length (br_codes st) = (q * Z.to_nat batch_size)%nat ->
    exists st' tr',
      for_range (S q) (bracelet_body objective_function n batch_size) st
        = Raise ValueError st' /\
      br_trace st' = tr' ++ [EvScore n []].
Proof.
  intros Hbs. induction q as [| q IH]; intros st Hlen.
  - destruct (bracelet_body_cases objective_function n batch_size st)
      as [[Hnil Hbody] | [Hne _]].
    + simpl. rewrite Hbody, Hnil. eexists. eexists. split; reflexivity.
    + exfalso. apply Hne. apply length_zero_iff_nil. rewrite length_drop. simpl in Hlen. lia.
  - assert (Hstart : slice_start (length (br_codes st)) batch_size
                     = (q * Z.to_nat batch_size)%nat).
    { unfold slice_start. destruct (0 <? batch_size) eqn:E; [| apply Z.ltb_ge in E; lia].
      rewrite Hlen. lia. }
    destruct (bracelet_body_cases objective_function n batch_size st)
      as [[Hnil _] | (_ & c & _ & Hbody)].
    + exfalso. apply (f_equal length) in Hnil.
      rewrite length_drop, Hstart, Hlen in Hnil. simpl in Hnil. lia.
    + change (for_range (S (S q)) (bracelet_body objective_function n batch_size) st)
        with (match bracelet_body objective_function n batch_size st with
              | Ok st' => for_range (S q) (bracelet_body objective_function n batch_size) st'
              | Raise e st' => Raise e st'
              end).
      rewrite Hbody. apply IH.
      destruct (score_gt _ _); simpl; rewrite length_take, Hstart, Hlen; lia.
Qed.

Lemma bracelet_exact_multiple_raises (bracelet_fc : nat -> Z -> list Z -> list code)
      (objective_function : objective) (density : Q) (batch_size : Z)
      (tr : list event) (n : nat) :
  0 < batch_size ->
  Z.of_nat (length (bracelet_fc n 2 [Z.of_nat n - int_mul n density; int_mul n density]))
    mod batch_size = 0 ->
  exists tr',
    bracelet_length bracelet_fc objective_function density batch_size tr n
      = Raise ValueError (tr' ++ [EvScore n []]).
Proof.
  intros Hbs Hmod. unfold bracelet_length.
  set (codes := bracelet_fc n 2 [Z.of_nat n - int_mul n density; int_mul n density]) in *.
  destruct (batch_size =? 0) eqn:E; [apply Z.eqb_eq in E; lia |].
  pose proof (Z.div_mod (Z.of_nat (length codes)) batch_size ltac:(lia)) as Hdiv.
  assert (Hq : 0 <= Z.of_nat (length codes) / batch_size) by (apply Z.div_pos; lia).
  set (q := Z.to_nat (Z.of_nat (length codes) / batch_size)).
  replace (Z.to_nat (Z.of_nat (length codes) / batch_size + 1)) with (S q) by (unfold q; lia).
  destruct (bracelet_passes_exact_multiple objective_function n batch_size Hbs q
              {| br_codes := codes; br_code_best := None;
                 br_score_best := NegInf; br_trace := tr |})
    as (st' & tr' & Hrun & Htr).
  { simpl. unfold q. nia. }
  rewrite Hrun, Htr. exists tr'. reflexivity.
Qed.

Lemma scored_batches_app (a b : list event) :
  scored_batches (a ++ b) = scored_batches a ++ scored_batches b.
Proof. unfold scored_batches. rewrite List.map_app, concat_app. reflexivity. Qed.

(** Otherwise the extra pass takes the partial batch, and every batch of the
    length is non-empty. *)
Lemma bracelet_passes_partial_batch (objective_function : objective) (n : nat)
      (batch_size : Z) (r : nat) :
  0 < batch_size -> (0 < r < Z.to_nat batch_size)%nat ->
  forall (q : nat) (st : bracelet_state),
    length (br_codes st) = (q * Z.to_nat batch_size + r)%nat ->
    Forall (fun batch => batch <> []) (scored_batches (br_trace st)) ->
    exists st',
      for_range (S q) (bracelet_body objective_function n batch_size) st = Ok st' /\
      br_codes st' = [] /\
      Forall (fun batch => batch <> []) (scored_batches (br_trace st')).
Proof.
  intros Hbs Hr. induction q as [| q IH]; intros st Hlen Hall.
  - assert (Hstart : slice_start (length (br_codes st)) batch_size = 0%nat).
    { unfold slice_start. destruct (0 <? batch_size) eqn:E; [| apply Z.ltb_ge in E; lia].
      rewrite Hlen. lia. }
    destruct (bracelet_body_cases objective_function n batch_size st)
      as [[Hnil _] | (Hne & c & _ & Hbody)].
    + exfalso. apply (f_equal length) in Hnil.
      rewrite length_drop, Hstart, Hlen in Hnil. simpl in Hnil. lia.
    + simpl for_range. rewrite Hbody. rewrite Hstart in *.
      destruct (score_gt _ _); eexists; (split; [reflexivity |]); simpl;
        (split; [reflexivity |]); rewrite ?scored_batches_app;
        repeat (apply Forall_app; split); try exact Hall; repeat constructor; exact Hne.
  - assert (Hstart : slice_start (length (br_codes st)) batch_size
                     = (q * Z.to_nat batch_size + r)%nat).
    { unfold slice_start. destruct (0 <? batch_size) eqn:E; [| apply Z.ltb_ge in E; lia].
      rewrite Hlen. lia. }
    destruct (bracelet_body_cases objective_function n batch_size st)
      as [[Hnil _] | (Hne & c & _ & Hbody)].
    + exfalso. apply (f_equal length) in Hnil.
      rewrite length_drop, Hstart, Hlen in Hnil. simpl in Hnil. lia.
    + change (for_range (S (S q)) (bracelet_body objective_function n batch_size) st)
        with (match bracelet_body objective_function n batch_size st with
              | Ok st' => for_range (S q) (bracelet_body objective_function n batch_size) st'
              | Raise e st' => Raise e st'
              end).
      rewrite Hbody. apply IH.
      * destruct (score_gt _ _); simpl; rewrite length_take, Hstart, Hlen; lia.
      * destruct (score_gt _ _); simpl; rewrite ?scored_batches_app;
          repeat (apply Forall_app; split); try exact Hall; repeat constructor; exact Hne.
Qed.

Lemma bracelet_partial_batch_completes (bracelet_fc : nat -> Z -> list Z -> list code)
      (objective_function : objective) (density : Q) (batch_size : Z)
      (tr : list event) (n : nat) :
  0 < batch_size ->
  Z.of_nat (length (bracelet_fc n 2 [Z.of_nat n - int_mul n density; int_mul n density]))
    mod batch_size <> 0 ->
  Forall (fun batch => batch <> []) (scored_batches tr) ->
  exists tr',
    bracelet_length bracelet_fc objective_function density batch_size tr n = Ok tr' /\
    Forall (fun batch => batch <> []) (scored_batches tr').
Proof.
  intros Hbs Hmod Hall. unfold bracelet_length.
  set (codes := bracelet_fc n 2 [Z.of_nat n - int_mul n density; int_mul n density]) in *.
  destruct (batch_size =? 0) eqn:E; [apply Z.eqb_eq in E; lia |].
  pose proof (Z.div_mod (Z.of_nat (length codes)) batch_size ltac:(lia)) as Hdiv.
  pose proof (Z.mod_pos_bound (Z.of_nat (length codes)) batch_size Hbs) as Hbound.
  assert (Hq : 0 <= Z.of_nat (length codes) / batch_size) by (apply Z.div_pos; lia).
  set (q := Z.to_nat (Z.of_nat (length codes) / batch_size)).
  replace (Z.to_nat (Z.of_nat (length codes) / batch_size + 1)) with (S q) by (unfold q; lia).
  destruct (bracelet_passes_partial_batch objective_function n batch_size
              (Z.to_nat (Z.of_nat (length codes) mod batch_size)) Hbs ltac:(lia) q
              {| br_codes := codes; br_code_best := None;
                 br_score_best := NegInf; br_trace := tr |})
    as (st' & Hrun & _ & Hall').
  { simpl. unfold q. nia. }
  { exact Hall. }
  rewrite Hrun. eexists. split; [reflexivity |].
  rewrite scored_batches_app. apply Forall_app. split; [exact Hall' | constructor].
Qed.

(** ** The chunks of [_necklace_chunk] *)

Lemma minus_one_length (chunk : list code) : length (minus_one chunk) = length chunk.
Proof. unfold minus_one. apply List.length_map. Qed.

(** One round of the generator loop: either the rows left do not fill the
    chunk, and it is yielded short after the loop, or a full chunk is
    yielded and the loop starts over with an empty one. *)
Lemma necklace_fill_unfold (height : nat) (xs chunk : list code) :
  (length chunk < height)%nat ->
  necklace_fill height chunk xs =
  if decide (length chunk + length xs < height)%nat
  then [minus_one (chunk ++ xs)]
  else minus_one (chunk ++ take (height - length chunk) xs)
         :: necklace_fill height [] (drop (height - length chunk) xs).
Proof.
  revert chunk. induction xs as [| x xs IH]; intros chunk Hlt; simpl.
  - destruct (decide (length chunk < height)%nat); [| lia].
    destruct (decide (length chunk + 0 < height)%nat); [| lia].
    rewrite app_nil_r. reflexivity.
  - rewrite length_app. simpl.
    destruct (decide (height <= length chunk + 1)%nat) as [Hfull | Hroom].
    + destruct (decide (length chunk + S (length xs) < height)%nat); [lia |].
      replace (height - length chunk)%nat with 1%nat by lia. reflexivity.
    + rewrite IH by (rewrite length_app; simpl; lia).
      rewrite length_app. simpl.
      destruct (decide (length chunk + 1 + length xs < height)%nat);
        destruct (decide (length chunk + S (length xs) < height)%nat); try lia.
      * rewrite <- app_assoc. reflexivity.
      * replace (height - length chunk)%nat with (S (height - (length chunk + 1))) by lia.
        simpl. rewrite <- app_assoc. reflexivity.
Qed.

(** With a multiple of the chunk height the generator ends on an empty chunk. *)
Lemma necklace_fill_exact_multiple (height : nat) :
  (0 < height)%nat ->
  forall (q : nat) (xs : list code),
    length xs = (q * height)%nat ->
    exists chunks,
      necklace_fill height [] xs = chunks ++ [[]] /\
      length chunks = q /\
      Forall (fun batch => batch <> []) chunks.
Proof.
  intros Hh. induction q as [| q IH]; intros xs Hlen.
  - apply length_zero_iff_nil in Hlen as ->. exists []. simpl.
    destruct (decide (0 < height)%nat); [| lia]. repeat split. constructor.
  - rewrite necklace_fill_unfold by (simpl; lia). simpl.
    destruct (decide (length xs < height)%nat); [lia |].
    rewrite Nat.sub_0_r.
    destruct (IH (drop height xs)) as (chunks & Hfill & Hcount & Hall).
    { rewrite length_drop, Hlen. simpl. lia. }
    exists (minus_one (take height xs) :: chunks).
    rewrite Hfill. split; [reflexivity |]. split; [simpl; lia |].
    constructor; [| exact Hall].
    intros Hnil. apply (f_equal length) in Hnil.
    rewrite minus_one_length, length_take in Hnil. simpl in Hnil. lia.
Qed.

Lemma necklace_passes_exact_multiple (objective_function : objective) (n : nat)
      (chunks : list (list code)) :
  Forall (fun batch => batch <> []) chunks ->
  forall st : necklace_state,
    pending (nk_chunks st) = chunks ++ [[]] ->
    exists st' tr',
      for_range (S (length chunks)) (necklace_body objective_function n) st
        = Raise ValueError st' /\
      nk_trace st' = tr' ++ [EvScore n []].
Proof.
  induction 1 as [| batch chunks Hne _ IH]; intros st Hp.
  - destruct (necklace_body_cases objective_function n st)
      as [[Hnil _] | [(rest & _ & Hbody) | (batch & rest & c & Hb & Hne & _)]].
    + rewrite Hp in Hnil. discriminate.
    + simpl. rewrite Hbody. eexists. eexists. split; reflexivity.
    + rewrite Hp in Hb. injection Hb as <- _. congruence.
  - destruct (necklace_body_cases objective_function n st)
      as [[Hnil _] | [(rest & Hb & _) | (batch' & rest & c & Hb & _ & _ & Hbody)]].
    + rewrite Hp in Hnil. discriminate.
    + rewrite Hp in Hb. injection Hb as -> _. congruence.
    + rewrite Hp in Hb. injection Hb as <- <-.
      change (for_range (S (length (batch :: chunks))) (necklace_body objective_function n) st)
        with (match necklace_body objective_function n st with
              | Ok st' => for_range (S (length chunks)) (necklace_body objective_function n) st'
              | Raise e st' => Raise e st'
              end).
      rewrite Hbody. apply IH. destruct (score_gt _ _); reflexivity.
Qed.

Lemma necklace_exact_multiple_raises (Necklaces : list Z -> list code)
      (objective_function : objective) (density : Q) (batch_size : Z)
      (tr : list event) (n : nat) (first : code) (others : list code) :
  0 < batch_size ->
  Necklaces [Z.of_nat n - int_mul n density; int_mul n density] = first :: others ->
  length first = n ->
  Z.of_nat (length (first :: others)) mod batch_size = 0 ->
  exists tr',
    necklace_length Necklaces objective_function density batch_size tr n
      = Raise ValueError (tr' ++ [EvScore n []]).
Proof.
  intros Hbs Hcodes Hfirst Hmod. unfold necklace_length. rewrite Hcodes.
  destruct (batch_size =? 0) eqn:E; [apply Z.eqb_eq in E; lia |].
  pose proof (Z.div_mod (Z.of_nat (length (first :: others))) batch_size ltac:(lia)) as Hdiv.
  assert (Hq : 0 <= Z.of_nat (length (first :: others)) / batch_size)
    by (apply Z.div_pos; lia).
  set (q := Z.to_nat (Z.of_nat (length (first :: others)) / batch_size)) in *.
  replace (Z.to_nat (Z.of_nat (length (first :: others)) / batch_size + 1))
    with (S q) by (unfold q; lia).
  destruct (necklace_fill_exact_multiple (Z.to_nat batch_size) ltac:(lia) q (first :: others))
    as (chunks & Hfill & Hcount & Hall).
  { unfold q. nia. }
  destruct (necklace_passes_exact_multiple objective_function n chunks Hall
              {| nk_chunks := _necklace_chunk (first :: others) (batch_size, n);
                 nk_code_best := None; nk_score_best := NegInf; nk_trace := tr |})
    as (st' & tr' & Hrun & Htr).
  { unfold _necklace_chunk. simpl fst. simpl snd.
    destruct (decide (n = length first)); [| congruence].
    destruct (batch_size <? 0) eqn:E1; [apply Z.ltb_lt in E1; lia |].
    rewrite E. simpl. exact Hfill. }
  rewrite Hcount in Hrun. rewrite Hrun, Htr. exists tr'. reflexivity.
Qed.

(** C9. The claim does not hold of the code: with two bracelets (or two
    necklaces) of length 4 and batch_size = 2, the second pass of the batch
    loop hands the objective an empty batch, and [np.argmax] raises on the
    empty score vector; the archiver is never updated for that length. *)
Theorem exact_multiple_scores_empty_batch :
  bracelet demo_bracelet_fc 4 4 demo_objective (1 # 2) 2 =
    Raise ValueError [EvScore 4 [[0; 0; 1; 1]; [0; 1; 0; 1]];
                      EvBest 4 [0; 0; 1; 1] 12;
                      EvScore 4 []] /\
  necklace demo_Necklaces 4 4 demo_objective (1 # 2) 2 =
    Raise ValueError [EvScore 4 [[0; 0; 1; 1]; [0; 1; 0; 1]];
                      EvBest 4 [0; 0; 1; 1] 12;
                      EvScore 4 []].
Proof. split; vm_compute; reflexivity. Qed.

(** ** Traces: when the archiver is updated *)

Lemma flushed_immediately_app (a b : list event) :
  flushed_immediately a = true -> flushed_immediately b = true ->
  flushed_immediately (a ++ b) = true.
Proof.
  intros Ha Hb. induction a as [| e a IH]; [exact Hb |].
  destruct e as [n batch | n c s | n u | n count c s]; simpl in *; auto.
  destruct a as [| e' a']; [discriminate |].
  destruct e' as [| | n' u' |]; try discriminate.
  simpl app. cbv beta iota.
  apply andb_true_iff in Ha as [Hcond Hrest].
  rewrite Hcond. simpl. apply IH, Hrest.
Qed.

Lemma lyndon_body_flushes (f32 : Z -> Z) (objective_function : objective) (K : nat)
      (nao : list Z) (st : lyndon_state) (w : code) :
  flushed_immediately (ly_trace st) = true ->
  flushed_immediately
    (ly_trace (final_state (lyndon_body f32 objective_function K nao st w))) = true.
Proof.
  intros Hst. unfold lyndon_body. lyndon_body_destruct; simpl; try assumption.
  - apply flushed_immediately_app; [apply flushed_immediately_app; [exact Hst | reflexivity] |].
    simpl. rewrite !bool_decide_eq_true_2 by reflexivity. reflexivity.
  - apply flushed_immediately_app; [exact Hst | reflexivity].
Qed.

Lemma update_lengths_app (a b : list event) :
  update_lengths (a ++ b) = update_lengths a ++ update_lengths b.
Proof. unfold update_lengths. rewrite List.map_app, concat_app. reflexivity. Qed.

Lemma update_lengths_scoring (n : nat) (ev : list event) :
  Forall (scoring_event n) ev -> update_lengths ev = [].
Proof.
  induction 1 as [| e ev [_ He] _ IH]; [reflexivity |].
  change (e :: ev) with ([e] ++ ev). rewrite update_lengths_app, IH.
  destruct e; try discriminate; reflexivity.
Qed.

Lemma deferred_scoring (n : nat) (ev : list event) :
  Forall (scoring_event n) ev -> deferred ev.
Proof.
  induction 1 as [| e ev [_ He] _ IH]; simpl; [exact I |].
  split; [| exact IH]. destruct e; try discriminate; exact I.
Qed.

Lemma deferred_app (a b : list event) :
  deferred a -> deferred b ->
  (forall m e, m ∈ update_lengths a -> e ∈ b -> (m < event_length e)%nat) ->
  deferred (a ++ b).
Proof.
  induction a as [| x a IH]; intros Ha Hb Hab; simpl; [exact Hb |].
  destruct Ha as [Hx Ha]. split.
  - destruct x as [| | n u |]; try exact I.
    apply Forall_app. split; [exact Hx |].
    apply Forall_forall. intros e He. apply (Hab n e); [| exact He].
    change (EvUpdate n u :: a) with ([EvUpdate n u] ++ a).
    rewrite update_lengths_app. apply elem_of_app. left. left.
  - apply IH; [exact Ha | exact Hb |].
    intros m e Hm He. apply Hab; [| exact He].
    change (x :: a) with ([x] ++ a). rewrite update_lengths_app.
    apply elem_of_app. right. exact Hm.
Qed.

Lemma update_lengths_bound (tr : list event) (a m : nat) :
  Forall (fun e => (event_length e < a)%nat) tr -> m ∈ update_lengths tr -> (m < a)%nat.
Proof.
  induction 1 as [| e tr He _ IH]; [intros H%elem_of_nil; destruct H |].
  change (e :: tr) with ([e] ++ tr). rewrite update_lengths_app.
  intros [Hm | Hm]%elem_of_app; [| exact (IH Hm)].
  destruct e; simpl in *; try (apply elem_of_nil in Hm; destruct Hm).
  apply list_elem_of_singleton in Hm as ->. exact He.
Qed.

(** The outer loop over the lengths [a, a+1, ..., a+m-1]. *)
Lemma range_loop_spec (ok : event -> Prop)
      (pass : list event -> nat -> result (list event)) :
  length_pass_spec ok pass ->
  (forall e, persists e = false -> ok e) ->
  forall (m a : nat) (tr : list event),
    deferred tr -> Forall ok tr ->
    Forall (fun e => (event_length e < a)%nat) tr ->
    deferred (final_state (for_each pass tr (seq a m))) /\
    Forall ok (final_state (for_each pass tr (seq a m))) /\
    exists tl,
      final_state (for_each pass tr (seq a m)) = tr ++ tl /\
      match for_each pass tr (seq a m) with
      | Ok _ => update_lengths tl = seq a m
      | Raise _ _ => exists j, (j < m)%nat /\ update_lengths tl = seq a j
      end.
Proof.
  intros Hpass Hok. induction m as [| m IH]; intros a tr Hdef Hall Hlt; simpl.
  - split; [exact Hdef |]. split; [exact Hall |].
    exists []. rewrite app_nil_r. split; reflexivity.
  - destruct (Hpass tr a) as (ev & Hev & Hres).
    assert (Hevok : Forall ok ev).
    { eapply Forall_impl; [exact Hev |]. intros e [_ He]. apply Hok, He. }
    assert (Hevlen : forall e, e ∈ ev -> event_length e = a).
    { intros e He. rewrite Forall_forall in Hev. apply Hev, He. }
    destruct (pass tr a) as [tr' | exc tr'].
    + destruct Hres as (u & -> & Hu).
      destruct (IH (S a) (tr ++ ev ++ [EvUpdate a u])) as (Hd & Ho & tl & Htl & Hm).
      * apply deferred_app; [exact Hdef | |].
        -- apply deferred_app; [eapply deferred_scoring, Hev | simpl; auto |].
           intros k e Hk. rewrite (update_lengths_scoring a ev Hev) in Hk.
           apply elem_of_nil in Hk. destruct Hk.
        -- intros k e Hk He. pose proof (update_lengths_bound tr a k Hlt Hk).
           apply elem_of_app in He as [He | He].
           ++ rewrite (Hevlen e He). lia.
           ++ apply list_elem_of_singleton in He as ->. simpl. lia.
      * apply Forall_app. split; [exact Hall |].
        apply Forall_app. split; [exact Hevok |]. constructor; [exact Hu | constructor].
      * apply Forall_app. split; [eapply Forall_impl; [exact Hlt | simpl; intros; lia] |].
        apply Forall_app. split.
        -- apply Forall_forall. intros e He. rewrite (Hevlen e He). lia.
        -- constructor; [simpl; lia | constructor].
      * split; [exact Hd |]. split; [exact Ho |].
        exists ((ev ++ [EvUpdate a u]) ++ tl).
        split; [rewrite Htl, <- !app_assoc; reflexivity |].
        rewrite !update_lengths_app, (update_lengths_scoring a ev Hev).
        destruct (for_each pass (tr ++ ev ++ [EvUpdate a u]) (seq (S a) m)).
        -- rewrite Hm. reflexivity.
        -- destruct Hm as (j & Hj & ->). exists (S j). split; [lia | reflexivity].
    + subst tr'. simpl. split.
      * apply deferred_app; [exact Hdef | eapply deferred_scoring, Hev |].
        intros k e Hk He. pose proof (update_lengths_bound tr a k Hlt Hk).
        rewrite (Hevlen e He). lia.
      * split; [apply Forall_app; split; assumption |].
        exists ev. split; [reflexivity |].
        exists 0%nat. split; [lia |]. apply (update_lengths_scoring a ev Hev).
Qed.

Lemma batch_loop_inv_snoc (objective_function : objective) (n : nat)
      (tr0 tr : list event) (code_best code_best' : option code) (best best' : score)
      (more : list event) :
  batch_loop_inv objective_function n tr0 tr code_best best ->
  Forall (scoring_event n) more ->
  best_consistent objective_function code_best' best' ->
  batch_loop_inv objective_function n tr0 (tr ++ more) code_best' best'.
Proof.
  intros (ev & -> & Hev & _) Hmore Hbest.
  exists (ev ++ more). split; [rewrite app_assoc; reflexivity |].
  split; [apply Forall_app; split; assumption | exact Hbest].
Qed.

Lemma bracelet_body_inv (objective_function : objective) (n : nat) (batch_size : Z)
      (tr0 : list event) (st : bracelet_state) :
  batch_loop_inv objective_function n tr0 (br_trace st) (br_code_best st) (br_score_best st) ->
  let st' := final_state (bracelet_body objective_function n batch_size st) in
  batch_loop_inv objective_function n tr0 (br_trace st') (br_code_best st') (br_score_best st').
Proof.
  intros Hinv. pose proof Hinv as (_ & _ & _ & Hbest).
  destruct (bracelet_body_cases objective_function n batch_size st)
    as [[_ Hbody] | (_ & c & _ & Hbody)]; rewrite Hbody; simpl.
  - eapply batch_loop_inv_snoc; [exact Hinv | | exact Hbest].
    repeat constructor.
  - destruct (score_gt _ _); simpl.
    + rewrite <- app_assoc. eapply batch_loop_inv_snoc; [exact Hinv | | reflexivity].
      repeat constructor.
    + eapply batch_loop_inv_snoc; [exact Hinv | | exact Hbest].
      repeat constructor.
Qed.

Lemma necklace_body_inv (objective_function : objective) (n : nat)
      (tr0 : list event) (st : necklace_state) :
  batch_loop_inv objective_function n tr0 (nk_trace st) (nk_code_best st) (nk_score_best st) ->
  let st' := final_state (necklace_body objective_function n st) in
  batch_loop_inv objective_function n tr0 (nk_trace st') (nk_code_best st') (nk_score_best st').
Proof.
  intros Hinv. pose proof Hinv as (_ & _ & _ & Hbest).
  destruct (necklace_body_cases objective_function n st)
    as [[_ Hbody] | [(rest & _ & Hbody) | (batch & rest & c & _ & _ & _ & Hbody)]];
    rewrite Hbody; simpl.
  - exact Hinv.
  - eapply batch_loop_inv_snoc; [exact Hinv | | exact Hbest].
    repeat constructor.
  - destruct (score_gt _ _); simpl.
    + rewrite <- app_assoc. eapply batch_loop_inv_snoc; [exact Hinv | | reflexivity].
      repeat constructor.
    + eapply batch_loop_inv_snoc; [exact Hinv | | exact Hbest].
      repeat constructor.
Qed.

Lemma batch_loop_inv_init (objective_function : objective) (n : nat) (tr : list event) :
  batch_loop_inv objective_function n tr tr None NegInf.
Proof. exists []. rewrite app_nil_r. repeat split. constructor. Qed.

Lemma bracelet_length_pass (bracelet_fc : nat -> Z -> list Z -> list code)
      (objective_function : objective) (density : Q) (batch_size : Z) :
  length_pass_spec (batch_update_ok objective_function density)
                   (bracelet_length bracelet_fc objective_function density batch_size).
Proof.
  intros tr n. unfold bracelet_length.
  destruct (batch_size =? 0).
  { exists []. split; [constructor | rewrite app_nil_r; reflexivity]. }
  match goal with
  | |- context [for_range ?p ?body ?st0] =>
      pose proof (for_range_invariant
                    (fun st => batch_loop_inv objective_function n tr (br_trace st)
                                              (br_code_best st) (br_score_best st))
                    body (bracelet_body_inv objective_function n batch_size tr)
                    p st0 (batch_loop_inv_init objective_function n tr)) as Hinv;
      destruct (for_range p body st0) as [st | e st]
  end; simpl in Hinv; destruct Hinv as (ev & Htr & Hev & Hbest);
    exists ev; (split; [exact Hev |]).
  - eexists. rewrite Htr, <- app_assoc. split; [reflexivity |].
    simpl. repeat split. exact Hbest.
  - exact Htr.
Qed.

Lemma necklace_length_pass (Necklaces : list Z -> list code)
      (objective_function : objective) (density : Q) (batch_size : Z) :
  length_pass_spec (batch_update_ok objective_function density)
                   (necklace_length Necklaces objective_function density batch_size).
Proof.
  intros tr n. unfold necklace_length.
  destruct (batch_size =? 0).
  { exists []. split; [constructor | rewrite app_nil_r; reflexivity]. }
  match goal with
  | |- context [for_range ?p ?body ?st0] =>
      pose proof (for_range_invariant
                    (fun st => batch_loop_inv objective_function n tr (nk_trace st)
                                              (nk_code_best st) (nk_score_best st))
                    body (necklace_body_inv objective_function n tr)
                    p st0 (batch_loop_inv_init objective_function n tr)) as Hinv;
      destruct (for_range p body st0) as [st | e st]
  end; simpl in Hinv; destruct Hinv as (ev & Htr & Hev & Hbest);
    exists ev; (split; [exact Hev |]).
  - eexists. rewrite Htr, <- app_assoc. split; [reflexivity |].
    simpl. repeat split. exact Hbest.
  - exact Htr.
Qed.

Lemma scoring_events_ok (objective_function : objective) (density : Q) (e : event) :
  persists e = false -> batch_update_ok objective_function density e.
Proof. destruct e; simpl; intros H; try discriminate; exact I. Qed.

(** C1, as the code has it. The Lyndon driver updates the archiver at once,
    at the candidate where a strict improvement is observed.  The bracelet
    and necklace drivers do not: they update the archiver once per length,
    after the last batch of that length (nothing of that length follows the
    update in the trace), so a run that completes has exactly one update for
    each length in [K, L], and a run cut short by an exception has none for
    the length it was searching. *)
Theorem flush_policy_of_range_drivers
        (LLW : Z -> nat -> code -> list code)
        (bracelet_fc : nat -> Z -> list Z -> list code)
        (Necklaces : list Z -> list code) (f32 : Z -> Z)
        (objective_function : objective) (K L : nat) (density : Q) (batch_size : Z) :
  flushed_immediately
    (ly_trace (final_state (lyndon LLW f32 K L objective_function density))) = true /\
  (deferred (final_state (bracelet bracelet_fc K L objective_function density batch_size)) /\
   one_update_per_length K L (bracelet bracelet_fc K L objective_function density batch_size))
  /\
  (deferred (final_state (necklace Necklaces K L objective_function density batch_size)) /\
   one_update_per_length K L (necklace Necklaces K L objective_function density batch_size)).
Proof.
  split; [| split].
  - unfold lyndon.
    apply (for_each_invariant (fun st => flushed_immediately (ly_trace st) = true));
      [| reflexivity].
    intros st w. apply lyndon_body_flushes.
  - unfold bracelet, one_update_per_length.
    destruct (range_loop_spec _ _
                (bracelet_length_pass bracelet_fc objective_function density batch_size)
                (scoring_events_ok objective_function density)
                (L + 1 - K) K [] I (Forall_nil_2 _) (Forall_nil_2 _))
      as (Hd & _ & tl & Htl & Hm).
    split; [exact Hd |].
    destruct (for_each _ _ _); simpl in Htl; subst; exact Hm.
  - unfold necklace, one_update_per_length.
    destruct (range_loop_spec _ _
                (necklace_length_pass Necklaces objective_function density batch_size)
                (scoring_events_ok objective_function density)
                (L + 1 - K) K [] I (Forall_nil_2 _) (Forall_nil_2 _))
      as (Hd & _ & tl & Htl & Hm).
    split; [exact Hd |].
    destruct (for_each _ _ _); simpl in Htl; subst; exact Hm.
Qed.

(** C1 as stated fails for the bracelet driver: with the three bracelets of
    length 6 in batches of two, the best score improves in both batches, and
    the only archiver update comes after the second. *)
Lemma bracelet_defers_archiver_update :
  bracelet demo_bracelet_fc 6 6 demo_objective (1 # 2) 2 =
    Ok [EvScore 6 [[0; 0; 1; 0; 1; 1]; [0; 1; 0; 1; 0; 1]];
        EvBest 6 [0; 0; 1; 0; 1; 1] 52;
        EvScore 6 [[0; 0; 0; 1; 1; 1]];
        EvBest 6 [0; 0; 0; 1; 1; 1] 56;
        EvUpdate 6 {| upd_name := "demo"; upd_code := Some [0; 0; 0; 1; 1; 1];
                      upd_score := Fin 56; upd_weight := 3 |}] /\
  flushed_immediately
    (final_state (bracelet demo_bracelet_fc 6 6 demo_objective (1 # 2) 2)) = false.
Proof. split; vm_compute; reflexivity. Qed.

(** ** What an archiver update carries *)

Lemma num_allowed_ones_lookup_inv (L n : nat) (density : Q) (a : Z) :
  num_allowed_ones_of L density !! n = Some a -> a = int_mul n density.
Proof.
  unfold num_allowed_ones_of. rewrite list_lookup_fmap.
  destruct (seq 0 (L + 1) !! n) as [m |] eqn:Hm; [| discriminate].
  apply lookup_seq in Hm as [-> _]. simpl. congruence.
Qed.

Lemma lyndon_body_updates_ok (f32 : Z -> Z) (objective_function : objective) (K L : nat)
      (density : Q) (st : lyndon_state) (w : code) :
  Forall (lyndon_update_ok objective_function density) (ly_trace st) ->
  Forall (lyndon_update_ok objective_function density)
         (ly_trace (final_state
                      (lyndon_body f32 objective_function K
                                   (num_allowed_ones_of L density) st w))).
Proof.
  intros Hst. unfold lyndon_body.
  destruct (decide (K <= length w)%nat); [| exact Hst].
  destruct (num_allowed_ones_of L density !! length w) as [allowed |] eqn:Ha; [| exact Hst].
  apply num_allowed_ones_lookup_inv in Ha.
  destruct (decide (np_sum w = allowed)) as [Hw | Hw]; [| exact Hst].
  destruct (num_searched_codes st !! length w); [| exact Hst].
  destruct (score_best st !! length w); [| exact Hst].
  destruct (score_gt _ _); simpl.
  - apply Forall_app. split; [apply Forall_app; split; [exact Hst | repeat constructor] |].
    constructor; [exact I |]. constructor; [| constructor].
    simpl. exists w. repeat split; assumption.
  - apply Forall_app. split; [exact Hst | repeat constructor].
Qed.



(** ** Configurations the specification calls errors *)

Lemma bfs_clamps_batch_size (rate : code -> Z) (L : nat) (density : Q)
      (batch_size : Z) (filename : option string) :
  (1 <= L)%nat -> batch_size <= 0 ->
  bfs_run rate L density batch_size filename
  = bfs_run rate L density (Z.of_nat L) filename.
Proof.
  intros HL Hbs. unfold bfs_run.
  assert (H1 : Z.max (batch_size / Z.of_nat L) 1 = 1).
  { assert (batch_size / Z.of_nat L <= 0); [| lia].
    apply Z.div_le_upper_bound; lia. }
  assert (H2 : Z.max (Z.of_nat L / Z.of_nat L) 1 = 1).
  { rewrite Z.div_same by lia. reflexivity. }
  rewrite H1, H2. reflexivity.
Qed.

Lemma lyndon_skips_short_words (f32 : Z -> Z) (objective_function : objective)
      (K : nat) (nao : list Z) (words : list code) (st : lyndon_state) :
  Forall (fun w => (length w < K)%nat) words ->
  for_each (lyndon_body f32 objective_function K nao) st words = Ok st.
Proof.
  induction 1 as [| w words Hw _ IH]; simpl; [reflexivity |].
  unfold lyndon_body at 1. destruct (decide (K <= length w)%nat); [lia | exact IH].
Qed.




(** ** Monotonicity of the best score and of the searched count *)

Lemma Forall2_score_le_refl (l : list score) : Forall2 score_le l l.
Proof. induction l; constructor; [apply score_le_refl | assumption]. Qed.

Lemma score_best_insert_monotone (l : list score) (n : nat) (old new : score) :
  l !! n = Some old -> score_le old new -> Forall2 score_le l (<[n := new]> l).
Proof.
  intros Hn Hle. rewrite <- (list_insert_id l n old Hn) at 1.
  apply Forall2_insert; [apply Forall2_score_le_refl | exact Hle].
Qed.

(** Rounding a strictly better score to float32 cannot fall below the
    float32 value it was compared with. *)
Lemma rounded_improvement (f32 : Z -> Z) (s : Z) (best : score) :
  (forall a b, a <= b -> f32 a <= f32 b) ->
  match best with NegInf => True | Fin z => f32 z = z end ->
  score_gt s best = true -> score_le best (Fin (f32 s)).
Proof.
  intros Hmono Hval Hgt. destruct best as [| b]; simpl in *; [exact I |].
  apply Z.ltb_lt in Hgt. rewrite <- Hval. apply Hmono. lia.
Qed.

Lemma bfs_body_monotone (rate : code -> Z) (L : nat) (filename : option string)
      (indices : list (list nat)) (st : bfs_state) :
  indices <> [] ->
  score_le (bfs_score_best st)
           (bfs_score_best (final_state (bfs_body rate L filename indices st))) /\
  (bfs_num_searched_codes st
   < bfs_num_searched_codes (final_state (bfs_body rate L filename indices st)))%nat.
Proof.
  intros Hne. assert (0 < length indices)%nat by (destruct indices; [congruence | simpl; lia]).
  unfold bfs_body.
  destruct (argmax _) as [best |]; simpl; [| split; [apply score_le_refl | lia]].
  destruct (_ !! best) as [s |]; simpl; [| split; [apply score_le_refl | lia]].
  destruct (_ !! best) as [c |]; simpl; [| split; [apply score_le_refl | lia]].
  pose proof (score_gt_le s (bfs_score_best st)) as Hle.
  destruct (score_gt s (bfs_score_best st)); simpl; (split; [exact Hle | lia]).
Qed.

Lemma lyndon_body_monotone (f32 : Z -> Z) (objective_function : objective) (K L : nat)
      (density : Q) (st : lyndon_state) (w : code) :
  (forall a b, a <= b -> f32 a <= f32 b) ->
  lyndon_wf L st -> float32_valued f32 st -> (length w <= L)%nat ->
  let st' := final_state (lyndon_body f32 objective_function K
                                      (num_allowed_ones_of L density) st w) in
  scores_monotone st st' /\
  ((K <= length w)%nat /\ np_sum w = int_mul (length w) density ->
   count_incremented st st' (length w)).
Proof.
  intros Hmono Hwf Hval Hlen.
  destruct (lyndon_body_cases f32 objective_function K L density st w Hwf Hlen)
    as [(HK & Hw & count & best & Hc & Hb & Hbody) | [Hno Hbody]];
    rewrite Hbody; simpl.
  - assert (Hbest : match best with NegInf => True | Fin z => f32 z = z end).
    { unfold float32_valued in Hval. rewrite Forall_forall in Hval.
      eapply Hval, list_elem_of_lookup_2, Hb. }
    destruct (score_gt _ best) eqn:Hgt; unfold scores_monotone; simpl; split.
    + apply (score_best_insert_monotone _ _ best); [exact Hb |].
      apply rounded_improvement; assumption.
    + intros _. exists count. split; [exact Hc |].
      apply list_lookup_insert_eq. eapply lookup_lt_Some, Hc.
    + apply Forall2_score_le_refl.
    + intros _. exists count. split; [exact Hc |].
      apply list_lookup_insert_eq. eapply lookup_lt_Some, Hc.
  - split; [apply Forall2_score_le_refl | tauto].
Qed.

Lemma find_codes_lyndon_body_monotone (f32 : Z -> Z) (cost_function : code -> Z)
      (K L : nat) (density : Q) (st : lyndon_state) (w : code) :
  (forall a b, a <= b -> f32 a <= f32 b) ->
  lyndon_wf L st -> float32_valued f32 st -> (length w <= L)%nat ->
  let st' := final_state (find_codes_lyndon_body f32 cost_function K
                                                 (num_allowed_ones_of L density) st w) in
  scores_monotone st st' /\
  ((K <= length w)%nat /\ np_sum w = int_mul (length w) density ->
   count_incremented st st' (length w)).
Proof.
  intros Hmono Hwf Hval Hlen.
  destruct (find_codes_lyndon_body_cases f32 cost_function K L density st w Hwf Hlen)
    as [(HK & Hw & count & best & Hc & Hb & Hbody) | [Hno Hbody]];
    rewrite Hbody; simpl.
  - assert (Hbest : match best with NegInf => True | Fin z => f32 z = z end).
    { unfold float32_valued in Hval. rewrite Forall_forall in Hval.
      eapply Hval, list_elem_of_lookup_2, Hb. }
    destruct (score_gt _ best) eqn:Hgt; unfold scores_monotone; simpl; split.
    + apply (score_best_insert_monotone _ _ best); [exact Hb |].
      apply rounded_improvement; assumption.
    + intros _. exists count. split; [exact Hc |].
      apply list_lookup_insert_eq. eapply lookup_lt_Some, Hc.
    + apply Forall2_score_le_refl.
    + intros _. exists count. split; [exact Hc |].
      apply list_lookup_insert_eq. eapply lookup_lt_Some, Hc.
  - split; [apply Forall2_score_le_refl | tauto].
Qed.

(** Rounding is idempotent, so the array only ever holds float32 values. *)
Lemma lyndon_body_float32 (f32 : Z -> Z) (objective_function : objective) (K : nat)
      (nao : list Z) (st : lyndon_state) (w : code) :
  (forall a, f32 (f32 a) = f32 a) ->
  float32_valued f32 st ->
  float32_valued f32 (final_state (lyndon_body f32 objective_function K nao st w)).
Proof.
  intros Hidem Hval. unfold lyndon_body. lyndon_body_destruct; simpl; try exact Hval.
  unfold float32_valued. simpl. apply Forall_insert; [exact Hval | apply Hidem].
Qed.

Lemma scored_count_snoc (tr : list event) (n : nat) (batch : list code) :
  scored_count (tr ++ [EvScore n batch]) = (scored_count tr + length batch)%nat.
Proof.
  unfold scored_count. rewrite scored_codes_app, length_app. f_equal.
  unfold scored_codes. simpl. rewrite ?app_nil_r. reflexivity.
Qed.

Lemma scored_count_best (tr : list event) (n : nat) (c : code) (s : Z) :
  scored_count (tr ++ [EvBest n c s]) = scored_count tr.
Proof.
  unfold scored_count. rewrite scored_codes_app, length_app. simpl. lia.
Qed.

Lemma bracelet_body_monotone (objective_function : objective) (n : nat)
      (batch_size : Z) (st : bracelet_state) :
  score_le (br_score_best st)
           (br_score_best (final_state (bracelet_body objective_function n batch_size st))) /\
  (forall st', bracelet_body objective_function n batch_size st = Ok st' ->
               (scored_count (br_trace st) < scored_count (br_trace st'))%nat).
Proof.
  destruct (bracelet_body_cases objective_function n batch_size st)
    as [[_ Hbody] | (Hne & c & _ & Hbody)]; rewrite Hbody; simpl.
  - split; [apply score_le_refl | discriminate].
  - pose proof (score_gt_le (obj_call objective_function c) (br_score_best st)) as Hle.
    match type of Hne with
    | ?b <> [] => assert (0 < length b)%nat by (destruct b; [congruence | simpl; lia])
    end.
    destruct (score_gt _ _); simpl; (split; [exact Hle |]); intros st' [= <-]; simpl;
      rewrite ?scored_count_best, scored_count_snoc; lia.
Qed.

Lemma necklace_body_monotone (objective_function : objective) (n : nat)
      (st : necklace_state) :
  score_le (nk_score_best st)
           (nk_score_best (final_state (necklace_body objective_function n st))) /\
  (forall st', necklace_body objective_function n st = Ok st' ->
               (scored_count (nk_trace st) < scored_count (nk_trace st'))%nat).
Proof.
  destruct (necklace_body_cases objective_function n st)
    as [[_ Hbody] | [(rest & _ & Hbody) | (batch & rest & c & _ & Hne & _ & Hbody)]];
    rewrite Hbody; simpl.
  - split; [apply score_le_refl | discriminate].
  - split; [apply score_le_refl | discriminate].
  - pose proof (score_gt_le (obj_call objective_function c) (nk_score_best st)) as Hle.
    assert (0 < length batch)%nat by (destruct batch; [congruence | simpl; lia]).
    destruct (score_gt _ _); simpl; (split; [exact Hle |]); intros st' [= <-]; simpl;
      rewrite ?scored_count_best, scored_count_snoc; lia.
Qed.

(** Every state the Lyndon driver reaches holds float32 values only. *)
Lemma lyndon_reaches_float32 (LLW : Z -> nat -> code -> list code) (f32 : Z -> Z)
      (objective_function : objective) (K L : nat) (density : Q) :
  (forall a, f32 (f32 a) = f32 a) ->
  float32_valued f32 (final_state (lyndon LLW f32 K L objective_function density)).
Proof.
  intros Hidem. unfold lyndon. apply (for_each_invariant (float32_valued f32)).
  - intros st w. apply lyndon_body_float32, Hidem.
  - unfold float32_valued. simpl. apply Forall_replicate. exact I.
Qed.



(** ** Determinism *)

Lemma for_each_ext {S A} (body1 body2 : S -> A -> result S) :
  (forall st x, body1 st x = body2 st x) ->
  forall xs st, for_each body1 st xs = for_each body2 st xs.
Proof.
  intros Hbody. induction xs as [| x xs IH]; intros st; simpl; [reflexivity |].
  rewrite Hbody. destruct (body2 st x); [apply IH | reflexivity].
Qed.

Lemma for_range_ext {S} (body1 body2 : S -> result S) :
  (forall st, body1 st = body2 st) ->
  forall n st, for_range n body1 st = for_range n body2 st.
Proof.
  intros Hbody. induction n as [| n IH]; intros st; simpl; [reflexivity |].
  rewrite Hbody. destruct (body2 st); [apply IH | reflexivity].
Qed.

Lemma bfs_loop_ext (rate rate' : code -> Z) (L : nat) (filename : option string)
      (b : nat) :
  (forall c, rate c = rate' c) ->
  forall n st, bfs_loop rate L filename b n st = bfs_loop rate' L filename b n st.
Proof.
  intros Hrate. induction n as [| n IH]; intros st; simpl; [reflexivity |].
  destruct (decide _); [reflexivity |].
  assert (Hbody : forall indices, bfs_body rate L filename indices st
                                  = bfs_body rate' L filename indices st).
  { intros indices. unfold bfs_body.
    rewrite (list_fmap_ext rate rate' (code_of_indices L <$> indices)); [reflexivity |].
    intros i c _. apply Hrate. }
  rewrite Hbody. destruct (bfs_body rate' L filename _ st); [apply IH | reflexivity].
Qed.

Section SameObjective.
Variables objective1 objective2 : objective.
Hypothesis same_name : obj_name objective1 = obj_name objective2.
Hypothesis same_scores : forall c, obj_call objective1 c = obj_call objective2 c.

Lemma lyndon_body_same (f32 : Z -> Z) (K : nat) (nao : list Z)
      (st : lyndon_state) (w : code) :
  lyndon_body f32 objective1 K nao st w = lyndon_body f32 objective2 K nao st w.
Proof. unfold lyndon_body. rewrite same_name, same_scores. reflexivity. Qed.

Lemma bracelet_body_same (n : nat) (batch_size : Z) (st : bracelet_state) :
  bracelet_body objective1 n batch_size st = bracelet_body objective2 n batch_size st.
Proof.
  unfold bracelet_body.
  rewrite (list_fmap_ext (obj_call objective1) (obj_call objective2)); [reflexivity |].
  intros i c _. apply same_scores.
Qed.

Lemma necklace_body_same (n : nat) (st : necklace_state) :
  necklace_body objective1 n st = necklace_body objective2 n st.
Proof.
  unfold necklace_body. destruct (pending (nk_chunks st)) as [| batch rest]; [reflexivity |].
  rewrite (list_fmap_ext (obj_call objective1) (obj_call objective2) batch); [reflexivity |].
  intros i c _. apply same_scores.
Qed.

Lemma bracelet_length_same (bracelet_fc : nat -> Z -> list Z -> list code)
      (density : Q) (batch_size : Z) (tr : list event) (n : nat) :
  bracelet_length bracelet_fc objective1 density batch_size tr n
  = bracelet_length bracelet_fc objective2 density batch_size tr n.
Proof.
  unfold bracelet_length. destruct (batch_size =? 0); [reflexivity |].
  rewrite (for_range_ext _ _ (bracelet_body_same n batch_size)), same_name. reflexivity.
Qed.

Lemma necklace_length_same (Necklaces : list Z -> list code)
      (density : Q) (batch_size : Z) (tr : list event) (n : nat) :
  necklace_length Necklaces objective1 density batch_size tr n
  = necklace_length Necklaces objective2 density batch_size tr n.
Proof.
  unfold necklace_length. destruct (batch_size =? 0); [reflexivity |].
  rewrite (for_range_ext _ _ (necklace_body_same n)), same_name. reflexivity.
Qed.
End SameObjective.


Lemma demo_rate_agree (c : code) : demo_rate c = demo_rate' c.
Proof.
  unfold demo_rate, demo_rate'. rewrite <- fold_left_rev_right, rev_involutive.
  reflexivity.
Qed.


(** * Further properties of the drivers *)

(** ** [_necklace_chunk]: the chunks partition the necklaces *)

Lemma minus_one_app (a b : list code) : minus_one (a ++ b) = minus_one a ++ minus_one b.
Proof. unfold minus_one. apply List.map_app. Qed.

Lemma necklace_fill_partition (height : nat) :
  (0 < height)%nat ->
  forall (q r : nat) (xs : list code),
    (r < height)%nat -> length xs = (q * height + r)%nat ->
    exists chunks last,
      necklace_fill height [] xs = chunks ++ [last] /\
      length chunks = q /\
      Forall (fun chunk => length chunk = height) chunks /\
      length last = r /\
      concat (chunks ++ [last]) = minus_one xs.
Proof.
  intros Hh. induction q as [| q IH]; intros r xs Hr Hlen.
  - rewrite necklace_fill_unfold by (simpl; lia). simpl in *.
    destruct (decide (length xs < height)%nat); [| lia].
    exists [], (minus_one xs). simpl. rewrite app_nil_r, minus_one_length.
    repeat split; [constructor | exact Hlen].
  - rewrite necklace_fill_unfold by (simpl; lia). simpl.
    destruct (decide (length xs < height)%nat); [lia |].
    rewrite Nat.sub_0_r.
    destruct (IH r (drop height xs) Hr) as (chunks & last & Hfill & Hcount & Hfull & Hlast & Hcat).
    { rewrite length_drop, Hlen. simpl. lia. }
    exists (minus_one (take height xs) :: chunks), last.
    rewrite Hfill. split; [reflexivity |]. split; [simpl; lia |].
    split; [constructor; [rewrite minus_one_length, length_take; lia | exact Hfull] |].
    split; [exact Hlast |].
    simpl. rewrite Hcat, <- minus_one_app, take_drop. reflexivity.
Qed.

(** X1. Started on a non-empty enumeration whose words have the chunk width,
    with a positive chunk height, [_necklace_chunk] ends normally after
    yielding [len // height] chunks of exactly [height] rows and a last chunk
    of [len mod height] rows (empty when the height divides the count); the
    chunks, put end to end, are the necklaces in order with every letter
    lowered by one. *)
Theorem necklace_chunk_partitions (first : code) (others : list code)
        (height : Z) (width : nat) :
  0 < height -> length first = width ->
  exists chunks last,
    _necklace_chunk (first :: others) (height, width)
      = {| pending := chunks ++ [last]; ending := None |} /\
    Z.of_nat (length chunks) = Z.of_nat (length (first :: others)) / height /\
    Forall (fun chunk => Z.of_nat (length chunk) = height) chunks /\
    Z.of_nat (length last) = Z.of_nat (length (first :: others)) mod height /\
    concat (chunks ++ [last]) = minus_one (first :: others).
Proof.
  intros Hh Hw.
  pose proof (Z.div_mod (Z.of_nat (length (first :: others))) height ltac:(lia)) as Hdiv.
  pose proof (Z.mod_pos_bound (Z.of_nat (length (first :: others))) height Hh) as Hbound.
  assert (Hq : 0 <= Z.of_nat (length (first :: others)) / height) by (apply Z.div_pos; lia).
  destruct (necklace_fill_partition (Z.to_nat height) ltac:(lia)
              (Z.to_nat (Z.of_nat (length (first :: others)) / height))
              (Z.to_nat (Z.of_nat (length (first :: others)) mod height))
              (first :: others))
    as (chunks & last & Hfill & Hcount & Hfull & Hlast & Hcat); [lia | nia |].
  exists chunks, last. unfold _necklace_chunk. simpl fst. simpl snd.
  destruct (decide (width = length first)); [| congruence].
  destruct (height <? 0) eqn:E1; [apply Z.ltb_lt in E1; lia |].
  destruct (height =? 0) eqn:E2; [apply Z.eqb_eq in E2; lia |].
  rewrite Hfill. split; [reflexivity |]. split; [lia |].
  split; [eapply Forall_impl; [exact Hfull | simpl; intros; lia] |].
  split; [lia | exact Hcat].
Qed.

Lemma necklace_chunk_partitions_witness :
  (0 < 3 /\ length [1; 1; 1; 2; 2; 2] = 6%nat) /\
  exists chunks last,
    _necklace_chunk ([1; 1; 1; 2; 2; 2] :: [[1; 1; 2; 1; 2; 2]; [1; 1; 2; 2; 1; 2];
                                            [1; 2; 1; 2; 1; 2]]) (3, 6%nat)
      = {| pending := chunks ++ [last]; ending := None |} /\
    Z.of_nat (length chunks)
      = Z.of_nat (length ([1; 1; 1; 2; 2; 2] :: [[1; 1; 2; 1; 2; 2]; [1; 1; 2; 2; 1; 2];
                                                 [1; 2; 1; 2; 1; 2]])) / 3 /\
    Forall (fun chunk => Z.of_nat (length chunk) = 3) chunks /\
    Z.of_nat (length last)
      = Z.of_nat (length ([1; 1; 1; 2; 2; 2] :: [[1; 1; 2; 1; 2; 2]; [1; 1; 2; 2; 1; 2];
                                                 [1; 2; 1; 2; 1; 2]])) mod 3 /\
    concat (chunks ++ [last])
      = minus_one ([1; 1; 1; 2; 2; 2] :: [[1; 1; 2; 1; 2; 2]; [1; 1; 2; 2; 1; 2];
                                          [1; 2; 1; 2; 1; 2]]).
Proof.
  split; [split; [lia | reflexivity] |].
  apply (necklace_chunk_partitions [1; 1; 1; 2; 2; 2]
           [[1; 1; 2; 1; 2; 2]; [1; 1; 2; 2; 1; 2]; [1; 2; 1; 2; 1; 2]] 3 6);
    [lia | reflexivity].
Defined.

(** ** [bracelet] and [necklace]: what a length's pass scores and reports *)

Lemma scored_codes_batches (tr : list event) :
  scored_codes tr = concat (scored_batches tr).
Proof.
  induction tr as [| e tr IH]; [reflexivity |].
  change (e :: tr) with ([e] ++ tr).
  rewrite scored_codes_app, scored_batches_app, concat_app, IH. f_equal.
  destruct e; unfold scored_codes, scored_batches; simpl; rewrite ?app_nil_r; reflexivity.
Qed.

Lemma elem_of_concat_rev {A} (x : A) (ls : list (list A)) :
  x ∈ concat (rev ls) <-> x ∈ concat ls.
Proof.
  induction ls as [| l ls IH]; simpl; [reflexivity |].
  rewrite concat_app, !elem_of_app, IH. simpl. rewrite app_nil_r. tauto.
Qed.

(** The tracker after one pass, for any batch. *)
Lemma tracks_first_max_pass (objective_function : objective) (seen batch : list code)
      (code_best : option code) (best : score) :
  tracks_first_max objective_function seen code_best best ->
  match argmax (obj_call objective_function <$> batch) with
  | None => batch = []
  | Some i =>
      exists c,
        (obj_call objective_function <$> batch) !! i = Some (obj_call objective_function c) /\
        batch !! i = Some c /\
        tracks_first_max objective_function (seen ++ batch)
          (if score_gt (obj_call objective_function c) best then Some c else code_best)
          (if score_gt (obj_call objective_function c) best
           then Fin (obj_call objective_function c) else best)
  end.
Proof.
  intros [Hmax ->].
  destruct (argmax _) as [i |] eqn:Hi.
  - destruct (first_max_batch _ _ _ _ _ Hmax Hi) as (c & Hc & Hs & Hnew).
    exists c. split; [exact Hs |]. split; [exact Hc |].
    destruct (score_gt _ _); split; try exact Hnew; reflexivity.
  - destruct batch; [reflexivity | discriminate].
Qed.

Lemma bracelet_body_keeps_inv (objective_function : objective) (n : nat)
      (batch_size : Z) (codes : list code) (tr0 : list event) (st : bracelet_state) :
  bracelet_loop_inv objective_function n codes tr0 st ->
  bracelet_loop_inv objective_function n codes tr0
                    (final_state (bracelet_body objective_function n batch_size st)).
Proof.
  intros (ev & Htr & Hev & Hcodes & Htrack).
  pose proof (tracks_first_max_pass objective_function (scored_codes ev)
                (drop (slice_start (length (br_codes st)) batch_size) (br_codes st))
                _ _ Htrack) as Hpass.
  unfold bracelet_body.
  set (start := slice_start (length (br_codes st)) batch_size) in *.
  set (batch := drop start (br_codes st)) in *.
  assert (Hsplit : forall more, scored_batches more = [] ->
             take start (br_codes st)
               ++ concat (rev (scored_batches ((ev ++ [EvScore n batch]) ++ more))) = codes).
  { intros more Hmore. rewrite !scored_batches_app, Hmore, app_nil_r. simpl.
    rewrite rev_app_distr. simpl. rewrite app_assoc. unfold batch.
    rewrite take_drop. exact Hcodes. }
  assert (Hscored : forall more, scored_batches more = [] ->
             scored_codes ((ev ++ [EvScore n batch]) ++ more) = scored_codes ev ++ batch).
  { intros more Hmore. rewrite !scored_codes_batches, !scored_batches_app, Hmore.
    simpl. rewrite !concat_app. simpl. rewrite !app_nil_r. reflexivity. }
  destruct (argmax _) as [i |].
  - destruct Hpass as (c & Hs & Hc & Hnew). rewrite Hs, Hc.
    destruct (score_gt _ _); simpl.
    + exists ((ev ++ [EvScore n batch]) ++ [EvBest n c (obj_call objective_function c)]).
      split; [rewrite Htr, <- !app_assoc; reflexivity |].
      split; [repeat (apply Forall_app; split); try exact Hev; repeat constructor |].
      split; [apply Hsplit; reflexivity |].
      rewrite Hscored by reflexivity. exact Hnew.
    + exists ((ev ++ [EvScore n batch]) ++ []).
      split; [rewrite Htr, <- !app_assoc; reflexivity |].
      split; [repeat (apply Forall_app; split); try exact Hev; repeat constructor |].
      split; [apply Hsplit; reflexivity |].
      rewrite Hscored by reflexivity. exact Hnew.
  - simpl. exists ((ev ++ [EvScore n batch]) ++ []).
    split; [rewrite Htr, <- !app_assoc; reflexivity |].
    split; [repeat (apply Forall_app; split); try exact Hev; repeat constructor |].
    split; [apply Hsplit; reflexivity |].
    rewrite Hscored by reflexivity. rewrite Hpass, app_nil_r. exact Htrack.
Qed.

Lemma bracelet_loop_inv_init (objective_function : objective) (n : nat)
      (codes : list code) (tr : list event) :
  bracelet_loop_inv objective_function n codes tr
    {| br_codes := codes; br_code_best := None; br_score_best := NegInf; br_trace := tr |}.
Proof.
  exists []. simpl. rewrite !app_nil_r. repeat split. constructor.
Qed.

(** When the batch size does not divide their number, the passes take every
    bracelet and none of them raises. *)
Lemma bracelet_passes_complete (objective_function : objective) (n : nat)
      (batch_size : Z) (r : nat) :
  0 < batch_size -> (0 < r < Z.to_nat batch_size)%nat ->
  forall (q : nat) (st : bracelet_state),
    length (br_codes st) = (q * Z.to_nat batch_size + r)%nat ->
    exists st',
      for_range (S q) (bracelet_body objective_function n batch_size) st = Ok st' /\
      br_codes st' = [].
Proof.
  intros Hbs Hr. induction q as [| q IH]; intros st Hlen.
  - assert (Hstart : slice_start (length (br_codes st)) batch_size = 0%nat).
    { unfold slice_start. destruct (0 <? batch_size) eqn:E; [| apply Z.ltb_ge in E; lia].
      rewrite Hlen. lia. }
    destruct (bracelet_body_cases objective_function n batch_size st)
      as [[Hnil _] | (Hne & c & _ & Hbody)].
    + exfalso. apply (f_equal length) in Hnil.
      rewrite length_drop, Hstart, Hlen in Hnil. simpl in Hnil. lia.
    + simpl for_range. rewrite Hbody. rewrite Hstart.
      destruct (score_gt _ _); eexists; split; reflexivity.
  - assert (Hstart : slice_start (length (br_codes st)) batch_size
                     = (q * Z.to_nat batch_size + r)%nat).
    { unfold slice_start. destruct (0 <? batch_size) eqn:E; [| apply Z.ltb_ge in E; lia].
      rewrite Hlen. lia. }
    destruct (bracelet_body_cases objective_function n batch_size st)
      as [[Hnil _] | (Hne & c & _ & Hbody)].
    + exfalso. apply (f_equal length) in Hnil.
      rewrite length_drop, Hstart, Hlen in Hnil. simpl in Hnil. lia.
    + change (for_range (S (S q)) (bracelet_body objective_function n batch_size) st)
        with (match bracelet_body objective_function n batch_size st with
              | Ok st' => for_range (S q) (bracelet_body objective_function n batch_size) st'
              | Raise e st' => Raise e st'
              end).
      rewrite Hbody. apply IH.
      destruct (score_gt _ _); simpl; rewrite length_take, Hstart, Hlen; lia.
Qed.

(** X2. For a positive batch size, one length of [bracelet] ends in one of
    two ways.  If the batch size divides the number of bracelets, the pass
    raises (the empty extra batch) and no update is made.  Otherwise it
    completes: every bracelet has been scored exactly once, in batches taken
    from the back of the list, and the one update carries a bracelet of
    maximal score, the first maximum in the order of scoring, together with
    that score. *)
Theorem bracelet_length_outcome
        (bracelet_fc : nat -> Z -> list Z -> list code)
        (objective_function : objective) (density : Q) (batch_size : Z)
        (tr : list event) (n : nat) :
  0 < batch_size ->
  let codes := bracelet_fc n 2 [Z.of_nat n - int_mul n density; int_mul n density] in
  (Z.of_nat (length codes) mod batch_size = 0 ->
   exists tr', bracelet_length bracelet_fc objective_function density batch_size tr n
               = Raise ValueError tr' /\ update_lengths tr' = update_lengths tr) /\
  (Z.of_nat (length codes) mod batch_size <> 0 ->
   exists ev c,
     bracelet_length bracelet_fc objective_function density batch_size tr n
     = Ok (tr ++ ev ++ [EvUpdate n {| upd_name := obj_name objective_function;
                                      upd_code := Some c;
                                      upd_score := Fin (obj_call objective_function c);
                                      upd_weight := int_mul n density |}]) /\
     Forall (scoring_event n) ev /\
     concat (rev (scored_batches ev)) = codes /\
     first_max (obj_call objective_function) (scored_codes ev) (Some c) /\
     c ∈ codes /\
     (forall c', c' ∈ codes -> obj_call objective_function c' <= obj_call objective_function c)).
Proof.
  intros Hbs codes. split; intros Hmod.
  - pose proof (bracelet_length_pass bracelet_fc objective_function density batch_size tr n)
      as (ev & Hev & Hres).
    destruct (bracelet_exact_multiple_raises bracelet_fc objective_function density
                batch_size tr n Hbs Hmod) as [tr' Hraise].
    rewrite Hraise in Hres. eexists. split; [exact Hraise |].
    rewrite Hres, update_lengths_app, (update_lengths_scoring n ev Hev), app_nil_r.
    reflexivity.
  - unfold bracelet_length. fold codes.
    destruct (batch_size =? 0) eqn:E; [apply Z.eqb_eq in E; lia |].
    pose proof (Z.div_mod (Z.of_nat (length codes)) batch_size ltac:(lia)) as Hdiv.
    pose proof (Z.mod_pos_bound (Z.of_nat (length codes)) batch_size Hbs) as Hbound.
    assert (Hq : 0 <= Z.of_nat (length codes) / batch_size) by (apply Z.div_pos; lia).
    set (q := Z.to_nat (Z.of_nat (length codes) / batch_size)).
    replace (Z.to_nat (Z.of_nat (length codes) / batch_size + 1)) with (S q)
      by (unfold q; lia).
    set (st0 := {| br_codes := codes; br_code_best := None;
                   br_score_best := NegInf; br_trace := tr |}).
    destruct (bracelet_passes_complete objective_function n batch_size
                (Z.to_nat (Z.of_nat (length codes) mod batch_size)) Hbs ltac:(lia) q st0)
      as (st' & Hrun & Hleft).
    { simpl. unfold q. nia. }
    pose proof (for_range_invariant
                  (bracelet_loop_inv objective_function n codes tr)
                  (bracelet_body objective_function n batch_size)
                  (bracelet_body_keeps_inv objective_function n batch_size codes tr)
                  (S q) st0 (bracelet_loop_inv_init objective_function n codes tr)) as Hinv.
    rewrite Hrun in Hinv |- *. simpl in Hinv.
    destruct Hinv as (ev & Htr & Hev & Hcodes & Hmax & Hscore).
    rewrite Hleft in Hcodes. simpl in Hcodes.
    assert (Hmem : forall c', c' ∈ codes <-> c' ∈ scored_codes ev).
    { intros c'. rewrite <- Hcodes, scored_codes_batches. apply elem_of_concat_rev. }
    destruct (br_code_best st') as [c |] eqn:Hbest.
    + exists ev, c. rewrite Htr, Hscore, <- app_assoc. simpl.
      split; [reflexivity |]. split; [exact Hev |]. split; [exact Hcodes |].
      split; [exact Hmax |]. split.
      * apply Hmem. destruct Hmax as (before & after & -> & _).
        apply elem_of_app. right. left.
      * intros c' Hc'. apply (first_max_is_max _ _ _ Hmax), Hmem, Hc'.
    + exfalso. simpl in Hmax.
      assert (Hnil : codes = []).
      { destruct codes as [| c0 cs]; [reflexivity |].
        assert (Hc0 : c0 ∈ scored_codes ev) by (apply Hmem; left).
        rewrite Hmax in Hc0. apply elem_of_nil in Hc0. destruct Hc0. }
      rewrite Hnil in Hmod. simpl in Hmod. rewrite Z.mod_0_l in Hmod by lia. congruence.
Qed.

Lemma bracelet_length_outcome_witness :
  (0 < 2 /\ 0 < 3 /\
   Z.of_nat (length (demo_bracelet_fc 4 2 [Z.of_nat 4 - int_mul 4 (1 # 2); int_mul 4 (1 # 2)]))
     mod 2 = 0 /\
   Z.of_nat (length (demo_bracelet_fc 4 2 [Z.of_nat 4 - int_mul 4 (1 # 2); int_mul 4 (1 # 2)]))
     mod 3 <> 0) /\
  (exists tr', bracelet_length demo_bracelet_fc demo_objective (1 # 2) 2 [] 4
               = Raise ValueError tr' /\ update_lengths tr' = update_lengths []) /\
  (exists ev c,
      bracelet_length demo_bracelet_fc demo_objective (1 # 2) 3 [] 4
      = Ok ([] ++ ev ++ [EvUpdate 4 {| upd_name := obj_name demo_objective;
                                       upd_code := Some c;
                                       upd_score := Fin (obj_call demo_objective c);
                                       upd_weight := int_mul 4 (1 # 2) |}]) /\
      Forall (scoring_event 4) ev /\
      concat (rev (scored_batches ev))
      = demo_bracelet_fc 4 2 [Z.of_nat 4 - int_mul 4 (1 # 2); int_mul 4 (1 # 2)] /\
      first_max (obj_call demo_objective) (scored_codes ev) (Some c) /\
      c ∈ demo_bracelet_fc 4 2 [Z.of_nat 4 - int_mul 4 (1 # 2); int_mul 4 (1 # 2)] /\
      (forall c',
          c' ∈ demo_bracelet_fc 4 2 [Z.of_nat 4 - int_mul 4 (1 # 2); int_mul 4 (1 # 2)] ->
          obj_call demo_objective c' <= obj_call demo_objective c)).
Proof.
  split; [repeat split; try lia; vm_compute; congruence |].
  split.
  - destruct (bracelet_length_outcome demo_bracelet_fc demo_objective (1 # 2) 2 [] 4
                ltac:(lia)) as [H _].
    apply H. reflexivity.
  - destruct (bracelet_length_outcome demo_bracelet_fc demo_objective (1 # 2) 3 [] 4
                ltac:(lia)) as [_ H].
    apply H. vm_compute. congruence.
Defined.

Lemma necklace_passes_complete (objective_function : objective) (n : nat)
      (chunks : list (list code)) :
  Forall (fun batch => batch <> []) chunks ->
  forall st : necklace_state,
    pending (nk_chunks st) = chunks ->
    exists st',
      for_range (length chunks) (necklace_body objective_function n) st = Ok st' /\
      pending (nk_chunks st') = [].
Proof.
  induction 1 as [| batch chunks Hne _ IH]; intros st Hp.
  - exists st. split; [reflexivity | exact Hp].
  - destruct (necklace_body_cases objective_function n st)
      as [[Hnil _] | [(rest & Hb & _) | (batch' & rest & c & Hb & _ & _ & Hbody)]].
    + rewrite Hp in Hnil. discriminate.
    + rewrite Hp in Hb. injection Hb as -> _. congruence.
    + rewrite Hp in Hb. injection Hb as <- <-.
      simpl for_range. rewrite Hbody. apply IH. destruct (score_gt _ _); reflexivity.
Qed.

Lemma necklace_body_keeps_inv (objective_function : objective) (n : nat)
      (chunks : list (list code)) (tr0 : list event) (st : necklace_state) :
  necklace_loop_inv objective_function n chunks tr0 st ->
  necklace_loop_inv objective_function n chunks tr0
                    (final_state (necklace_body objective_function n st)).
Proof.
  intros (ev & Htr & Hev & Hchunks & Htrack). unfold necklace_body.
  destruct (pending (nk_chunks st)) as [| batch rest] eqn:Hp.
  { simpl. exists ev. split; [exact Htr |]. split; [exact Hev |].
    split; [rewrite Hp; exact Hchunks | exact Htrack]. }
  pose proof (tracks_first_max_pass objective_function (scored_codes ev) batch
                _ _ Htrack) as Hpass.
  assert (Hsplit : forall more, scored_batches more = [] ->
             scored_batches ((ev ++ [EvScore n batch]) ++ more) ++ rest = chunks).
  { intros more Hmore. rewrite !scored_batches_app, Hmore, app_nil_r. simpl.
    rewrite <- app_assoc. exact Hchunks. }
  assert (Hscored : forall more, scored_batches more = [] ->
             scored_codes ((ev ++ [EvScore n batch]) ++ more) = scored_codes ev ++ batch).
  { intros more Hmore. rewrite !scored_codes_batches, !scored_batches_app, Hmore.
    simpl. rewrite !concat_app. simpl. rewrite !app_nil_r. reflexivity. }
  destruct (argmax _) as [i |].
  - destruct Hpass as (c & Hs & Hc & Hnew). rewrite Hs, Hc.
    destruct (score_gt _ _); simpl.
    + exists ((ev ++ [EvScore n batch]) ++ [EvBest n c (obj_call objective_function c)]).
      split; [rewrite Htr, <- !app_assoc; reflexivity |].
      split; [repeat (apply Forall_app; split); try exact Hev; repeat constructor |].
      split; [apply Hsplit; reflexivity |].
      rewrite Hscored by reflexivity. exact Hnew.
    + exists ((ev ++ [EvScore n batch]) ++ []).
      split; [rewrite Htr, <- !app_assoc; reflexivity |].
      split; [repeat (apply Forall_app; split); try exact Hev; repeat constructor |].
      split; [apply Hsplit; reflexivity |].
      rewrite Hscored by reflexivity. exact Hnew.
  - simpl. exists ((ev ++ [EvScore n batch]) ++ []).
    split; [rewrite Htr, <- !app_assoc; reflexivity |].
    split; [repeat (apply Forall_app; split); try exact Hev; repeat constructor |].
    split; [apply Hsplit; reflexivity |].
    rewrite Hscored by reflexivity. rewrite Hpass, app_nil_r. exact Htrack.
Qed.

(** X3. For a positive batch size and a non-empty enumeration of necklaces of
    the length under search, one length of [necklace] ends in one of two
    ways.  If the batch size divides the number of necklaces, the pass raises
    on the generator's empty last chunk, and no update is made.  Otherwise it
    completes and never runs the generator dry: the codes scored are the
    necklaces in enumeration order, letters lowered by one, each exactly
    once, and the one update carries the first of them that attains the
    maximal score, with that score. *)
Theorem necklace_length_outcome
        (Necklaces : list Z -> list code)
        (objective_function : objective) (density : Q) (batch_size : Z)
        (tr : list event) (n : nat) (first : code) (others : list code) :
  0 < batch_size ->
  Necklaces [Z.of_nat n - int_mul n density; int_mul n density] = first :: others ->
  length first = n ->
  (Z.of_nat (length (first :: others)) mod batch_size = 0 ->
   exists tr', necklace_length Necklaces objective_function density batch_size tr n
               = Raise ValueError tr' /\ update_lengths tr' = update_lengths tr) /\
  (Z.of_nat (length (first :: others)) mod batch_size <> 0 ->
   exists ev c,
     necklace_length Necklaces objective_function density batch_size tr n
     = Ok (tr ++ ev ++ [EvUpdate n {| upd_name := obj_name objective_function;
                                      upd_code := Some c;
                                      upd_score := Fin (obj_call objective_function c);
                                      upd_weight := int_mul n density |}]) /\
     Forall (scoring_event n) ev /\
     scored_codes ev = minus_one (first :: others) /\
     first_max (obj_call objective_function) (minus_one (first :: others)) (Some c)).
Proof.
  intros Hbs Hcodes Hfirst. split; intros Hmod.
  - pose proof (necklace_length_pass Necklaces objective_function density batch_size tr n)
      as (ev & Hev & Hres).
    destruct (necklace_exact_multiple_raises Necklaces objective_function density
                batch_size tr n first others Hbs Hcodes Hfirst Hmod) as [tr' Hraise].
    rewrite Hraise in Hres. eexists. split; [exact Hraise |].
    rewrite Hres, update_lengths_app, (update_lengths_scoring n ev Hev), app_nil_r.
    reflexivity.
  - destruct (necklace_chunk_partitions first others batch_size n Hbs Hfirst)
      as (chunks & last & Hgen & Hcount & Hfull & Hlast & Hcat).
    unfold necklace_length. rewrite Hcodes.
    destruct (batch_size =? 0) eqn:E; [apply Z.eqb_eq in E; lia |].
    replace (Z.to_nat (Z.of_nat (length (first :: others)) / batch_size + 1))
      with (length (chunks ++ [last]))
      by (rewrite length_app, <- Hcount; change (length [last]) with 1%nat; lia).
    set (st0 := {| nk_chunks := _necklace_chunk (first :: others) (batch_size, n);
                   nk_code_best := None; nk_score_best := NegInf; nk_trace := tr |}).
    assert (Hne : Forall (fun batch : list code => batch <> []) (chunks ++ [last])).
    { apply Forall_app. split.
      - eapply Forall_impl; [exact Hfull |]. simpl. intros chunk Hc ->. simpl in Hc. lia.
      - constructor; [| constructor]. intros ->. apply Hmod. rewrite <- Hlast.
        reflexivity. }
    destruct (necklace_passes_complete objective_function n (chunks ++ [last]) Hne st0)
      as (st' & Hrun & Hleft).
    { unfold st0. cbn [nk_chunks]. rewrite Hgen. reflexivity. }
    pose proof (for_range_invariant
                  (necklace_loop_inv objective_function n (chunks ++ [last]) tr)
                  (necklace_body objective_function n)
                  (necklace_body_keeps_inv objective_function n (chunks ++ [last]) tr)
                  (length (chunks ++ [last])) st0) as Hinv.
    rewrite Hrun in Hinv |- *. simpl in Hinv.
    destruct Hinv as (ev & Htr & Hev & Hchunks & Hmax & Hscore).
    { exists []. unfold st0. cbn [nk_chunks nk_trace nk_code_best nk_score_best].
      rewrite app_nil_r, Hgen. split; [reflexivity |]. split; [constructor |].
      split; [reflexivity |]. split; reflexivity. }
    rewrite Hleft, app_nil_r in Hchunks.
    assert (Hall : scored_codes ev = minus_one (first :: others)).
    { rewrite scored_codes_batches, Hchunks. exact Hcat. }
    rewrite Hall in Hmax.
    destruct (nk_code_best st') as [c |] eqn:Hbest.
    + exists ev, c. rewrite Htr, Hscore, <- app_assoc. simpl.
      split; [reflexivity |]. split; [exact Hev |]. split; [exact Hall | exact Hmax].
    + simpl in Hmax. discriminate.
Qed.

Lemma necklace_length_outcome_witness :
  (0 < 2 /\ 0 < 3 /\
   demo_Necklaces [Z.of_nat 6 - int_mul 6 (1 # 2); int_mul 6 (1 # 2)]
   = [1; 1; 1; 2; 2; 2] :: [[1; 1; 2; 1; 2; 2]; [1; 1; 2; 2; 1; 2]; [1; 2; 1; 2; 1; 2]] /\
   length [1; 1; 1; 2; 2; 2] = 6%nat) /\
  (exists tr', necklace_length demo_Necklaces demo_objective (1 # 2) 2 [] 6
               = Raise ValueError tr' /\ update_lengths tr' = update_lengths []) /\
  (exists ev c,
      necklace_length demo_Necklaces demo_objective (1 # 2) 3 [] 6
      = Ok ([] ++ ev ++ [EvUpdate 6 {| upd_name := obj_name demo_objective;
                                       upd_code := Some c;
                                       upd_score := Fin (obj_call demo_objective c);
                                       upd_weight := int_mul 6 (1 # 2) |}]) /\
      Forall (scoring_event 6) ev /\
      scored_codes ev
      = minus_one ([1; 1; 1; 2; 2; 2] :: [[1; 1; 2; 1; 2; 2]; [1; 1; 2; 2; 1; 2];
                                          [1; 2; 1; 2; 1; 2]]) /\
      first_max (obj_call demo_objective)
                (minus_one ([1; 1; 1; 2; 2; 2] :: [[1; 1; 2; 1; 2; 2]; [1; 1; 2; 2; 1; 2];
                                                   [1; 2; 1; 2; 1; 2]])) (Some c)).
Proof.
  split; [repeat split; lia |].
  split.
  - destruct (necklace_length_outcome demo_Necklaces demo_objective (1 # 2) 2 [] 6
                [1; 1; 1; 2; 2; 2]
                [[1; 1; 2; 1; 2; 2]; [1; 1; 2; 2; 1; 2]; [1; 2; 1; 2; 1; 2]]
                ltac:(lia) eq_refl eq_refl) as [H _].
    apply H. reflexivity.
  - destruct (necklace_length_outcome demo_Necklaces demo_objective (1 # 2) 3 [] 6
                [1; 1; 1; 2; 2; 2]
                [[1; 1; 2; 1; 2; 2]; [1; 1; 2; 2; 1; 2]; [1; 2; 1; 2; 1; 2]]
                ltac:(lia) eq_refl eq_refl) as [_ H].
    apply H. vm_compute. congruence.
Defined.

(** ** A negative batch size *)

Lemma negative_batch_no_pass (len : nat) (batch_size : Z) :
  batch_size < 0 -> (0 < len)%nat -> Z.to_nat (Z.of_nat len / batch_size + 1) = 0%nat.
Proof.
  intros Hbs Hlen.
  pose proof (Z.div_mod (Z.of_nat len) batch_size ltac:(lia)) as Hdiv.
  pose proof (Z.mod_neg_bound (Z.of_nat len) batch_size Hbs) as Hbound.
  assert (Z.of_nat len / batch_size < 0); [nia | lia].
Qed.

(** X4. A negative batch size is not rejected either.  For a length that has
    at least one bracelet (necklace), the batch loop makes no pass at all:
    nothing is scored, and the archiver is updated with an empty record, no
    code and a score of minus infinity. *)
Theorem negative_batch_size_writes_empty_record
        (bracelet_fc : nat -> Z -> list Z -> list code)
        (Necklaces : list Z -> list code)
        (objective_function : objective) (density : Q) (batch_size : Z)
        (tr : list event) (n : nat) :
  batch_size < 0 ->
  (bracelet_fc n 2 [Z.of_nat n - int_mul n density; int_mul n density] <> [] ->
   bracelet_length bracelet_fc objective_function density batch_size tr n
   = Ok (tr ++ [EvUpdate n {| upd_name := obj_name objective_function;
                              upd_code := None;
                              upd_score := NegInf;
                              upd_weight := int_mul n density |}])) /\
  (Necklaces [Z.of_nat n - int_mul n density; int_mul n density] <> [] ->
   necklace_length Necklaces objective_function density batch_size tr n
   = Ok (tr ++ [EvUpdate n {| upd_name := obj_name objective_function;
                              upd_code := None;
                              upd_score := NegInf;
                              upd_weight := int_mul n density |}])).
Proof.
  intros Hbs. split; intros Hne.
  - unfold bracelet_length.
    destruct (batch_size =? 0) eqn:E; [apply Z.eqb_eq in E; lia |].
    rewrite negative_batch_no_pass; [reflexivity | exact Hbs |].
    destruct (bracelet_fc _ _ _); [congruence | simpl; lia].
  - unfold necklace_length.
    destruct (batch_size =? 0) eqn:E; [apply Z.eqb_eq in E; lia |].
    rewrite negative_batch_no_pass; [reflexivity | exact Hbs |].
    destruct (Necklaces _); [congruence | simpl; lia].
Qed.

Lemma negative_batch_size_writes_empty_record_witness :
  (-2 < 0 /\
   demo_bracelet_fc 4 2 [Z.of_nat 4 - int_mul 4 (1 # 2); int_mul 4 (1 # 2)] <> [] /\
   demo_Necklaces [Z.of_nat 4 - int_mul 4 (1 # 2); int_mul 4 (1 # 2)] <> []) /\
  bracelet_length demo_bracelet_fc demo_objective (1 # 2) (-2) [] 4
  = Ok ([] ++ [EvUpdate 4 {| upd_name := obj_name demo_objective;
                             upd_code := None;
                             upd_score := NegInf;
                             upd_weight := int_mul 4 (1 # 2) |}]) /\
  necklace_length demo_Necklaces demo_objective (1 # 2) (-2) [] 4
  = Ok ([] ++ [EvUpdate 4 {| upd_name := obj_name demo_objective;
                             upd_code := None;
                             upd_score := NegInf;
                             upd_weight := int_mul 4 (1 # 2) |}]).
Proof.
  split; [repeat split; try lia; vm_compute; congruence |].
  destruct (negative_batch_size_writes_empty_record demo_bracelet_fc demo_Necklaces
              demo_objective (1 # 2) (-2) [] 4 ltac:(lia)) as [Hb Hn].
  split; [apply Hb | apply Hn]; vm_compute; congruence.
Defined.

(** ** [lyndon]: the arrays at the end of the scan *)

Lemma score_max_assoc (a b c : score) :
  score_max (score_max a b) c = score_max a (score_max b c).
Proof. destruct a, b, c; simpl; try reflexivity. f_equal. lia. Qed.

Lemma score_max_NegInf_r (a : score) : score_max a NegInf = a.
Proof. destruct a; reflexivity. Qed.

Lemma best_rounded_app (f32 : Z -> Z) (f : code -> Z) (a b : list code) :
  best_rounded f32 f (a ++ b) = score_max (best_rounded f32 f a) (best_rounded f32 f b).
Proof.
  induction a as [| w a IH]; [reflexivity |].
  change (best_rounded f32 f ((w :: a) ++ b))
    with (score_max (Fin (f32 (f w))) (best_rounded f32 f (a ++ b))).
  change (best_rounded f32 f (w :: a))
    with (score_max (Fin (f32 (f w))) (best_rounded f32 f a)).
  rewrite IH. symmetry. apply score_max_assoc.
Qed.

(** What the strict comparison and the rounded store amount to. *)
Lemma rounded_store_is_max (f32 : Z -> Z) (s : Z) (best : score) :
  (forall a b, a <= b -> f32 a <= f32 b) ->
  match best with NegInf => True | Fin z => f32 z = z end ->
  (if score_gt s best then Fin (f32 s) else best) = score_max best (Fin (f32 s)).
Proof.
  intros Hmono Hval. destruct best as [| b]; simpl; [reflexivity |].
  destruct (b <? s) eqn:E.
  - apply Z.ltb_lt in E. f_equal.
    assert (f32 b <= f32 s) by (apply Hmono; lia). lia.
  - apply Z.ltb_ge in E. f_equal.
    assert (f32 s <= f32 b) by (apply Hmono; lia). lia.
Qed.

Lemma candidates_app (K : nat) (density : Q) (n : nat) (a b : list code) :
  candidates K density n (a ++ b) = candidates K density n a ++ candidates K density n b.
Proof. unfold candidates. apply filter_app. Qed.

Lemma lyndon_body_result (f32 : Z -> Z) (objective_function : objective) (K L : nat)
      (density : Q) (st : lyndon_state) (w : code) :
  (forall a b, a <= b -> f32 a <= f32 b) ->
  lyndon_wf L st -> float32_valued f32 st -> (length w <= L)%nat ->
  exists st1,
    lyndon_body f32 objective_function K (num_allowed_ones_of L density) st w = Ok st1 /\
    forall n, (n <= L)%nat ->
      exists count best,
        num_searched_codes st !! n = Some count /\
        score_best st !! n = Some best /\
        num_searched_codes st1 !! n
        = Some (count + Z.of_nat (length (candidates K density n [w]))) /\
        score_best st1 !! n
        = Some (score_max best
                  (best_rounded f32 (obj_call objective_function)
                                (candidates K density n [w]))).
Proof.
  intros Hmono Hwf Hval Hlen. pose proof Hwf as [Hsb Hns].
  assert (Hlook : forall n, (n <= L)%nat ->
             exists count best,
               num_searched_codes st !! n = Some count /\ score_best st !! n = Some best).
  { intros n Hn.
    destruct (lookup_lt_is_Some_2 (num_searched_codes st) n) as [count Hc]; [lia |].
    destruct (lookup_lt_is_Some_2 (score_best st) n) as [best Hb]; [lia |].
    eauto. }
  destruct (lyndon_body_cases f32 objective_function K L density st w Hwf Hlen)
    as [(HK & Hw & count & best & Hc & Hb & Hbody) | [Hno Hbody]].
  - eexists. split; [exact Hbody |]. intros n Hn.
    destruct (Hlook n Hn) as (count' & best' & Hc' & Hb').
    exists count', best'. split; [exact Hc' |]. split; [exact Hb' |].
    assert (Hbest : match best with NegInf => True | Fin z => f32 z = z end).
    { unfold float32_valued in Hval. rewrite Forall_forall in Hval.
      eapply Hval, list_elem_of_lookup_2, Hb. }
    pose proof (rounded_store_is_max f32 (obj_call objective_function w) best Hmono Hbest)
      as Hstore.
    unfold candidates. destruct (decide (n = length w)) as [-> | Hne].
    + rewrite filter_cons_True by tauto. rewrite filter_nil.
      change (best_rounded f32 (obj_call objective_function) [w])
        with (score_max (Fin (f32 (obj_call objective_function w))) NegInf).
      rewrite score_max_NegInf_r. simpl length.
      assert (count' = count) by congruence. assert (best' = best) by congruence. subst.
      destruct (score_gt _ best); simpl.
      * rewrite !list_lookup_insert_eq by lia. rewrite <- Hstore. split; reflexivity.
      * rewrite list_lookup_insert_eq by lia. rewrite Hb', <- Hstore. split; reflexivity.
    + rewrite filter_cons_False by (intros [? _]; congruence). rewrite filter_nil. simpl.
      rewrite score_max_NegInf_r, Z.add_0_r.
      destruct (score_gt _ best); simpl;
        rewrite ?list_lookup_insert_ne by congruence; split; assumption.
  - exists st. split; [exact Hbody |]. intros n Hn.
    destruct (Hlook n Hn) as (count' & best' & Hc' & Hb').
    exists count', best'. split; [exact Hc' |]. split; [exact Hb' |].
    unfold candidates. rewrite filter_cons_False by tauto. rewrite filter_nil. simpl.
    rewrite score_max_NegInf_r, Z.add_0_r. split; assumption.
Qed.

Lemma lyndon_loop_result (f32 : Z -> Z) (objective_function : objective) (K L : nat)
      (density : Q) :
  (forall a b, a <= b -> f32 a <= f32 b) ->
  (forall a, f32 (f32 a) = f32 a) ->
  forall (words : list code) (st : lyndon_state),
    lyndon_wf L st -> float32_valued f32 st ->
    Forall (fun w => (length w <= L)%nat) words ->
    exists st',
      for_each (lyndon_body f32 objective_function K (num_allowed_ones_of L density))
               st words = Ok st' /\
      forall n, (n <= L)%nat ->
        exists count best,
          num_searched_codes st !! n = Some count /\
          score_best st !! n = Some best /\
          num_searched_codes st' !! n
          = Some (count + Z.of_nat (length (candidates K density n words))) /\
          score_best st' !! n
          = Some (score_max best
                    (best_rounded f32 (obj_call objective_function)
                                  (candidates K density n words))).
Proof.
  intros Hmono Hidem. induction words as [| w words IH]; intros st Hwf Hval Hwords.
  - exists st. split; [reflexivity |]. intros n Hn. destruct Hwf as [Hsb Hns].
    destruct (lookup_lt_is_Some_2 (num_searched_codes st) n) as [count Hc]; [lia |].
    destruct (lookup_lt_is_Some_2 (score_best st) n) as [best Hb]; [lia |].
    exists count, best. simpl. rewrite Z.add_0_r, score_max_NegInf_r. auto.
  - apply Forall_cons in Hwords as [Hw Hwords].
    destruct (lyndon_body_result f32 objective_function K L density st w Hmono Hwf Hval Hw)
      as (st1 & Hbody & Hstep).
    pose proof (lyndon_body_wf f32 objective_function K L
                  (num_allowed_ones_of L density) st w Hwf) as Hwf1.
    pose proof (lyndon_body_float32 f32 objective_function K
                  (num_allowed_ones_of L density) st w Hidem Hval) as Hval1.
    rewrite Hbody in Hwf1, Hval1. simpl in Hwf1, Hval1.
    destruct (IH st1 Hwf1 Hval1 Hwords) as (st' & Hrun & Hrest).
    exists st'. split; [simpl; rewrite Hbody; exact Hrun |].
    intros n Hn.
    destruct (Hstep n Hn) as (count & best & Hc & Hb & Hc1 & Hb1).
    destruct (Hrest n Hn) as (count1 & best1 & Hc1' & Hb1' & Hc2 & Hb2).
    exists count, best. split; [exact Hc |]. split; [exact Hb |].
    assert (count1 = count + Z.of_nat (length (candidates K density n [w]))) by congruence.
    assert (best1 = score_max best (best_rounded f32 (obj_call objective_function)
                                                 (candidates K density n [w]))) by congruence.
    subst count1 best1.
    change (w :: words) with ([w] ++ words).
    rewrite candidates_app, length_app, best_rounded_app, Hc2, Hb2, score_max_assoc.
    split; [f_equal; lia | reflexivity].
Qed.

(** X5. If the generator keeps to the length limit L and the float32 store
    rounds monotonically and idempotently, [lyndon] returns normally, and for
    every length n up to L the arrays hold, at the end, the number of
    generated words of length n that pass the filter (length at least K,
    weight int(n * density)) and the best of their scores as rounded to
    float32 (minus infinity if there is none). *)
Theorem lyndon_final_counts_and_scores
        (LLW : Z -> nat -> code -> list code) (f32 : Z -> Z)
        (objective_function : objective) (K L : nat) (density : Q) (n : nat) :
  (forall a b, a <= b -> f32 a <= f32 b) ->
  (forall a, f32 (f32 a) = f32 a) ->
  Forall (fun w => (length w <= L)%nat) (LLW 2 L (lyndon_seed L density)) ->
  (n <= L)%nat ->
  exists st,
    lyndon LLW f32 K L objective_function density = Ok st /\
    num_searched_codes st !! n
    = Some (Z.of_nat (length (candidates K density n (LLW 2 L (lyndon_seed L density))))) /\
    score_best st !! n
    = Some (best_rounded f32 (obj_call objective_function)
                         (candidates K density n (LLW 2 L (lyndon_seed L density)))).
Proof.
  intros Hmono Hidem Hwords Hn. unfold lyndon.
  destruct (lyndon_loop_result f32 objective_function K L density Hmono Hidem
              (LLW 2 L (lyndon_seed L density)) (lyndon_init L))
    as (st & Hrun & Hres).
  - apply lyndon_init_wf.
  - unfold float32_valued. simpl. apply Forall_replicate. exact I.
  - exact Hwords.
  - exists st. split; [exact Hrun |].
    destruct (Hres n Hn) as (count & best & Hc & Hb & Hc' & Hb').
    simpl in Hc, Hb. rewrite lookup_replicate_2 in Hc by lia.
    rewrite lookup_replicate_2 in Hb by lia.
    injection Hc as <-. injection Hb as <-. simpl in Hb'. rewrite Hc', Hb'.
    split; [f_equal; lia | reflexivity].
Qed.

Lemma lyndon_final_counts_and_scores_witness :
  ((forall a b, a <= b -> (fun z : Z => z) a <= (fun z : Z => z) b) /\
   (forall a, (fun z : Z => z) ((fun z : Z => z) a) = (fun z : Z => z) a) /\
   Forall (fun w : code => (length w <= 4)%nat) (demo_words 2 4%nat (lyndon_seed 4 (1 # 2))) /\
   (4 <= 4)%nat) /\
  exists st,
    lyndon demo_words (fun z => z) 2 4 demo_objective (1 # 2) = Ok st /\
    num_searched_codes st !! 4%nat
    = Some (Z.of_nat (length (candidates 2 (1 # 2) 4
                                         (demo_words 2 4%nat (lyndon_seed 4 (1 # 2)))))) /\
    score_best st !! 4%nat
    = Some (best_rounded (fun z => z) (obj_call demo_objective)
                         (candidates 2 (1 # 2) 4
                                     (demo_words 2 4%nat (lyndon_seed 4 (1 # 2))))).
Proof.
  assert (Hwords : Forall (fun w : code => (length w <= 4)%nat)
                          (demo_words 2 4%nat (lyndon_seed 4 (1 # 2))))
    by (unfold demo_words; repeat constructor).
  split; [split; [intros a b H; exact H | split; [reflexivity | split; [exact Hwords | lia]]] |].
  apply (lyndon_final_counts_and_scores demo_words (fun z => z) demo_objective 2 4 (1 # 2) 4);
    [intros a b H; exact H | reflexivity | exact Hwords | lia].
Defined.

Lemma for_each_app {S A} (body : S -> A -> result S) (st : S) (xs ys : list A) :
  for_each body st (xs ++ ys) =
  match for_each body st xs with
  | Ok st' => for_each body st' ys
  | Raise e st' => Raise e st'
  end.
Proof.
  revert st. induction xs as [| x xs IH]; intros st; simpl; [reflexivity |].
  destruct (body st x); [apply IH | reflexivity].
Qed.

Lemma lyndon_prefix_ok (f32 : Z -> Z) (objective_function : objective) (K L : nat)
      (density : Q) (words : list code) :
  Forall (fun w => (length w <= L)%nat) words ->
  forall st : lyndon_state,
    lyndon_wf L st ->
    exists st',
      for_each (lyndon_body f32 objective_function K (num_allowed_ones_of L density))
               st words = Ok st' /\
      lyndon_wf L st'.
Proof.
  induction 1 as [| w words Hw _ IH]; intros st Hwf; simpl.
  - exists st. split; [reflexivity | exact Hwf].
  - pose proof (lyndon_body_wf f32 objective_function K L
                  (num_allowed_ones_of L density) st w Hwf) as Hwf1.
    destruct (lyndon_body_cases f32 objective_function K L density st w Hwf Hw)
      as [(_ & _ & count & best & _ & _ & Hbody) | [_ Hbody]];
      rewrite Hbody in Hwf1 |- *; apply IH, Hwf1.
Qed.

(** X6. [lyndon] relies on the generator for the length limit.  A generated
    word longer than L whose length is at least K indexes past the end of
    [num_allowed_ones]: the scan stops there with an IndexError, in the state
    the words before it produced; the words after it are never examined. *)
Theorem lyndon_overlong_word_raises
        (LLW : Z -> nat -> code -> list code) (f32 : Z -> Z)
        (objective_function : objective) (K L : nat) (density : Q)
        (before : list code) (w : code) (after : list code) :
  LLW 2 L (lyndon_seed L density) = before ++ w :: after ->
  Forall (fun v => (length v <= L)%nat) before ->
  (L < length w)%nat -> (K <= length w)%nat ->
  exists st,
    for_each (lyndon_body f32 objective_function K (num_allowed_ones_of L density))
             (lyndon_init L) before = Ok st /\
    lyndon LLW f32 K L objective_function density = Raise IndexError st.
Proof.
  intros Hwords Hbefore Hlong HK. unfold lyndon. rewrite Hwords.
  destruct (lyndon_prefix_ok f32 objective_function K L density before Hbefore
              (lyndon_init L) (lyndon_init_wf L)) as (st & Hrun & _).
  exists st. split; [exact Hrun |].
  rewrite for_each_app, Hrun. simpl. unfold lyndon_body at 1.
  destruct (decide (K <= length w)%nat); [| lia].
  unfold num_allowed_ones_of. rewrite list_lookup_fmap, lookup_seq_ge by lia.
  reflexivity.
Qed.

Lemma lyndon_overlong_word_raises_witness :
  (demo_words_overlong 2 4%nat (lyndon_seed 4 (1 # 2))
   = [[0; 1]] ++ [0; 0; 1; 1; 1] :: [[0; 0; 1; 1]] /\
   Forall (fun v : code => (length v <= 4)%nat) [[0; 1]] /\
   (4 < length [0; 0; 1; 1; 1])%nat /\ (2 <= length [0; 0; 1; 1; 1])%nat) /\
  exists st,
    for_each (lyndon_body (fun z => z) demo_objective 2 (num_allowed_ones_of 4 (1 # 2)))
             (lyndon_init 4) [[0; 1]] = Ok st /\
    lyndon demo_words_overlong (fun z => z) 2 4 demo_objective (1 # 2) = Raise IndexError st.
Proof.
  split; [split; [reflexivity | split; [repeat constructor | simpl; lia]] |].
  apply (lyndon_overlong_word_raises demo_words_overlong (fun z => z) demo_objective
           2 4 (1 # 2) [[0; 1]] [0; 0; 1; 1; 1] [[0; 0; 1; 1]]);
    [reflexivity | repeat constructor | simpl; lia | simpl; lia].
Defined.

(** ** [bfs]: what the batch size and the file name do not change *)

Lemma first_max_unique {A} (f : A -> Z) (seen : list A) (best best' : option A) :
  first_max f seen best -> first_max f seen best' -> best = best'.
Proof.
  destruct best as [x |], best' as [y |]; simpl.
  - intros (b1 & a1 & H1 & Hb1 & Ha1) (b2 & a2 & H2 & Hb2 & Ha2).
    assert (Hx : seen !! length b1 = Some x).
    { rewrite H1, lookup_app_r by lia. rewrite Nat.sub_diag. reflexivity. }
    assert (Hy : seen !! length b2 = Some y).
    { rewrite H2, lookup_app_r by lia. rewrite Nat.sub_diag. reflexivity. }
    destruct (Nat.lt_total (length b1) (length b2)) as [Hlt | [Heq | Hgt]].
    + exfalso. rewrite H2, lookup_app_l in Hx by lia.
      apply list_elem_of_lookup_2, Hb2 in Hx.
      rewrite H1, lookup_app_r in Hy by lia.
      destruct (length b2 - length b1)%nat as [| k] eqn:Hk; [lia |].
      simpl in Hy. apply list_elem_of_lookup_2, Ha1 in Hy. lia.
    + rewrite Heq in Hx. congruence.
    + exfalso. rewrite H1, lookup_app_l in Hy by lia.
      apply list_elem_of_lookup_2, Hb1 in Hy.
      rewrite H2, lookup_app_r in Hx by lia.
      destruct (length b1 - length b2)%nat as [| k] eqn:Hk; [lia |].
      simpl in Hx. apply list_elem_of_lookup_2, Ha2 in Hx. lia.
  - intros (b1 & a1 & H1 & _) ->. destruct b1; discriminate.
  - intros -> (b2 & a2 & H2 & _). destruct b2; discriminate.
  - reflexivity.
Qed.



Lemma bfs_loop_invariant (P : bfs_state -> Prop) (rate : code -> Z) (L : nat)
      (filename : option string) (b : nat) :
  (forall st indices, P st -> P (final_state (bfs_body rate L filename indices st))) ->
  forall n st, P st -> P (final_state (bfs_loop rate L filename b n st)).
Proof.
  intros Hbody. induction n as [| n IH]; intros st Hst; simpl; [exact Hst |].
  destruct (decide _); [exact Hst |].
  specialize (Hbody st (take b (code_generator st)) Hst).
  destruct (bfs_body _ _ _ _ _); simpl in *; auto.
Qed.

Lemma bfs_body_file_inv (rate : code -> Z) (L : nat) (filename : option string)
      (indices : list (list nat)) (st : bfs_state) :
  bfs_file_inv filename st ->
  bfs_file_inv filename (final_state (bfs_body rate L filename indices st)).
Proof.
  intros Hinv. unfold bfs_body.
  assert (Hkeep : bfs_file_inv filename
            {| code_generator := drop (length indices) (code_generator st);
               bfs_code_best := bfs_code_best st;
               bfs_score_best := bfs_score_best st;
               bfs_num_searched_codes := (bfs_num_searched_codes st + length indices)%nat;
               bfs_writes := bfs_writes st |}).
  { unfold bfs_file_inv in *. destruct filename as [fn |]; simpl; [| exact Hinv].
    destruct Hinv as [Hall Hlast]. split; [exact Hall |].
    destruct (bfs_code_best st); [| exact Hlast].
    destruct Hlast as (count & Hl & Hc). exists count. split; [exact Hl | lia]. }
  destruct (argmax _) as [best |] eqn:Harg; [| exact Hkeep].
  assert (Hpos : (0 < length indices)%nat).
  { destruct indices; [discriminate | simpl; lia]. }
  destruct (_ !! best) as [s |]; [| exact Hkeep].
  destruct (_ !! best) as [c |]; [| exact Hkeep].
  destruct (score_gt s (bfs_score_best st)); [| exact Hkeep].
  unfold bfs_file_inv in *. destruct filename as [fn |]; simpl; [| exact Hinv].
  destruct Hinv as [Hall _]. split.
  - apply Forall_app. split; [exact Hall | repeat constructor].
  - eexists. split; [apply last_snoc | lia].
Qed.

(** X8. Without a file name [bfs] writes nothing.  With one, every write
    goes to that file, and whenever [bfs] stops, normally or not, the file
    holds exactly the code it returns, under the number of codes that had
    been searched when that code was found, which is at least one and at
    most the final count; if no code was chosen the file was never written. *)
Theorem bfs_file_holds_returned_code
        (rate : code -> Z) (L : nat) (density : Q) (batch_size : Z)
        (filename : option string) :
  let st := final_state (bfs_run rate L density batch_size filename) in
  match filename with
  | None => bfs_writes st = []
  | Some fn =>
      Forall (fun w => w.1 = fn) (bfs_writes st) /\
      match bfs_code_best st with
      | None => bfs_writes st = []
      | Some c =>
          exists count,
            last (bfs_writes st) = Some (fn, (count, c)) /\
            (1 <= count <= bfs_num_searched_codes st)%nat
      end
  end.
Proof.
  intros st. change (bfs_file_inv filename st). subst st.
  assert (Hinit : forall gen, bfs_file_inv filename (bfs_init gen)).
  { intros gen. unfold bfs_file_inv. destruct filename; simpl; auto. }
  unfold bfs_run.
  destruct (_ <? 0); [apply Hinit |].
  destruct (_ <? _); [apply Hinit |].
  destruct (decide _); [apply Hinit |].
  apply bfs_loop_invariant; [| apply Hinit].
  intros st indices. apply bfs_body_file_inv.
Qed.

(** ** The batch size bounds every batch *)

Lemma batches_bounded_snoc_score (batch_size : Z) (tr : list event) (n : nat)
      (batch : list code) :
  batches_bounded batch_size tr -> Z.of_nat (length batch) <= batch_size ->
  batches_bounded batch_size (tr ++ [EvScore n batch]).
Proof.
  intros Htr Hb. unfold batches_bounded. rewrite scored_batches_app.
  apply Forall_app. split; [exact Htr | repeat constructor; exact Hb].
Qed.

Lemma batches_bounded_snoc_other (batch_size : Z) (tr : list event) (e : event) :
  batches_bounded batch_size tr -> persists e = true \/ (exists n c s, e = EvBest n c s) ->
  batches_bounded batch_size (tr ++ [e]).
Proof.
  intros Htr He. unfold batches_bounded. rewrite scored_batches_app.
  apply Forall_app. split; [exact Htr |].
  destruct He as [He | (n & c & s & ->)]; [destruct e; try discriminate |]; constructor.
Qed.

Lemma bracelet_body_bounded (objective_function : objective) (n : nat) (batch_size : Z)
      (st : bracelet_state) :
  0 < batch_size ->
  batches_bounded batch_size (br_trace st) ->
  batches_bounded batch_size
    (br_trace (final_state (bracelet_body objective_function n batch_size st))).
Proof.
  intros Hbs Hst.
  assert (Hlen : Z.of_nat (length (drop (slice_start (length (br_codes st)) batch_size)
                                        (br_codes st))) <= batch_size).
  { rewrite length_drop. unfold slice_start.
    destruct (0 <? batch_size) eqn:E; [| apply Z.ltb_ge in E; lia]. lia. }
  destruct (bracelet_body_cases objective_function n batch_size st)
    as [[_ Hbody] | (_ & c & _ & Hbody)]; rewrite Hbody; simpl.
  - apply batches_bounded_snoc_score; assumption.
  - destruct (score_gt _ _); simpl.
    + apply batches_bounded_snoc_other; [| right; eauto].
      apply batches_bounded_snoc_score; assumption.
    + apply batches_bounded_snoc_score; assumption.
Qed.

Lemma necklace_fill_bounded (height : nat) (xs : list code) :
  (0 < height)%nat ->
  Forall (fun chunk : list code => (length chunk <= height)%nat) (necklace_fill height [] xs).
Proof.
  intros Hh.
  destruct (necklace_fill_partition height Hh (length xs / height) (length xs mod height) xs)
    as (chunks & last & -> & _ & Hfull & Hlast & _).
  - apply Nat.mod_upper_bound. lia.
  - rewrite Nat.mul_comm. apply Nat.div_mod_eq.
  - apply Forall_app. split.
    + eapply Forall_impl; [exact Hfull | simpl; intros; lia].
    + constructor; [| constructor].
      pose proof (Nat.mod_upper_bound (length xs) height ltac:(lia)). lia.
Qed.

Lemma necklace_chunk_bounded (necklaces : list code) (batch_size : Z) (width : nat) :
  0 < batch_size ->
  Forall (fun chunk : list code => Z.of_nat (length chunk) <= batch_size)
         (pending (_necklace_chunk necklaces (batch_size, width))).
Proof.
  intros Hbs. unfold _necklace_chunk. destruct necklaces as [| first others]; [constructor |].
  simpl fst. simpl snd.
  destruct (decide _); [| constructor].
  destruct (batch_size <? 0); [constructor |].
  destruct (batch_size =? 0); [constructor |]. cbn [pending].
  eapply Forall_impl; [apply necklace_fill_bounded; lia |].
  simpl. intros chunk Hc. lia.
Qed.

Lemma necklace_body_bounded (objective_function : objective) (n : nat) (batch_size : Z)
      (st : necklace_state) :
  batches_bounded batch_size (nk_trace st) /\
  Forall (fun chunk : list code => Z.of_nat (length chunk) <= batch_size)
         (pending (nk_chunks st)) ->
  let st' := final_state (necklace_body objective_function n st) in
  batches_bounded batch_size (nk_trace st') /\
  Forall (fun chunk : list code => Z.of_nat (length chunk) <= batch_size)
         (pending (nk_chunks st')).
Proof.
  intros [Htr Hp].
  destruct (necklace_body_cases objective_function n st)
    as [[_ Hbody] | [(rest & Hb & Hbody) | (batch & rest & c & Hb & _ & _ & Hbody)]];
    rewrite Hbody; simpl.
  - split; assumption.
  - rewrite Hb in Hp. apply Forall_cons in Hp as [Hlen Hrest].
    split; [apply batches_bounded_snoc_score; assumption | exact Hrest].
  - rewrite Hb in Hp. apply Forall_cons in Hp as [Hlen Hrest].
    destruct (score_gt _ _); simpl; (split; [| exact Hrest]).
    + apply batches_bounded_snoc_other; [| right; eauto].
      apply batches_bounded_snoc_score; assumption.
    + apply batches_bounded_snoc_score; assumption.
Qed.

(** X9. A positive batch size bounds the work handed to the objective at
    once: in every run of [bracelet] and of [necklace], however it ends, no
    batch the objective was called on has more than [batch_size] codes. *)
Theorem batch_size_bounds_every_batch
        (bracelet_fc : nat -> Z -> list Z -> list code)
        (Necklaces : list Z -> list code)
        (objective_function : objective) (K L : nat) (density : Q) (batch_size : Z) :
  0 < batch_size ->
  batches_bounded batch_size
    (final_state (bracelet bracelet_fc K L objective_function density batch_size)) /\
  batches_bounded batch_size
    (final_state (necklace Necklaces K L objective_function density batch_size)).
Proof.
  intros Hbs. split.
  - unfold bracelet. apply (for_each_invariant (batches_bounded batch_size)); [| constructor].
    intros tr n Htr. unfold bracelet_length.
    destruct (batch_size =? 0); [exact Htr |].
    match goal with
    | |- context [for_range ?p ?body ?st0] =>
        pose proof (for_range_invariant
                      (fun st => batches_bounded batch_size (br_trace st)) body
                      (fun st => bracelet_body_bounded objective_function n batch_size st Hbs)
                      p st0 Htr) as Hinv;
        destruct (for_range p body st0)
    end; simpl in *; [| exact Hinv].
    apply batches_bounded_snoc_other; [exact Hinv | left; reflexivity].
  - unfold necklace. apply (for_each_invariant (batches_bounded batch_size)); [| constructor].
    intros tr n Htr. unfold necklace_length.
    destruct (batch_size =? 0); [exact Htr |].
    match goal with
    | |- context [for_range ?p ?body ?st0] =>
        pose proof (for_range_invariant
                      (fun st => batches_bounded batch_size (nk_trace st) /\
                                 Forall (fun chunk : list code =>
                                           Z.of_nat (length chunk) <= batch_size)
                                        (pending (nk_chunks st)))
                      body
                      (necklace_body_bounded objective_function n batch_size)
                      p st0
                      (conj Htr (necklace_chunk_bounded _ batch_size n Hbs))) as [Hinv _];
        destruct (for_range p body st0)
    end; simpl in *; [| exact Hinv].
    apply batches_bounded_snoc_other; [exact Hinv | left; reflexivity].
Qed.

Lemma batch_size_bounds_every_batch_witness :
  0 < 2 /\
  batches_bounded 2 (final_state (bracelet demo_bracelet_fc 4 6 demo_objective (1 # 2) 2)) /\
  batches_bounded 2 (final_state (necklace demo_Necklaces 4 6 demo_objective (1 # 2) 2)).
Proof.
  split; [lia |].
  apply (batch_size_bounds_every_batch demo_bracelet_fc demo_Necklaces demo_objective
           4 6 (1 # 2) 2). lia.
Defined.

(** ** [bfs]: the codes built from the combinations *)

Lemma filter_members_of_sublist (pool idx : list nat) (P : nat -> Prop)
      `{forall j, Decision (P j)} :
  NoDup pool -> idx `sublist_of` pool ->
  (forall j, j ∈ pool -> P j <-> j ∈ idx) ->
  filter P pool = idx.
Proof.
  intros Hnd Hs. revert Hnd.
  induction Hs as [| x idx pool Hs IH | x idx pool Hs IH]; intros Hnd HP.
  - reflexivity.
  - apply NoDup_cons in Hnd as [Hx Hnd].
    rewrite filter_cons_True by (apply HP; left). f_equal.
    apply IH; [exact Hnd |]. intros j Hj. rewrite (HP j) by (right; exact Hj).
    split; [| intros; right; assumption].
    intros [-> | Hin]%elem_of_cons; [contradiction | exact Hin].
  - apply NoDup_cons in Hnd as [Hx Hnd].
    rewrite filter_cons_False.
    + apply IH; [exact Hnd |]. intros j Hj. apply HP. right. exact Hj.
    + rewrite (HP x) by left. intros Hin. apply Hx.
      eapply elem_of_sublist; [exact Hin | exact Hs].
Qed.

(** Reading the positions back from the code built from them. *)
Lemma positions_of_indices (L : nat) (idx : list nat) :
  idx `sublist_of` seq 0 L -> positions (code_of_indices L idx) = idx.
Proof.
  intros Hs. unfold positions. rewrite code_of_indices_length.
  apply filter_members_of_sublist; [apply NoDup_seq | exact Hs |].
  intros j Hj%elem_of_seq. cbv beta. unfold code_of_indices, code.
  rewrite list_lookup_fmap, lookup_seq_lt by lia. simpl.
  destruct (decide (j ∈ idx)) as [Hin | Hin].
  - rewrite bool_decide_eq_true_2 by exact Hin. tauto.
  - rewrite bool_decide_eq_false_2 by exact Hin. split; [discriminate | contradiction].
Qed.

Lemma lex_lt_irrefl (a : list nat) : ~ lex_lt a a.
Proof. induction a as [| x a IH]; simpl; [tauto |]. intros [H | [_ H]]; [lia | auto]. Qed.

Lemma combinations_NoDup (L k : nat) : NoDup (combinations (seq 0 L) k).
Proof.
  pose proof (combinations_sorted (seq 0 L) k (seq_sorted 0 L)) as Hs.
  induction Hs as [| a l _ IH Ha]; constructor; [| exact IH].
  intros Hin. rewrite Forall_forall in Ha. exact (lex_lt_irrefl a (Ha a Hin)).
Qed.


(** ** [find_codes_lyndon]: what the files hold *)

Lemma legacy_write_ok_later (cost_function : code -> Z) (K : nat) (density : Q)
      (counts : list Z) (n : nat) (count : Z) (e : event) :
  counts !! n = Some count ->
  legacy_write_ok cost_function K density counts e ->
  legacy_write_ok cost_function K density (<[n := count + 1]> counts) e.
Proof.
  intros Hn. destruct e as [| | | m cnt c s]; simpl; auto.
  intros (Hlen & HK & Hw & Hs & searched & Hm & Hle).
  repeat (split; [assumption |]).
  destruct (decide (m = n)) as [-> | Hne].
  - exists (count + 1). rewrite list_lookup_insert_eq by (eapply lookup_lt_Some, Hn).
    split; [reflexivity |]. assert (searched = count) by congruence. lia.
  - exists searched. rewrite list_lookup_insert_ne by congruence. split; assumption.
Qed.

Lemma find_codes_lyndon_body_writes (f32 : Z -> Z) (cost_function : code -> Z)
      (K L : nat) (density : Q) (st : lyndon_state) (w : code) :
  Forall (legacy_write_ok cost_function K density (num_searched_codes st)) (ly_trace st) /\
  Forall (fun count => 0 <= count) (num_searched_codes st) ->
  let st' := final_state (find_codes_lyndon_body f32 cost_function K
                                                 (num_allowed_ones_of L density) st w) in
  Forall (legacy_write_ok cost_function K density (num_searched_codes st')) (ly_trace st') /\
  Forall (fun count => 0 <= count) (num_searched_codes st').
Proof.
  intros [Hwrites Hcounts]. unfold find_codes_lyndon_body.
  destruct (decide (K <= length w)%nat) as [HK |]; [| split; assumption].
  destruct (num_allowed_ones_of L density !! length w) as [allowed |] eqn:Ha;
    [| split; assumption].
  apply num_allowed_ones_lookup_inv in Ha.
  destruct (decide (np_sum w = allowed)) as [Hw |]; [| split; assumption].
  destruct (num_searched_codes st !! length w) as [count |] eqn:Hc; [| split; assumption].
  destruct (score_best st !! length w); [| split; assumption].
  assert (Hpos : 0 <= count).
  { rewrite Forall_forall in Hcounts. eapply Hcounts, list_elem_of_lookup_2, Hc. }
  assert (Hlater : Forall (legacy_write_ok cost_function K density
                             (<[length w := count + 1]> (num_searched_codes st)))
                          (ly_trace st)).
  { eapply Forall_impl; [exact Hwrites |]. intros e. apply legacy_write_ok_later, Hc. }
  assert (Hcounts' : Forall (fun c => 0 <= c)
                            (<[length w := count + 1]> (num_searched_codes st))).
  { apply Forall_insert; [exact Hcounts | lia]. }
  destruct (score_gt _ _); simpl; (split; [| exact Hcounts']).
  - apply Forall_app. split; [apply Forall_app; split; [exact Hlater | repeat constructor] |].
    constructor; [exact I |]. constructor; [| constructor].
    simpl. repeat (split; [first [reflexivity | assumption | congruence] |]).
    exists (count + 1).
    rewrite list_lookup_insert_eq by (eapply lookup_lt_Some, Hc). split; [reflexivity | lia].
  - apply Forall_app. split; [exact Hlater | repeat constructor].
Qed.

(** X11. Every file [find_codes_lyndon] writes for a length n holds a code of
    length n (at least K) with int(n * density) ones, the cost of that code,
    and a count that was the number of codes of length n searched when the
    code was found: at least one, and never more than the number searched by
    the end of the run. *)
Theorem find_codes_lyndon_files
        (LLW : Z -> nat -> code -> list code) (f32 : Z -> Z)
        (cost_function : code -> Z) (K L : nat) (density : Q) :
  let st := final_state (find_codes_lyndon LLW f32 cost_function K L density) in
  Forall (legacy_write_ok cost_function K density (num_searched_codes st)) (ly_trace st).
Proof.
  intros st. subst st. unfold find_codes_lyndon.
  apply (for_each_invariant
           (fun st => Forall (legacy_write_ok cost_function K density (num_searched_codes st))
                             (ly_trace st) /\
                      Forall (fun count => 0 <= count) (num_searched_codes st))).
  - intros st w. apply find_codes_lyndon_body_writes.
  - split; [constructor |]. simpl. apply Forall_replicate. lia.
Qed.

(** ** [lyndon]: what the archive ends up holding *)

Lemma updates_for_app (n : nat) (a b : list event) :
  updates_for n (a ++ b) = updates_for n a ++ updates_for n b.
Proof. unfold updates_for. rewrite List.map_app, concat_app. reflexivity. Qed.

Lemma first_max_snoc {A} (f : A -> Z) (seen : list A) (best : option A) (x : A) :
  first_max f seen best ->
  first_max f (seen ++ [x]) (if score_gt (f x) (score_of f best) then Some x else best).
Proof.
  intros Hseen.
  destruct (first_max_batch f seen [x] best 0 Hseen eq_refl) as (y & Hy & _ & Hnew).
  injection Hy as <-. exact Hnew.
Qed.

Lemma lyndon_body_archive (f32 : Z -> Z) (objective_function : objective) (K L : nat)
      (density : Q) (seen : list code) (st : lyndon_state) (w : code) :
  (forall c, f32 (obj_call objective_function c) = obj_call objective_function c) ->
  lyndon_wf L st -> (length w <= L)%nat ->
  lyndon_archive_inv objective_function K L density seen st ->
  exists st1,
    lyndon_body f32 objective_function K (num_allowed_ones_of L density) st w = Ok st1 /\
    lyndon_archive_inv objective_function K L density (seen ++ [w]) st1.
Proof.
  intros Hexact Hwf Hlen Hinv.
  destruct (lyndon_body_cases f32 objective_function K L density st w Hwf Hlen)
    as [(HK & Hw & count & best & Hc & Hb & Hbody) | [Hno Hbody]].
  - eexists. split; [exact Hbody |]. intros n Hn.
    destruct (Hinv n Hn) as (bestn & Hmax & Hscore & Hlast).
    unfold candidates in *. rewrite filter_app.
    destruct (decide (n = length w)) as [-> | Hne].
    + rewrite (filter_cons_True _ w []) by tauto. rewrite filter_nil.
      assert (best = score_of (obj_call objective_function) bestn) by congruence. subst best.
      pose proof (first_max_snoc _ _ _ w Hmax) as Hnew.
      destruct (score_gt _ _); simpl.
      * exists (Some w). split; [exact Hnew |].
        rewrite list_lookup_insert_eq by (eapply lookup_lt_Some, Hb).
        rewrite Hexact. split; [reflexivity |].
        rewrite !updates_for_app. simpl. unfold updates_for at 3. simpl.
        destruct (decide (length w = length w)); [| congruence].
        simpl. rewrite app_nil_r, last_snoc. reflexivity.
      * exists bestn. split; [exact Hnew |]. split; [exact Hscore |].
        rewrite updates_for_app. simpl. rewrite app_nil_r. exact Hlast.
    + rewrite (filter_cons_False _ w []) by (intros [? _]; congruence).
      rewrite filter_nil, app_nil_r.
      exists bestn. split; [exact Hmax |].
      destruct (score_gt _ _); simpl.
      * rewrite list_lookup_insert_ne by congruence. split; [exact Hscore |].
        rewrite !updates_for_app. simpl. unfold updates_for at 3. simpl.
        destruct (decide (length w = n)); [congruence |].
        simpl. rewrite !app_nil_r. exact Hlast.
      * split; [exact Hscore |].
        rewrite updates_for_app. simpl. rewrite app_nil_r. exact Hlast.
  - exists st. split; [exact Hbody |]. intros n Hn.
    destruct (Hinv n Hn) as (bestn & Hmax & Hscore & Hlast).
    exists bestn. unfold candidates in *. rewrite filter_app.
    rewrite (filter_cons_False _ w []) by tauto. rewrite filter_nil, app_nil_r.
    repeat split; assumption.
Qed.

Lemma lyndon_loop_archive (f32 : Z -> Z) (objective_function : objective) (K L : nat)
      (density : Q) :
  (forall c, f32 (obj_call objective_function c) = obj_call objective_function c) ->
  forall (words seen : list code) (st : lyndon_state),
    lyndon_wf L st -> Forall (fun w => (length w <= L)%nat) words ->
    lyndon_archive_inv objective_function K L density seen st ->
    exists st',
      for_each (lyndon_body f32 objective_function K (num_allowed_ones_of L density))
               st words = Ok st' /\
      lyndon_archive_inv objective_function K L density (seen ++ words) st'.
Proof.
  intros Hexact. induction words as [| w words IH]; intros seen st Hwf Hwords Hinv.
  - exists st. rewrite app_nil_r. split; [reflexivity | exact Hinv].
  - apply Forall_cons in Hwords as [Hw Hwords].
    destruct (lyndon_body_archive f32 objective_function K L density seen st w
                Hexact Hwf Hw Hinv) as (st1 & Hbody & Hinv1).
    pose proof (lyndon_body_wf f32 objective_function K L
                  (num_allowed_ones_of L density) st w Hwf) as Hwf1.
    rewrite Hbody in Hwf1. simpl in Hwf1.
    destruct (IH (seen ++ [w]) st1 Hwf1 Hwords Hinv1) as (st' & Hrun & Hinv').
    exists st'. split; [simpl; rewrite Hbody; exact Hrun |].
    rewrite <- app_assoc in Hinv'. exact Hinv'.
Qed.

(** X12. If the objective returns float32 scores (the store into the float32
    array changes none of them) and the generator keeps to the length limit,
    then at the end of [lyndon] the last archiver update made for a length
    n <= L carries the first candidate of that length, in generation order,
    whose score is maximal, together with that score and the weight
    int(n * density); if no word of length n passed the filter, no update
    was made for n. *)
Theorem lyndon_archives_first_maximum
        (LLW : Z -> nat -> code -> list code) (f32 : Z -> Z)
        (objective_function : objective) (K L : nat) (density : Q) (n : nat) :
  (forall c, f32 (obj_call objective_function c) = obj_call objective_function c) ->
  Forall (fun w => (length w <= L)%nat) (LLW 2 L (lyndon_seed L density)) ->
  (n <= L)%nat ->
  exists st best,
    lyndon LLW f32 K L objective_function density = Ok st /\
    first_max (obj_call objective_function)
              (candidates K density n (LLW 2 L (lyndon_seed L density))) best /\
    score_best st !! n = Some (score_of (obj_call objective_function) best) /\
    last (updates_for n (ly_trace st)) = lyndon_update objective_function density <$> best.
Proof.
  intros Hexact Hwords Hn. unfold lyndon.
  destruct (lyndon_loop_archive f32 objective_function K L density Hexact
              (LLW 2 L (lyndon_seed L density)) [] (lyndon_init L)
              (lyndon_init_wf L) Hwords) as (st & Hrun & Hinv).
  - intros m Hm. exists None. simpl. split; [reflexivity |].
    split; [apply lookup_replicate_2; lia | reflexivity].
  - destruct (Hinv n Hn) as (best & Hmax & Hscore & Hlast).
    exists st, best. repeat split; assumption.
Qed.

Lemma lyndon_archives_first_maximum_witness :
  ((forall c, (fun z : Z => z) (obj_call demo_objective c) = obj_call demo_objective c) /\
   Forall (fun w : code => (length w <= 4)%nat) (demo_words 2 4%nat (lyndon_seed 4 (1 # 2))) /\
   (4 <= 4)%nat) /\
  exists st best,
    lyndon demo_words (fun z => z) 2 4 demo_objective (1 # 2) = Ok st /\
    first_max (obj_call demo_objective)
              (candidates 2 (1 # 2) 4 (demo_words 2 4%nat (lyndon_seed 4 (1 # 2)))) best /\
    score_best st !! 4%nat = Some (score_of (obj_call demo_objective) best) /\
    last (updates_for 4 (ly_trace st)) = lyndon_update demo_objective (1 # 2) <$> best.
Proof.
  assert (Hwords : Forall (fun w : code => (length w <= 4)%nat)
                          (demo_words 2 4%nat (lyndon_seed 4 (1 # 2))))
    by (unfold demo_words; repeat constructor).
  split; [split; [reflexivity | split; [exact Hwords | lia]] |].
  apply (lyndon_archives_first_maximum demo_words (fun z => z) demo_objective 2 4 (1 # 2) 4);
    [reflexivity | exact Hwords | lia].
Defined.

(** ** [bracelet] and [necklace] over a range of lengths *)

Lemma updates_for_scoring (n m : nat) (ev : list event) :
  Forall (scoring_event m) ev -> updates_for n ev = [].
Proof.
  induction 1 as [| e ev [_ He] _ IH]; [reflexivity |].
  change (e :: ev) with ([e] ++ ev). rewrite updates_for_app, IH.
  destruct e; try discriminate; reflexivity.
Qed.

Lemma updates_for_pass (n a : nat) (tr ev : list event) (u : update_call) :
  Forall (scoring_event a) ev ->
  updates_for n (tr ++ ev ++ [EvUpdate a u])
  = updates_for n tr ++ (if decide (a = n) then [u] else []).
Proof.
  intros Hev. rewrite !updates_for_app, (updates_for_scoring n a ev Hev). simpl.
  unfold updates_for at 2. simpl. rewrite app_nil_r. reflexivity.
Qed.

(** If every pass of the outer loop completes, so does the loop, and each
    length is left with the one update of its own pass. *)
Lemma range_loop_updates (pass : list event -> nat -> result (list event))
      (U : nat -> update_call -> Prop) :
  forall (m a : nat),
    (forall tr n, (a <= n < a + m)%nat ->
                  exists ev u, pass tr n = Ok (tr ++ ev ++ [EvUpdate n u]) /\
                               Forall (scoring_event n) ev /\ U n u) ->
    forall tr0,
      exists tr,
        for_each pass tr0 (seq a m) = Ok tr /\
        forall n,
          ((a <= n < a + m)%nat ->
           exists u, updates_for n tr = updates_for n tr0 ++ [u] /\ U n u) /\
          (~ (a <= n < a + m)%nat -> updates_for n tr = updates_for n tr0).
Proof.
  induction m as [| m IH]; intros a Hpass tr0; simpl.
  - exists tr0. split; [reflexivity |]. intros n. split; [lia | reflexivity].
  - destruct (Hpass tr0 a ltac:(lia)) as (ev & u & Hrun & Hev & Hu). rewrite Hrun.
    destruct (IH (S a)) with (tr0 := tr0 ++ ev ++ [EvUpdate a u]) as (tr & Hloop & Hupd).
    { intros tr n Hn. apply Hpass. lia. }
    exists tr. split; [exact Hloop |]. intros n.
    destruct (Hupd n) as [Hin Hout]. rewrite (updates_for_pass n a tr0 ev u Hev) in Hin, Hout.
    split; intros Hn.
    + destruct (decide (a = n)) as [-> | Hne].
      * exists u. split; [apply Hout; lia | exact Hu].
      * destruct Hin as (u' & Hu' & HU'); [lia |].
        exists u'. rewrite app_nil_r in Hu'. split; assumption.
    + destruct (decide (a = n)); [lia |]. rewrite app_nil_r in Hout. apply Hout. lia.
Qed.

(** X13. With a positive batch size that divides the number of bracelets of
    no length in [K, L], [bracelet] returns normally, and for every length in
    the range the archiver was updated exactly once, with a bracelet of that
    length of maximal score, its score, and the weight int(n * density). *)
Theorem bracelet_archives_a_best_code
        (bracelet_fc : nat -> Z -> list Z -> list code)
        (objective_function : objective) (K L : nat) (density : Q) (batch_size : Z) :
  0 < batch_size ->
  (forall n, (K <= n <= L)%nat ->
             Z.of_nat (length (bracelet_fc n 2 [Z.of_nat n - int_mul n density;
                                                int_mul n density])) mod batch_size <> 0) ->
  exists tr,
    bracelet bracelet_fc K L objective_function density batch_size = Ok tr /\
    forall n, (K <= n <= L)%nat ->
      exists c,
        updates_for n tr = [{| upd_name := obj_name objective_function;
                               upd_code := Some c;
                               upd_score := Fin (obj_call objective_function c);
                               upd_weight := int_mul n density |}] /\
        c ∈ bracelet_fc n 2 [Z.of_nat n - int_mul n density; int_mul n density] /\
        forall c', c' ∈ bracelet_fc n 2 [Z.of_nat n - int_mul n density; int_mul n density] ->
                   obj_call objective_function c' <= obj_call objective_function c.
Proof.
  intros Hbs Hmod. unfold bracelet.
  destruct (range_loop_updates
              (bracelet_length bracelet_fc objective_function density batch_size)
              (fun n u =>
                 exists c,
                   u = {| upd_name := obj_name objective_function;
                          upd_code := Some c;
                          upd_score := Fin (obj_call objective_function c);
                          upd_weight := int_mul n density |} /\
                   c ∈ bracelet_fc n 2 [Z.of_nat n - int_mul n density; int_mul n density] /\
                   forall c', c' ∈ bracelet_fc n 2 [Z.of_nat n - int_mul n density;
                                                    int_mul n density] ->
                              obj_call objective_function c' <= obj_call objective_function c)
              (L + 1 - K) K) with (tr0 := @nil event) as (tr & Hrun & Hupd).
  - intros tr n Hn.
    destruct (bracelet_length_outcome bracelet_fc objective_function density batch_size
                tr n Hbs) as [_ Hok].
    destruct Hok as (ev & c & Hpass & Hev & _ & _ & Hin & Hbest); [apply Hmod; lia |].
    exists ev. eexists. split; [exact Hpass |]. split; [exact Hev |].
    exists c. split; [reflexivity |]. split; assumption.
  - exists tr. split; [exact Hrun |]. intros n Hn.
    destruct (Hupd n) as [Hin _].
    destruct Hin as (u & Hu & c & -> & Hc & Hbest); [lia |].
    exists c. split; [exact Hu |]. split; assumption.
Qed.

Lemma bracelet_archives_a_best_code_witness :
  (0 < 2 /\
   forall n, (6 <= n <= 6)%nat ->
             Z.of_nat (length (demo_bracelet_fc n 2 [Z.of_nat n - int_mul n (1 # 2);
                                                     int_mul n (1 # 2)])) mod 2 <> 0) /\
  exists tr,
    bracelet demo_bracelet_fc 6 6 demo_objective (1 # 2) 2 = Ok tr /\
    forall n, (6 <= n <= 6)%nat ->
      exists c,
        updates_for n tr = [{| upd_name := obj_name demo_objective;
                               upd_code := Some c;
                               upd_score := Fin (obj_call demo_objective c);
                               upd_weight := int_mul n (1 # 2) |}] /\
        c ∈ demo_bracelet_fc n 2 [Z.of_nat n - int_mul n (1 # 2); int_mul n (1 # 2)] /\
        forall c', c' ∈ demo_bracelet_fc n 2 [Z.of_nat n - int_mul n (1 # 2);
                                              int_mul n (1 # 2)] ->
                   obj_call demo_objective c' <= obj_call demo_objective c.
Proof.
  assert (Hmod : forall n, (6 <= n <= 6)%nat ->
             Z.of_nat (length (demo_bracelet_fc n 2 [Z.of_nat n - int_mul n (1 # 2);
                                                     int_mul n (1 # 2)])) mod 2 <> 0).
  { intros n Hn. assert (n = 6%nat) as -> by lia. vm_compute. congruence. }
  split; [split; [lia | exact Hmod] |].
  apply (bracelet_archives_a_best_code demo_bracelet_fc demo_objective 6 6 (1 # 2) 2);
    [lia | exact Hmod].
Defined.

(** X14. With a positive batch size, if for every length in [K, L] the
    enumeration of necklaces is non-empty, of that length, and not a multiple
    of the batch size in number, [necklace] returns normally, and for every
    length in the range the archiver was updated exactly once, with the first
    necklace of the enumeration (letters lowered by one) whose score is
    maximal, its score, and the weight int(n * density). *)
Theorem necklace_archives_first_maximum
        (Necklaces : list Z -> list code)
        (objective_function : objective) (K L : nat) (density : Q) (batch_size : Z) :
  0 < batch_size ->
  (forall n, (K <= n <= L)%nat ->
             exists first others,
               Necklaces [Z.of_nat n - int_mul n density; int_mul n density]
               = first :: others /\
               length first = n /\
               Z.of_nat (length (first :: others)) mod batch_size <> 0) ->
  exists tr,
    necklace Necklaces K L objective_function density batch_size = Ok tr /\
    forall n, (K <= n <= L)%nat ->
      exists c,
        updates_for n tr = [{| upd_name := obj_name objective_function;
                               upd_code := Some c;
                               upd_score := Fin (obj_call objective_function c);
                               upd_weight := int_mul n density |}] /\
        first_max (obj_call objective_function)
                  (minus_one (Necklaces [Z.of_nat n - int_mul n density; int_mul n density]))
                  (Some c).
Proof.
  intros Hbs Hgen. unfold necklace.
  destruct (range_loop_updates
              (necklace_length Necklaces objective_function density batch_size)
              (fun n u =>
                 exists c,
                   u = {| upd_name := obj_name objective_function;
                          upd_code := Some c;
                          upd_score := Fin (obj_call objective_function c);
                          upd_weight := int_mul n density |} /\
                   first_max (obj_call objective_function)
                             (minus_one (Necklaces [Z.of_nat n - int_mul n density;
                                                    int_mul n density]))
                             (Some c))
              (L + 1 - K) K) with (tr0 := @nil event) as (tr & Hrun & Hupd).
  - intros tr n Hn.
    destruct (Hgen n ltac:(lia)) as (first & others & Hcodes & Hfirst & Hmod).
    destruct (necklace_length_outcome Necklaces objective_function density batch_size
                tr n first others Hbs Hcodes Hfirst) as [_ Hok].
    destruct (Hok Hmod) as (ev & c & Hpass & Hev & _ & Hbest).
    exists ev. eexists. split; [exact Hpass |]. split; [exact Hev |].
    exists c. split; [reflexivity |]. rewrite Hcodes. exact Hbest.
  - exists tr. split; [exact Hrun |]. intros n Hn.
    destruct (Hupd n) as [Hin _].
    destruct Hin as (u & Hu & c & -> & Hbest); [lia |].
    exists c. split; assumption.
Qed.

Lemma necklace_archives_first_maximum_witness :
  (0 < 3 /\
   forall n, (6 <= n <= 6)%nat ->
             exists first others,
               demo_Necklaces [Z.of_nat n - int_mul n (1 # 2); int_mul n (1 # 2)]
               = first :: others /\
               length first = n /\
               Z.of_nat (length (first :: others)) mod 3 <> 0) /\
  exists tr,
    necklace demo_Necklaces 6 6 demo_objective (1 # 2) 3 = Ok tr /\
    forall n, (6 <= n <= 6)%nat ->
      exists c,
        updates_for n tr = [{| upd_name := obj_name demo_objective;
                               upd_code := Some c;
                               upd_score := Fin (obj_call demo_objective c);
                               upd_weight := int_mul n (1 # 2) |}] /\
        first_max (obj_call demo_objective)
                  (minus_one (demo_Necklaces [Z.of_nat n - int_mul n (1 # 2);
                                              int_mul n (1 # 2)]))
                  (Some c).
Proof.
  assert (Hgen : forall n, (6 <= n <= 6)%nat ->
             exists first others,
               demo_Necklaces [Z.of_nat n - int_mul n (1 # 2); int_mul n (1 # 2)]
               = first :: others /\
               length first = n /\
               Z.of_nat (length (first :: others)) mod 3 <> 0).
  { intros n Hn. assert (n = 6%nat) as -> by lia.
    eexists. eexists. split; [vm_compute; reflexivity |].
    split; [reflexivity | vm_compute; congruence]. }
  split; [split; [lia | exact Hgen] |].
  apply (necklace_archives_first_maximum demo_Necklaces demo_objective 6 6 (1 # 2) 3);
    [lia | exact Hgen].
Defined.

(** ** The word [lyndon] starts the generator from *)

Lemma np_sum_app (a b : code) : np_sum (a ++ b) = np_sum a + np_sum b.
Proof. unfold np_sum. induction a as [| x a IH]; simpl; [reflexivity | rewrite IH; lia]. Qed.

Lemma np_sum_replicate (n : nat) (v : Z) : np_sum (replicate n v) = Z.of_nat n * v.
Proof.
  unfold np_sum. induction n as [| n IH]; [reflexivity |].
  simpl replicate. simpl foldr. rewrite IH. lia.
Qed.

Lemma binary_sum_bounds (w : code) : binary w -> 0 <= np_sum w <= Z.of_nat (length w).
Proof.
  unfold binary, np_sum. induction 1 as [| x w Hx _ IH]; simpl; [lia |].
  destruct Hx as [-> | ->]; lia.
Qed.

Lemma code_lex_le_refl (w : code) : code_lex_le w w.
Proof. induction w as [| x w IH]; simpl; [exact I | right; auto]. Qed.

Lemma all_ones (w : code) :
  binary w -> np_sum w = Z.of_nat (length w) -> w = replicate (length w) 1.
Proof.
  intros Hbin. induction Hbin as [| x w Hx Hw IH]; intros Hsum; [reflexivity |].
  pose proof (binary_sum_bounds w Hw) as Hb.
  change (np_sum (x :: w)) with (x + np_sum w) in Hsum. simpl length in *.
  destruct Hx as [-> | ->]; [lia |].
  simpl. f_equal. apply IH. lia.
Qed.

Lemma zeros_then_ones_least (a b : nat) (w : code) :
  binary w -> length w = (a + b)%nat -> np_sum w = Z.of_nat b ->
  code_lex_le (replicate a 0 ++ replicate b 1) w.
Proof.
  revert w. induction a as [| a IH]; intros w Hbin Hlen Hsum.
  - simpl in *. rewrite <- Hlen in Hsum. rewrite (all_ones w Hbin Hsum), Hlen.
    apply code_lex_le_refl.
  - destruct w as [| x w]; [discriminate |].
    apply Forall_cons in Hbin as [Hx Hw].
    change (np_sum (x :: w)) with (x + np_sum w) in Hsum. simpl in Hlen.
    simpl. destruct Hx as [-> | ->]; [| left; lia].
    right. split; [reflexivity |]. apply IH; [exact Hw | lia | lia].
Qed.

(** X15. For a density in [0, 1] the word [lyndon] hands to the generator as
    its starting point is a binary word of length L with exactly
    int(L * density) ones, and it is the lexicographically least such word:
    no binary word of length L with that many ones precedes it, so starting
    the scan there skips no candidate of the longest length. *)
Theorem lyndon_seed_is_least_candidate (L : nat) (density : Q) :
  (0 <= density)%Q -> (density <= 1)%Q ->
  length (lyndon_seed L density) = L /\
  binary (lyndon_seed L density) /\
  np_sum (lyndon_seed L density) = int_mul L density /\
  forall w : code,
    binary w -> length w = L -> np_sum w = int_mul L density ->
    code_lex_le (lyndon_seed L density) w.
Proof.
  intros H0 H1. pose proof (int_mul_bounds L density H0 H1) as [Hk0 HkL].
  unfold lyndon_seed. split; [| split; [| split]].
  - rewrite length_app, !length_replicate. lia.
  - unfold binary. apply Forall_app. split; apply Forall_replicate; auto.
  - rewrite np_sum_app, !np_sum_replicate. lia.
  - intros w Hbin Hlen Hsum. apply zeros_then_ones_least; [exact Hbin | lia | lia].
Qed.

Lemma lyndon_seed_is_least_candidate_witness :
  ((0 <= 1 # 2)%Q /\ (1 # 2 <= 1)%Q) /\
  length (lyndon_seed 4 (1 # 2)) = 4%nat /\
  binary (lyndon_seed 4 (1 # 2)) /\
  np_sum (lyndon_seed 4 (1 # 2)) = int_mul 4 (1 # 2) /\
  forall w : code,
    binary w -> length w = 4%nat -> np_sum w = int_mul 4 (1 # 2) ->
    code_lex_le (lyndon_seed 4 (1 # 2)) w.
Proof.
  split; [split; unfold Qle; simpl; lia |].
  apply (lyndon_seed_is_least_candidate 4 (1 # 2)); unfold Qle; simpl; lia.
Defined.
